(** * hass-panel: the state reconciliation engine of [src/App.tsx]

    A shallow embedding of the pure helpers and of the state-handling
    callbacks of the React component [App], followed by the properties
    the specification states about them.

    Conventions.
    - A JavaScript number is an IEEE 754 binary64 value; it is modelled by
      [spec_float] at precision 53 and maximal exponent 1024.
    - A JavaScript string is a sequence of code units; the model covers
      the strings whose code units are below 256 and stores one code
      unit per character of a Rocq [string].
    - An untyped JSON value ([unknown] in the source) is a [JsValue].
    - React state is an explicit record; an [async] function returns its
      settled promise together with the requests it issued. *)

From Stdlib Require Import ZArith Lia Bool Ascii String.
From Stdlib Require Import Floats.SpecFloat.
From stdpp Require Import gmap strings list sorting pretty.

Local Open Scope string_scope.
Local Open Scope Z_scope.

(** ** The JavaScript runtime *)

Module Js.

(** *** Numbers *)

Definition number : Type := spec_float.

Definition prec : Z := 53.
Definition emax : Z := 1024.

Definition NaN : number := S754_nan.
Definition Infinity : number := S754_infinity false.

(** An integer literal of the source, rounded to binary64. *)
Definition num (z : Z) : number := binary_normalize prec emax z 0 false.

(** [Number.isFinite] applied to a value that is already a number. *)
Definition Number_isFinite (x : number) : bool :=
  match x with
  | S754_zero _ | S754_finite _ _ _ => true
  | S754_infinity _ | S754_nan => false
  end.

(** [Math.min] and [Math.max] of two numbers: NaN is contagious and
    [-0] is below [+0]. *)
Definition Math_min (a b : number) : number :=
  match SFcompare a b with
  | None => NaN
  | Some Lt => a
  | Some Gt => b
  | Some Eq =>
      match a, b with
      | S754_zero true, _ => a
      | _, S754_zero true => b
      | _, _ => a
      end
  end.

Definition Math_max (a b : number) : number :=
  match SFcompare a b with
  | None => NaN
  | Some Lt => b
  | Some Gt => a
  | Some Eq =>
      match a, b with
      | S754_zero false, _ => a
      | _, S754_zero false => b
      | _, _ => a
      end
  end.

(** The mathematical value of a finite number when it is an integer. *)
Definition integer_value (x : number) : option Z :=
  match x with
  | S754_zero _ => Some 0
  | S754_finite s m e =>
      let v := if s then Z.neg m else Z.pos m in
      if 0 <=? e then Some (v * 2 ^ e)
      else if Z.pos m mod 2 ^ (- e) =? 0 then Some (v / 2 ^ (- e))
      else None
  | _ => None
  end.

(** *** Strings *)

Definition hex_char (d : Z) : ascii :=
  ascii_of_nat (Z.to_nat (if d <? 10 then 48 + d else 87 + d)).

Fixpoint hex_go (fuel : nat) (z : Z) (acc : string) : string :=
  match fuel with
  | O => acc
  | S f =>
      let acc' := String (hex_char (z mod 16)) acc in
      if z / 16 =? 0 then acc' else hex_go f (z / 16) acc'
  end.

(** The lowercase hexadecimal digits of a natural number. *)
Definition hex_of_Z (z : Z) : string :=
  hex_go (S (Z.to_nat (Z.log2 z))) z EmptyString.

Definition code (c : ascii) : Z := Z.of_nat (nat_of_ascii c).

(** [WhiteSpace] and [LineTerminator] code units below 256: TAB, LF, VT,
    FF, CR, SP and NBSP. *)
Definition is_white_space (c : ascii) : bool :=
  let n := code c in
  ((9 <=? n) && (n <=? 13)) || (n =? 32) || (n =? 160).

Fixpoint trimStart (s : string) : string :=
  match s with
  | EmptyString => EmptyString
  | String c r => if is_white_space c then trimStart r else s
  end.

Definition trimEnd (s : string) : string :=
  String.rev (trimStart (String.rev s)).

Definition trim (s : string) : string := trimEnd (trimStart s).

Fixpoint startsWith (s p : string) : bool :=
  match p, s with
  | EmptyString, _ => true
  | String b p', String a s' => if Ascii.eqb a b then startsWith s' p' else false
  | String _ _, EmptyString => false
  end.

Fixpoint zeros (k : nat) : string :=
  match k with
  | O => EmptyString
  | S k' => String "0"%char (zeros k')
  end.

(** [s.padStart(n, '0')] *)
Definition padStart0 (n : nat) (s : string) : string :=
  String.app (zeros (n - String.length s)) s.

(** *** [Number(string)]: the StringToNumber conversion

    The argument is trimmed, an empty rest is [+0], a
    [StrNumericLiteral] is its mathematical value rounded to the nearest
    binary64 (ties to even) and everything else is [NaN]. *)

Definition digit (radix : Z) (c : ascii) : option Z :=
  let n := code c in
  let v :=
    if (48 <=? n) && (n <=? 57) then Some (n - 48)
    else if (97 <=? n) && (n <=? 102) then Some (n - 87)
    else if (65 <=? n) && (n <=? 70) then Some (n - 55)
    else None in
  match v with
  | Some d => if d <? radix then Some d else None
  | None => None
  end.

(** The longest run of digits at the head of [s]: the value accumulated
    onto [acc], the number of digits read and the rest of the string. *)
Fixpoint digits (radix : Z) (s : string) (acc : Z) (n : nat) : Z * nat * string :=
  match s with
  | String c r =>
      match digit radix c with
      | Some d => digits radix r (acc * radix + d) (S n)
      | None => (acc, n, s)
      end
  | EmptyString => (acc, n, s)
  end.

(** [p / q] for positive [p] and [q], rounded once: the quotient is
    computed with at least 56 significant bits and a sticky bit. *)
Definition round_ratio (p q : Z) : number :=
  let k := Z.max 0 (56 + Z.log2 q - Z.log2 p) in
  let n := p * 2 ^ k in
  let sticky := if n mod q =? 0 then 0 else 1 in
  binary_normalize prec emax (2 * (n / q) + sticky) (- (k + 1)) false.

(** [m * 10 ^ e] for [m >= 0]. *)
Definition decimal_value (m e : Z) : number :=
  if m =? 0 then S754_zero false
  else if 0 <=? e then num (m * 10 ^ e)
  else round_ratio m (10 ^ (- e)).

Definition ExponentPart (s : string) : option Z :=
  match s with
  | EmptyString => Some 0
  | String c r =>
      if (code c =? 101) || (code c =? 69) then
        let '(neg, r') :=
          match r with
          | String "+" t => (false, t)
          | String "-" t => (true, t)
          | _ => (false, r)
          end in
        match digits 10 r' 0 0 with
        | (_, O, _) => None
        | (v, S _, EmptyString) => Some (if neg then - v else v)
        | (_, S _, String _ _) => None
        end
      else None
  end.

Definition StrUnsignedDecimalLiteral (s : string) : option number :=
  if String.eqb s "Infinity" then Some Infinity
  else
    let '(ip, ni, r1) := digits 10 s 0 0 in
    let '(m, nf, r2) :=
      match r1 with
      | String "." r => digits 10 r ip 0
      | _ => (ip, O, r1)
      end in
    match (ni + nf)%nat with
    | O => None
    | S _ =>
        match ExponentPart r2 with
        | Some ex => Some (decimal_value m (ex - Z.of_nat nf))
        | None => None
        end
    end.

Definition StrDecimalLiteral (s : string) : option number :=
  match s with
  | String "+" r => StrUnsignedDecimalLiteral r
  | String "-" r => option_map SFopp (StrUnsignedDecimalLiteral r)
  | _ => StrUnsignedDecimalLiteral s
  end.

Definition NonDecimalIntegerLiteral (s : string) : option number :=
  match s with
  | String "0" (String c r) =>
      let n := code c in
      let radix :=
        if (n =? 120) || (n =? 88) then Some 16
        else if (n =? 111) || (n =? 79) then Some 8
        else if (n =? 98) || (n =? 66) then Some 2
        else None in
      match radix with
      | Some b =>
          match digits b r 0 0 with
          | (v, S _, EmptyString) => Some (num v)
          | _ => None
          end
      | None => None
      end
  | _ => None
  end.

Definition StringToNumber (s : string) : number :=
  match trim s with
  | EmptyString => S754_zero false
  | t =>
      match NonDecimalIntegerLiteral t with
      | Some x => x
      | None =>
          match StrDecimalLiteral t with
          | Some x => x
          | None => NaN
          end
      end
  end.

(** *** What the host decides

    ECMAScript leaves two operations the program uses to the host: the
    digits of [x.toString(16)] for an [x] that is not an integer, and the
    collation [a.localeCompare(b)]. *)

Class Host : Type := {
  toString16_fraction : number -> string;
  localeCompare : string -> string -> Z
}.

(** [x.toString(16)] *)
Definition Number_toString16 `{Host} (x : number) : string :=
  match x with
  | S754_nan => "NaN"
  | S754_infinity false => "Infinity"
  | S754_infinity true => "-Infinity"
  | _ =>
      match integer_value x with
      | Some z => if z <? 0 then String "-"%char (hex_of_Z (- z)) else hex_of_Z z
      | None => toString16_fraction x
      end
  end.

(** *** [TextEncoder] and [crypto.subtle.digest('SHA-256', _)]

    Bytes and 32-bit words are integers; every word operation reduces
    modulo [2 ^ 32]. The page is assumed to run in a secure context, where
    [crypto.subtle] exists and the digest promise is fulfilled. *)

(** UTF-8 of a string of code units below 256. *)
Fixpoint TextEncoder_encode (s : string) : list Z :=
  match s with
  | EmptyString => []
  | String c r =>
      let n := code c in
      if n <? 128 then n :: TextEncoder_encode r
      else Z.lor 192 (Z.shiftr n 6) :: Z.lor 128 (Z.land n 63) :: TextEncoder_encode r
  end.

Module SHA256.

Definition w32 (x : Z) : Z := x mod 2 ^ 32.
Definition add32 (x y : Z) : Z := w32 (x + y).
Definition rotr (n x : Z) : Z := w32 (Z.lor (Z.shiftr x n) (Z.shiftl x (32 - n))).
Definition not32 (x : Z) : Z := 2 ^ 32 - 1 - x.

Definition Ch (x y z : Z) : Z := Z.lxor (Z.land x y) (Z.land (not32 x) z).
Definition Maj (x y z : Z) : Z :=
  Z.lxor (Z.lxor (Z.land x y) (Z.land x z)) (Z.land y z).
Definition Sigma0 (x : Z) : Z := Z.lxor (Z.lxor (rotr 2 x) (rotr 13 x)) (rotr 22 x).
Definition Sigma1 (x : Z) : Z := Z.lxor (Z.lxor (rotr 6 x) (rotr 11 x)) (rotr 25 x).
Definition sigma0 (x : Z) : Z := Z.lxor (Z.lxor (rotr 7 x) (rotr 18 x)) (Z.shiftr x 3).
Definition sigma1 (x : Z) : Z := Z.lxor (Z.lxor (rotr 17 x) (rotr 19 x)) (Z.shiftr x 10).

(** The constants of FIPS 180-4: the first 32 bits of the fractional
    parts of the cube roots of the first 64 primes, and of the square
    roots of the first 8 for the initial hash. *)
Definition primes : list Z :=
  [
    2; 3; 5; 7; 11; 13; 17; 19; 23; 29; 31; 37; 41; 43; 47; 53;
    59; 61; 67; 71; 73; 79; 83; 89; 97; 101; 103; 107; 109; 113; 127; 131;
    137; 139; 149; 151; 157; 163; 167; 173; 179; 181; 191; 193; 197; 199; 211; 223;
    227; 229; 233; 239; 241; 251; 257; 263; 269; 271; 277; 281; 283; 293; 307; 311
  ].

(** The largest [r] in [lo, hi) whose cube is at most [n]. *)
Fixpoint cube_root_between (fuel : nat) (n lo hi : Z) : Z :=
  match fuel with
  | O => lo
  | S f =>
      if hi - lo <=? 1 then lo
      else
        let mid := (lo + hi) / 2 in
        if mid * mid * mid <=? n then cube_root_between f n mid hi
        else cube_root_between f n lo mid
  end.

Definition cube_root (n : Z) : Z := cube_root_between 64 n 0 (2 ^ 40).

Definition K : list Z := map (fun p => w32 (cube_root (p * 2 ^ 96))) primes.

Definition H0 : list Z := map (fun p => w32 (Z.sqrt (p * 2 ^ 64))) (take 8 primes).

(** The message, a [1] bit, zeros up to 56 modulo 64 bytes, and the bit
    length on 8 bytes. *)
Definition be_bytes (n : nat) (x : Z) : list Z :=
  map (fun i => Z.shiftr x (8 * Z.of_nat i) mod 256) (rev (seq 0 n)).

Definition pad (msg : list Z) : list Z :=
  let len := Z.of_nat (length msg) in
  let zeros := Z.to_nat ((55 - len) mod 64) in
  (msg ++ 128 :: repeat 0 zeros ++ be_bytes 8 (8 * len))%list.

Fixpoint words (fuel : nat) (bytes : list Z) : list Z :=
  match fuel, bytes with
  | S f, a :: b :: c :: d :: rest =>
      (Z.shiftl a 24 + Z.shiftl b 16 + Z.shiftl c 8 + d) :: words f rest
  | _, _ => []
  end.

Fixpoint blocks (fuel : nat) (ws : list Z) : list (list Z) :=
  match fuel, ws with
  | S f, _ :: _ => take 16 ws :: blocks f (drop 16 ws)
  | _, _ => []
  end.

(** The message schedule, most recent word first while it is built. *)
Fixpoint extend (n : nat) (rw : list Z) : list Z :=
  match n with
  | O => rw
  | S n' =>
      let w := add32 (add32 (sigma1 (nth 1 rw 0)) (nth 6 rw 0))
                 (add32 (sigma0 (nth 14 rw 0)) (nth 15 rw 0)) in
      extend n' (w :: rw)
  end.

Definition schedule (block : list Z) : list Z := rev (extend 48 (rev block)).

Definition round (st : list Z) (kw : Z * Z) : list Z :=
  match st with
  | [a; b; c; d; e; f; g; h] =>
      let t1 := add32 (add32 (add32 h (Sigma1 e)) (add32 (Ch e f g) kw.1)) kw.2 in
      let t2 := add32 (Sigma0 a) (Maj a b c) in
      [add32 t1 t2; a; b; c; add32 d t1; e; f; g]
  | _ => st
  end.

Definition compress (hash block : list Z) : list Z :=
  zip_with add32 hash (foldl round hash (zip K (schedule block))).

Definition digest (msg : list Z) : list Z :=
  let bytes := pad msg in
  let ws := words (length bytes) bytes in
  flat_map (be_bytes 4) (foldl compress H0 (blocks (length ws) ws)).

End SHA256.

(** *** [Array.prototype.sort]

    With a consistent comparator the result is the stable sort of the
    array, which is what insertion from the right computes: an element
    is put before the first later element it does not compare above. *)

Fixpoint sort_insert {A : Type} (cmp : A -> A -> Z) (x : A) (l : list A) : list A :=
  match l with
  | [] => [x]
  | y :: l' => if cmp x y <=? 0 then x :: l else y :: sort_insert cmp x l'
  end.

Fixpoint Array_sort {A : Type} (cmp : A -> A -> Z) (l : list A) : list A :=
  match l with
  | [] => []
  | x :: l' => sort_insert cmp x (Array_sort cmp l')
  end.

(** *** Untyped values *)

#[warnings="-register-all"]
Inductive JsValue : Type :=
  | JUndefined
  | JNull
  | JBool (b : bool)
  | JNum (x : number)
  | JStr (s : string)
  | JArr (xs : list JsValue)
  | JObj (props : list (string * JsValue)).

(** Property read [o.k] on an object literal of a JSON document. *)
Fixpoint get_prop (props : list (string * JsValue)) (k : string) : JsValue :=
  match props with
  | [] => JUndefined
  | (k', v) :: rest => if String.eqb k' k then v else get_prop rest k
  end.

(** [v?.k] for a key that no primitive wrapper or array defines. *)
Definition opt_get (v : JsValue) (k : string) : JsValue :=
  match v with
  | JObj props => get_prop props k
  | _ => JUndefined
  end.

(** [xs.includes(s)] for a string [s]: SameValueZero only relates a string
    to an equal string. *)
Definition includes_str (xs : list JsValue) (s : string) : bool :=
  existsb (fun v => match v with JStr t => String.eqb t s | _ => false end) xs.

End Js.

(** ** [src/App.tsx] *)

Module App.
Import Js.

Record HaEntity : Type := {
  entity_id : string;
  state : string;
  attributes : JsValue
}.

Record LightControlState : Type := {
  brightness : number;
  color : string;
  colorTemp : number
}.

Record ClimateControlState : Type := {
  temperature : number;
  hvacMode : string
}.

Definition toNumber (value : JsValue) (fallback : number) : number :=
  match value with
  | JNum x => if Number_isFinite x then x else fallback
  | JStr s =>
      if (0 <? String.length (trim s))%nat then
        let parsed := StringToNumber s in
        if Number_isFinite parsed then parsed else fallback
      else fallback
  | _ => fallback
  end.

Section WithHost.
Context `{Host}.

Definition toHex (value : JsValue) : string :=
  let num := Math_max (num 0) (Math_min (num 255) (toNumber value (num 255))) in
  padStart0 2 (Number_toString16 num).

Definition rgbToHex (rgb : JsValue) : string :=
  match rgb with
  | JArr (r :: g :: b :: _) =>
      String "#"%char (toHex r ++ toHex g ++ toHex b)
  | _ => "#ffffff"
  end.

(** The two updaters of the
    control-state effect (lines 310-348): a copy of [prev] that gains an
    entry for each light (climate device) it has none for. *)

Definition seedLightControl (entity : HaEntity) : LightControlState :=
  {| brightness := toNumber (opt_get (attributes entity) "brightness") (num 180);
     color := rgbToHex (opt_get (attributes entity) "rgb_color");
     colorTemp := toNumber (opt_get (attributes entity) "color_temp") (num 300) |}.

Definition bootstrapLightControls (entities : list HaEntity)
    (prev : gmap string LightControlState) : gmap string LightControlState :=
  foldl
    (fun next entity =>
       match next !! entity_id entity with
       | Some _ => next
       | None => <[entity_id entity := seedLightControl entity]> next
       end)
    prev
    (List.filter (fun entity => startsWith (entity_id entity) "light.") entities).

Definition seedClimateControl (entity : HaEntity) : ClimateControlState :=
  {| temperature :=
       toNumber (opt_get (attributes entity) "temperature")
         (toNumber (opt_get (attributes entity) "current_temperature") (num 22));
     hvacMode :=
       match opt_get (attributes entity) "hvac_mode" with
       | JStr s => s
       | _ => "auto"
       end |}.

Definition bootstrapClimateControls (entities : list HaEntity)
    (prev : gmap string ClimateControlState) : gmap string ClimateControlState :=
  foldl
    (fun next entity =>
       match next !! entity_id entity with
       | Some _ => next
       | None => <[entity_id entity := seedClimateControl entity]> next
       end)
    prev
    (List.filter (fun entity => startsWith (entity_id entity) "climate.") entities).

(** The updater of the order effect (lines 350-362); with an empty
    snapshot the effect returns before it calls the setter. *)
Definition appendNewEntities (entities : list HaEntity) (prev : list string) : list string :=
  match entities with
  | [] => prev
  | _ =>
      let known : gset string := list_to_set prev in
      foldl
        (fun next entity =>
           if decide (entity_id entity ∈ known) then next
           else (next ++ [entity_id entity])%list)
        prev entities
  end.

Definition visibleEntities (entities : list HaEntity) (hiddenEntities : list string)
    : list HaEntity :=
  List.filter
    (fun entity => negb (existsb (String.eqb (entity_id entity)) hiddenEntities))
    entities.

(** [new Map(entityOrder.map((id, index) => [id, index]))]: a later
    pair replaces an earlier one with the same key. *)
Definition orderIndex (entityOrder : list string) : gmap string nat :=
  foldl (fun m p => <[p.1 := p.2]> m) ∅ (imap (fun index id => (id, index)) entityOrder).

(** The comparator both sorted lists are built with. *)
Definition compareEntities (index : gmap string nat) (a b : HaEntity) : Z :=
  match index !! entity_id a, index !! entity_id b with
  | None, None => localeCompare (entity_id a) (entity_id b)
  | None, Some _ => 1
  | Some _, None => -1
  | Some aIndex, Some bIndex => Z.of_nat aIndex - Z.of_nat bIndex
  end.

Definition orderedVisibleEntities (entities : list HaEntity)
    (hiddenEntities entityOrder : list string) : list HaEntity :=
  Array_sort (compareEntities (orderIndex entityOrder))
    (visibleEntities entities hiddenEntities).

Definition orderedEntities (entities : list HaEntity) (entityOrder : list string)
    : list HaEntity :=
  Array_sort (compareEntities (orderIndex entityOrder)) entities.

End WithHost.

Record LightCapabilities : Type := {
  supportsColor : bool;
  supportsColorTemp : bool
}.

Definition getLightCapabilities (entity : HaEntity) : LightCapabilities :=
  let supported :=
    match opt_get (attributes entity) "supported_color_modes" with
    | JArr xs => xs
    | _ => []
    end in
  let colorMode :=
    match opt_get (attributes entity) "color_mode" with
    | JStr s => s
    | _ => ""
    end in
  {| supportsColor :=
       includes_str supported "rgb" ||
       includes_str supported "hs" ||
       includes_str supported "rgbw" ||
       includes_str supported "rgbww" ||
       includes_str supported "xy" ||
       String.eqb colorMode "rgb" ||
       String.eqb colorMode "hs" ||
       String.eqb colorMode "xy";
     supportsColorTemp :=
       includes_str supported "color_temp" ||
       includes_str supported "kelvin" ||
       String.eqb colorMode "color_temp" ||
       String.eqb colorMode "kelvin" |}.

(** *** The settings store and the settings lock

    The hooks of the component that the settings callbacks read and
    write. [Customization] gathers the eight hooks that make up the
    persisted document; [token] is sent as [haToken]. *)

Record Customization : Type := {
  haUrl : string;
  token : string;
  hiddenEntities : list string;
  nameOverrides : gmap string string;
  categoryMap : gmap string string;
  entityOrder : list string;
  customCategories : list string;
  passwordHash : string
}.

Record AppState : Type := {
  doc : Customization;
  settingsUnlocked : bool;
  passwordInput : string;
  newPassword : string;
  settingsError : string;
  storageError : string;
  settingsLoaded : bool
}.

Definition setHaUrl (v : string) (d : Customization) : Customization :=
  {| haUrl := v; token := token d; hiddenEntities := hiddenEntities d;
     nameOverrides := nameOverrides d; categoryMap := categoryMap d;
     entityOrder := entityOrder d; customCategories := customCategories d;
     passwordHash := passwordHash d |}.

Definition setToken (v : string) (d : Customization) : Customization :=
  {| haUrl := haUrl d; token := v; hiddenEntities := hiddenEntities d;
     nameOverrides := nameOverrides d; categoryMap := categoryMap d;
     entityOrder := entityOrder d; customCategories := customCategories d;
     passwordHash := passwordHash d |}.

Definition setPasswordHash (v : string) (d : Customization) : Customization :=
  {| haUrl := haUrl d; token := token d; hiddenEntities := hiddenEntities d;
     nameOverrides := nameOverrides d; categoryMap := categoryMap d;
     entityOrder := entityOrder d; customCategories := customCategories d;
     passwordHash := v |}.

Definition with_doc (f : Customization -> Customization) (s : AppState) : AppState :=
  {| doc := f (doc s); settingsUnlocked := settingsUnlocked s;
     passwordInput := passwordInput s; newPassword := newPassword s;
     settingsError := settingsError s; storageError := storageError s;
     settingsLoaded := settingsLoaded s |}.

Definition setSettingsUnlocked (v : bool) (s : AppState) : AppState :=
  {| doc := doc s; settingsUnlocked := v;
     passwordInput := passwordInput s; newPassword := newPassword s;
     settingsError := settingsError s; storageError := storageError s;
     settingsLoaded := settingsLoaded s |}.

Definition setPasswordInput (v : string) (s : AppState) : AppState :=
  {| doc := doc s; settingsUnlocked := settingsUnlocked s;
     passwordInput := v; newPassword := newPassword s;
     settingsError := settingsError s; storageError := storageError s;
     settingsLoaded := settingsLoaded s |}.

Definition setNewPassword (v : string) (s : AppState) : AppState :=
  {| doc := doc s; settingsUnlocked := settingsUnlocked s;
     passwordInput := passwordInput s; newPassword := v;
     settingsError := settingsError s; storageError := storageError s;
     settingsLoaded := settingsLoaded s |}.

Definition setSettingsError (v : string) (s : AppState) : AppState :=
  {| doc := doc s; settingsUnlocked := settingsUnlocked s;
     passwordInput := passwordInput s; newPassword := newPassword s;
     settingsError := v; storageError := storageError s;
     settingsLoaded := settingsLoaded s |}.

Definition setStorageError (v : string) (s : AppState) : AppState :=
  {| doc := doc s; settingsUnlocked := settingsUnlocked s;
     passwordInput := passwordInput s; newPassword := newPassword s;
     settingsError := settingsError s; storageError := v;
     settingsLoaded := settingsLoaded s |}.

Definition setSettingsLoaded (v : bool) (s : AppState) : AppState :=
  {| doc := doc s; settingsUnlocked := settingsUnlocked s;
     passwordInput := passwordInput s; newPassword := newPassword s;
     settingsError := settingsError s; storageError := storageError s;
     settingsLoaded := v |}.

(** The state of the first render when the environment gives no URL and
    no token. *)
Definition initialState : AppState :=
  {| doc := {| haUrl := ""; token := ""; hiddenEntities := [];
               nameOverrides := ∅; categoryMap := ∅; entityOrder := [];
               customCategories := []; passwordHash := "" |};
     settingsUnlocked := false; passwordInput := ""; newPassword := "";
     settingsError := ""; storageError := ""; settingsLoaded := false |}.

(** A string used as a condition is true when it is not empty. *)
Definition truthy (s : string) : bool := negb (String.eqb s "").

(** **** The lock *)

Definition hashValue (value : string) : string :=
  let data := TextEncoder_encode value in
  let digest := SHA256.digest data in
  String.concat "" (map (fun byte => padStart0 2 (hex_of_Z byte)) digest).

Definition handleUnlock (s : AppState) : AppState :=
  if negb (truthy (passwordHash (doc s))) then
    if negb (truthy (trim (newPassword s))) then
      setSettingsError "Set a password to protect settings." s
    else
      let hashed := hashValue (trim (newPassword s)) in
      setNewPassword ""
        (setPasswordInput ""
           (setSettingsError ""
              (setSettingsUnlocked true (with_doc (setPasswordHash hashed) s))))
  else
    let hashedInput := hashValue (passwordInput s) in
    if String.eqb hashedInput (passwordHash (doc s)) then
      setSettingsError "" (setSettingsUnlocked true s)
    else setSettingsError "Incorrect password." s.

Definition handleLock (s : AppState) : AppState :=
  setSettingsError "" (setPasswordInput "" (setSettingsUnlocked false s)).

Definition updatePassword (s : AppState) : AppState :=
  if negb (truthy (trim (newPassword s))) then
    setSettingsError "Enter a new password." s
  else
    let hashed := hashValue (trim (newPassword s)) in
    setNewPassword ""
      (setPasswordInput ""
         (setSettingsError ""
            (setSettingsUnlocked true (with_doc (setPasswordHash hashed) s)))).

(** The three states of the lock the specification names. *)
Inductive LockState : Type := NoPasswordSet | Locked | Unlocked.

Definition lockState (s : AppState) : LockState :=
  if settingsUnlocked s then Unlocked
  else if truthy (passwordHash (doc s)) then Locked
  else NoPasswordSet.

(** **** Requests and promises

    An [async] function is run to completion in one step: it is given
    what the network answers and returns the requests it issued and the
    promise it settles to. *)

Inductive Promise (A : Type) : Type :=
  | Fulfilled (value : A)
  | Rejected (message : string).
Arguments Fulfilled {A} value.
Arguments Rejected {A} message.

Record Response (A : Type) : Type := {
  status : nat;
  text : string;
  json : Promise A
}.
Arguments status {A} r.
Arguments text {A} r.
Arguments json {A} r.

(** [response.ok] *)
Definition ok {A : Type} (r : Response A) : bool :=
  ((200 <=? status r) && (status r <=? 299))%nat.

Inductive FetchOutcome (A : Type) : Type :=
  | NetworkError (message : string)
  | Responded (r : Response A).
Arguments NetworkError {A} message.
Arguments Responded {A} r.

Record RequestInit : Type := {
  method : string;
  body : option Customization
}.

Record Request : Type := {
  url : string;
  request_method : string;
  authorization : string;
  request_body : option Customization
}.

Definition settingsApiPath : string := "/studio_panel/settings".

(** [haUrl.replace(/\/$/, '')] *)
Definition strip_final_slash (s : string) : string :=
  match String.rev s with
  | String "/" r => String.rev r
  | _ => s
  end.

(** The eight properties [loadPanelSettings] reads of the body of
    [GET /studio_panel/settings]. A field is [None] when the property is
    missing or fails the run-time test of [loadPanelSettings]; a present
    field has the type the source casts it to. *)
Record StoredSettings : Type := {
  stored_haUrl : option string;
  stored_haToken : option string;
  stored_hiddenEntities : option (list string);
  stored_nameOverrides : option (gmap string string);
  stored_categoryMap : option (gmap string string);
  stored_entityOrder : option (list string);
  stored_customCategories : option (list string);
  stored_passwordHash : option string
}.

(** What [response.json()] of the settings request resolves to. On
    [null], reading [parsed.haUrl] throws a [TypeError], whose message
    the engine words. Of every other value the eight properties are
    read; a number, a string, a boolean or an array has none of them. *)
Inductive SettingsBody : Type :=
  | NullBody (typeError : string)
  | Document (stored : StoredSettings).

(** The optional argument of [persistPanelSettings]: the fields it
    carries replace those of the payload. *)
Record SettingsPatch : Type := {
  next_haUrl : option string;
  next_haToken : option string;
  next_hiddenEntities : option (list string);
  next_nameOverrides : option (gmap string string);
  next_categoryMap : option (gmap string string);
  next_entityOrder : option (list string);
  next_customCategories : option (list string);
  next_passwordHash : option string
}.

Definition no_patch : SettingsPatch :=
  {| next_haUrl := None; next_haToken := None; next_hiddenEntities := None;
     next_nameOverrides := None; next_categoryMap := None;
     next_entityOrder := None; next_customCategories := None;
     next_passwordHash := None |}.

Definition spread (d : Customization) (next : SettingsPatch) : Customization :=
  {| haUrl := default (haUrl d) (next_haUrl next);
     token := default (token d) (next_haToken next);
     hiddenEntities := default (hiddenEntities d) (next_hiddenEntities next);
     nameOverrides := default (nameOverrides d) (next_nameOverrides next);
     categoryMap := default (categoryMap d) (next_categoryMap next);
     entityOrder := default (entityOrder d) (next_entityOrder next);
     customCategories := default (customCategories d) (next_customCategories next);
     passwordHash := default (passwordHash d) (next_passwordHash next) |}.

Section Settings.
Variable envProxy : bool.

Definition connectionReady (s : AppState) : bool :=
  truthy (token (doc s)) && (envProxy || truthy (haUrl (doc s))).

Definition apiFetch {A : Type} (s : AppState) (path : string) (options : RequestInit)
    (reply : FetchOutcome A) : list Request * Promise A :=
  if negb (truthy (token (doc s))) || (negb envProxy && negb (truthy (haUrl (doc s))))
  then ([], Rejected "Enter Home Assistant URL and token.")
  else
    let baseUrl := if envProxy then "" else strip_final_slash (haUrl (doc s)) in
    let request :=
      {| url := baseUrl ++ "/api" ++ path;
         request_method := method options;
         authorization := "Bearer " ++ token (doc s);
         request_body := body options |} in
    ([request],
     match reply with
     | NetworkError message => Rejected message
     | Responded response =>
         if negb (ok response) then
           let message := text response in
           Rejected (if truthy message then message
                     else "Request failed (" ++ pretty (status response) ++ ")")
         else json response
     end).

Definition loadPanelSettings (s : AppState) (reply : FetchOutcome SettingsBody)
    : list Request * AppState :=
  if negb (connectionReady s) then ([], s)
  else
    let '(requests, settled) :=
      apiFetch s settingsApiPath {| method := "GET"; body := None |} reply in
    (requests,
     match settled with
     | Fulfilled (NullBody typeError) => setStorageError typeError s
     | Fulfilled (Document parsed) =>
         let storedUrl := default "" (stored_haUrl parsed) in
         let storedToken := default "" (stored_haToken parsed) in
         {| doc :=
              {| haUrl :=
                   if truthy storedUrl && negb (truthy (haUrl (doc s)))
                   then storedUrl else haUrl (doc s);
                 token :=
                   if truthy storedToken && negb (truthy (token (doc s)))
                   then storedToken else token (doc s);
                 hiddenEntities := default [] (stored_hiddenEntities parsed);
                 nameOverrides := default ∅ (stored_nameOverrides parsed);
                 categoryMap := default ∅ (stored_categoryMap parsed);
                 entityOrder := default [] (stored_entityOrder parsed);
                 customCategories := default [] (stored_customCategories parsed);
                 passwordHash := default "" (stored_passwordHash parsed) |};
            settingsUnlocked := settingsUnlocked s;
            passwordInput := passwordInput s;
            newPassword := newPassword s;
            settingsError := settingsError s;
            storageError := "";
            settingsLoaded := true |}
     | Rejected message => setStorageError message s
     end).

Definition persistPanelSettings (s : AppState) (next : SettingsPatch)
    (reply : FetchOutcome JsValue) : list Request * Promise unit :=
  if negb (connectionReady s) || negb (settingsLoaded s) then ([], Fulfilled tt)
  else
    let payload := spread (doc s) next in
    let '(requests, settled) :=
      apiFetch s settingsApiPath {| method := "PUT"; body := Some payload |} reply in
    (requests,
     match settled with
     | Fulfilled _ => Fulfilled tt
     | Rejected message => Rejected message
     end).

(** **** The session: state, window timers and the requests sent

    A pending timer of the save debounce holds the render whose
    [persistPanelSettings] its callback closes over. [setTimeout] hands
    out fresh positive identifiers. *)

Record Session : Type := {
  app : AppState;
  timers : gmap nat AppState;
  saveDebounceRef : option nat;
  nextTimerId : nat;
  sent : list Request
}.

Definition initialSession : Session :=
  {| app := initialState; timers := ∅; saveDebounceRef := None;
     nextTimerId := 1; sent := [] |}.

Definition with_app (f : AppState -> AppState) (ses : Session) : Session :=
  {| app := f (app ses); timers := timers ses;
     saveDebounceRef := saveDebounceRef ses; nextTimerId := nextTimerId ses;
     sent := sent ses |}.

(** The effect of lines 228-248. *)
Definition saveDebounceEffect (ses : Session) : Session :=
  if negb (connectionReady (app ses)) || negb (settingsLoaded (app ses)) then ses
  else
    let cleared :=
      match saveDebounceRef ses with
      | Some id => delete id (timers ses)
      | None => timers ses
      end in
    {| app := app ses;
       timers := <[nextTimerId ses := app ses]> cleared;
       saveDebounceRef := Some (nextTimerId ses);
       nextTimerId := S (nextTimerId ses);
       sent := sent ses |}.

(** The timer callback [() => { void persistPanelSettings() }]: the
    promise is dropped, whatever it settles to. *)
Definition saveTimerFires (id : nat) (reply : FetchOutcome JsValue) (ses : Session)
    : Session :=
  match timers ses !! id with
  | None => ses
  | Some closure =>
      {| app := app ses;
         timers := delete id (timers ses);
         saveDebounceRef := saveDebounceRef ses;
         nextTimerId := nextTimerId ses;
         sent := (sent ses ++ (persistPanelSettings closure no_patch reply).1)%list |}
  end.

(** The effect of lines 296-300. *)
Definition loadEffect (reply : FetchOutcome SettingsBody) (ses : Session) : Session :=
  if connectionReady (app ses) && negb (settingsLoaded (app ses)) then
    let '(requests, s') := loadPanelSettings (app ses) reply in
    {| app := s'; timers := timers ses; saveDebounceRef := saveDebounceRef ses;
       nextTimerId := nextTimerId ses; sent := (sent ses ++ requests)%list |}
  else ses.

(** What can happen to a session. [Mutate] is any setter of the hooks of
    the customization mirror. *)
Inductive Event : Type :=
  | Mutate (f : Customization -> Customization)
  | TypePassword (v : string)
  | TypeNewPassword (v : string)
  | ClickUnlock
  | ClickLock
  | ClickUpdatePassword
  | RunSaveDebounceEffect
  | RunLoadEffect (reply : FetchOutcome SettingsBody)
  | TimerFires (id : nat) (reply : FetchOutcome JsValue).

Definition step (ses : Session) (ev : Event) : Session :=
  match ev with
  | Mutate f => with_app (with_doc f) ses
  | TypePassword v => with_app (setPasswordInput v) ses
  | TypeNewPassword v => with_app (setNewPassword v) ses
  | ClickUnlock => with_app handleUnlock ses
  | ClickLock => with_app handleLock ses
  | ClickUpdatePassword => with_app updatePassword ses
  | RunSaveDebounceEffect => saveDebounceEffect ses
  | RunLoadEffect reply => loadEffect reply ses
  | TimerFires id reply => saveTimerFires id reply ses
  end.

Definition run (events : list Event) (ses : Session) : Session :=
  foldl step ses events.

End Settings.

(** **** Vocabulary of the specification

    What the specification calls a numeric attribute: a finite number,
    or a string that is not blank and reads as a finite number. Every
    other value, [undefined] for a missing attribute included, is
    missing or malformed. *)
Definition is_numeric (value : JsValue) : bool :=
  match value with
  | JNum x => Number_isFinite x
  | JStr s => negb (String.eqb (trim s) "") && Number_isFinite (StringToNumber s)
  | _ => false
  end.

(** The number a numeric attribute stands for. *)
Definition numeric_value (value : JsValue) : number :=
  match value with
  | JNum x => x
  | JStr s => StringToNumber s
  | _ => NaN
  end.



(** **** A host to run examples on

    It collates strings by their code units and prints no fraction
    digits. *)
Definition codeUnitHost : Host :=
  {| toString16_fraction := fun _ => "";
     localeCompare := fun a b =>
       match String.compare a b with
       | Lt => -1
       | Eq => 0
       | Gt => 1
       end |}.

(** **** A host that collates identifiers as browsers do

    The root collation of CLDR, which browsers and Node take from ICU,
    ranks [_] before [.] and both before the digits and the letters,
    while the code of [_] is above those of the digits and of the
    capital letters. This host compares code unit by code unit with [_]
    and [.] moved to the front, in that order, and the other code units
    in the order of their codes: the collation of strings of lowercase
    letters, digits, [_] and [.], which the identifiers of entities
    are. *)
Definition collation_rank (n : Z) : Z :=
  if n =? 95 then 0
  else if n =? 46 then 1
  else if n <? 46 then n + 2
  else if n <? 95 then n + 1
  else n.

Fixpoint collation_key (s : string) : string :=
  match s with
  | EmptyString => EmptyString
  | String c r =>
      String (ascii_of_nat (Z.to_nat (collation_rank (code c)))) (collation_key r)
  end.

Definition collationHost : Host :=
  {| toString16_fraction := fun _ => "";
     localeCompare := fun a b =>
       match String.compare (collation_key a) (collation_key b) with
       | Lt => -1
       | Eq => 0
       | Gt => 1
       end |}.

End App.

(** ** Definitions the proofs use *)

Module Aux.
Import Js App.

(** The callback both [forEach] loops of the control-state effect run,
    for a given way to seed an entry. *)
Definition ensure {V : Type} (seed : HaEntity -> V) (next : gmap string V)
    (entity : HaEntity) : gmap string V :=
  match next !! entity_id entity with
  | Some _ => next
  | None => <[entity_id entity := seed entity]> next
  end.

(** [compareEntities] only looks at the identifiers. *)
Definition compareIds `{Host} (index : gmap string nat) (a b : string) : Z :=
  match index !! a, index !! b with
  | None, None => localeCompare a b
  | None, Some _ => 1
  | Some _, None => -1
  | Some aIndex, Some bIndex => Z.of_nat aIndex - Z.of_nat bIndex
  end.

(** The devices outside the order sequence whose identifier the
    collation ranks equal to [id]. *)
Definition ranked_equal `{Host} (entityOrder : list string) (id : string)
    (entity : HaEntity) : bool :=
  bool_decide (entity_id entity ∉ entityOrder)
  && (localeCompare id (entity_id entity) <=? 0)
  && (localeCompare (entity_id entity) id <=? 0).

(** The order a comparator sorts by. *)
Definition sorts_before {A : Type} (cmp : A -> A -> Z) (a b : A) : Prop :=
  cmp a b <= 0.

(** A lowercase hexadecimal digit, and a string made of such
    characters. *)
Definition is_lower_hex (c : ascii) : bool :=
  let n := code c in
  ((48 <=? n) && (n <=? 57)) || ((97 <=? n) && (n <=? 102)).

Fixpoint all_chars (p : ascii -> bool) (s : string) : bool :=
  match s with
  | EmptyString => true
  | String c r => p c && all_chars p r
  end.

(** A request that writes the settings document. *)
Definition is_write (r : Request) : bool := String.eqb (request_method r) "PUT".

(** A request that carries a token: it comes from a render that had
    credentials. *)
Definition has_credentials (r : Request) : Prop :=
  ∃ tok, truthy tok = true ∧ authorization r = "Bearer " ++ tok.

(** The reply with which [apiFetch] is fulfilled. *)
Definition fulfils {A : Type} (reply : FetchOutcome A) : bool :=
  match reply with
  | Responded r =>
      ok r && match json r with Fulfilled _ => true | Rejected _ => false end
  | NetworkError _ => false
  end.

(** A session that begins with a given first render: no timer is
    pending and nothing has been sent. *)
Definition startSession (s : AppState) : Session :=
  {| app := s; timers := ∅; saveDebounceRef := None; nextTimerId := 1; sent := [] |}.

(** While the load has not succeeded, no timer is pending and no write
    has been sent. *)
Definition unloaded (ses : Session) : Prop :=
  settingsLoaded (app ses) = false
  ∧ timers ses = ∅
  ∧ Forall (fun r => is_write r = false) (sent ses).

(** Structural equality of numbers, for checks by computation. *)
Definition number_eqb (x y : number) : bool :=
  match x, y with
  | S754_zero s, S754_zero t => Bool.eqb s t
  | S754_infinity s, S754_infinity t => Bool.eqb s t
  | S754_nan, S754_nan => true
  | S754_finite s m e, S754_finite t n f => Bool.eqb s t && (m =? n)%positive && (e =? f)
  | _, _ => false
  end.

(** What a fetch settles to once the request has left. *)
Definition settle {A : Type} (reply : FetchOutcome A) : Promise A :=
  match reply with
  | NetworkError message => Rejected message
  | Responded response =>
      if ok response then json response
      else Rejected (if truthy (text response) then text response
                     else "Request failed (" ++ pretty (status response) ++ ")")
  end.

(** The request [apiFetch] sends from a render with credentials. *)
Definition request_of (envProxy : bool) (s : AppState) (path : string)
    (options : RequestInit) : Request :=
  {| url := (if envProxy then "" else strip_final_slash (haUrl (doc s))) ++ "/api" ++ path;
     request_method := method options;
     authorization := "Bearer " ++ token (doc s);
     request_body := body options |}.

Definition is_get (r : Request) : bool := String.eqb (request_method r) "GET".

(** The state both ways of storing a password leave: the digest of the
    trimmed password in the document, the lock open and the fields of
    the form cleared. *)
Definition password_stored (p : string) (s : AppState) : AppState :=
  setNewPassword ""
    (setPasswordInput ""
       (setSettingsError ""
          (setSettingsUnlocked true
             (with_doc (setPasswordHash (hashValue (trim p))) (setNewPassword p s))))).

End Aux.

(** ** [src/App.tsx], the rest of the component

    The helpers, derived lists and event handlers that the claims do not
    cite. *)

Module Panel.
Import Js App.

(** *** More of the runtime *)

(** [parseInt(s, 16)]: leading white space, a sign and a [0x] prefix are
    skipped, the longest run of hexadecimal digits is read, and no digit
    gives [NaN]. *)
Definition parseInt16 (s : string) : number :=
  let t := trimStart s in
  let '(negative, t1) :=
    match t with
    | String "-" r => (true, r)
    | String "+" r => (false, r)
    | _ => (false, t)
    end in
  let t2 :=
    match t1 with
    | String "0" (String c r) =>
        if (code c =? 120) || (code c =? 88) then r else t1
    | _ => t1
    end in
  match digits 16 t2 0 0 with
  | (_, O, _) => NaN
  | (v, S _, _) =>
      if v =? 0 then S754_zero negative
      else if negative then SFopp (num v) else num v
  end.

(** [s.replace('#', '')]: the first [#] is removed. *)
Fixpoint remove_first_hash (s : string) : string :=
  match s with
  | EmptyString => EmptyString
  | String c r => if Ascii.eqb c "#" then r else String c (remove_first_hash r)
  end.

(** [s.slice(from, to)] for [0 <= from <= to]. *)
Definition slice (from to : nat) (s : string) : string :=
  String.substring from (to - from) s.

(** [s.toLowerCase()] on code units below 256: the letters [A]-[Z] and
    [À]-[Þ] without [×]. *)
Definition lower_char (c : ascii) : ascii :=
  let n := code c in
  if ((65 <=? n) && (n <=? 90)) || ((192 <=? n) && (n <=? 222) && negb (n =? 215))
  then ascii_of_nat (Z.to_nat (n + 32))
  else c.

Fixpoint toLowerCase (s : string) : string :=
  match s with
  | EmptyString => EmptyString
  | String c r => String (lower_char c) (toLowerCase r)
  end.

(** [s.includes(q)] on strings. *)
Fixpoint String_includes (s q : string) : bool :=
  startsWith s q
  || match s with
     | EmptyString => false
     | String _ r => String_includes r q
     end.

(** [xs.indexOf(x)]: the first index, or [-1]. *)
Fixpoint indexOf_from (xs : list string) (x : string) (i : Z) : Z :=
  match xs with
  | [] => -1
  | y :: rest => if String.eqb y x then i else indexOf_from rest x (i + 1)
  end.

Definition indexOf (xs : list string) (x : string) : Z := indexOf_from xs x 0.

(** [Array.from(new Set(xs))]: the first occurrence of each element, in
    order. *)
Fixpoint unique_from (seen xs : list string) : list string :=
  match xs with
  | [] => []
  | x :: rest =>
      if existsb (String.eqb x) seen then unique_from seen rest
      else x :: unique_from (x :: seen) rest
  end.

Definition Array_from_Set (xs : list string) : list string := unique_from [] xs.

(** Reading [o[k]] on a plain object used as a map also finds what
    [Object.prototype] defines. *)
Definition Object_prototype_names : list string :=
  [ "constructor"; "__defineGetter__"; "__defineSetter__"; "hasOwnProperty";
    "__lookupGetter__"; "__lookupSetter__"; "isPrototypeOf";
    "propertyIsEnumerable"; "toString"; "valueOf"; "__proto__"; "toLocaleString" ].

Inductive PropertyRead (V : Type) : Type :=
  | Own (v : V)
  | Inherited
  | Absent.
Arguments Own {V} v.
Arguments Inherited {V}.
Arguments Absent {V}.

Definition read_property {V : Type} (o : gmap string V) (k : string) : PropertyRead V :=
  match o !! k with
  | Some v => Own v
  | None => if existsb (String.eqb k) Object_prototype_names then Inherited else Absent
  end.

(** *** Module-level helpers *)

Definition hexToRgb (hex : string) : list number :=
  let normalized := remove_first_hash hex in
  if negb (String.length normalized =? 6)%nat then [num 255; num 255; num 255]
  else
    let r := parseInt16 (slice 0 2 normalized) in
    let g := parseInt16 (slice 2 4 normalized) in
    let b := parseInt16 (slice 4 6 normalized) in
    [r; g; b].

Definition defaultCategories : list string := ["Lights"; "Climate"; "Switches"; "Other"].

Definition getDefaultCategory (entity : HaEntity) : string :=
  if startsWith (entity_id entity) "light." then "Lights"
  else if startsWith (entity_id entity) "climate." then "Climate"
  else if startsWith (entity_id entity) "switch." then "Switches"
  else "Other".

(** *** Derived values *)

(** [nameOverrides[id] ?? (friendly_name ?? id)]. The result is [None]
    when the read finds a member of [Object.prototype], which is not a
    string. *)
Definition getDisplayName (nameOverrides : gmap string string) (entity : HaEntity)
    : option JsValue :=
  match read_property nameOverrides (entity_id entity) with
  | Own name => Some (JStr name)
  | Inherited => None
  | Absent =>
      Some match opt_get (attributes entity) "friendly_name" with
           | JUndefined | JNull => JStr (entity_id entity)
           | name => name
           end
  end.

(** [categoryMap[id] ?? getDefaultCategory(entity)], with [None] as for
    [getDisplayName]. *)
Definition getCategory (categoryMap : gmap string string) (entity : HaEntity)
    : option string :=
  match read_property categoryMap (entity_id entity) with
  | Own category => Some category
  | Inherited => None
  | Absent => Some (getDefaultCategory entity)
  end.

(** [fromMap] is [Object.values(categoryMap)], in the order the object
    enumerates its keys. *)
Definition categoryList (fromMap customCategories : list string) : list string :=
  let custom :=
    Array_from_Set
      (List.filter
         (fun name => negb (existsb (String.eqb name) defaultCategories))
         (customCategories ++ fromMap)%list) in
  (defaultCategories ++ custom)%list.

(** The sections of the main panel (lines 851-883): for each category of
    the list, the visible entities of that category, in order; a category
    without entities is not rendered. *)
Definition mainPanelSections (categories : list string)
    (categoryMap : gmap string string) (ordered : list HaEntity)
    : list (string * list HaEntity) :=
  List.filter
    (fun section => negb (length section.2 =? 0)%nat)
    (map
       (fun category =>
          (category,
           List.filter
             (fun entity =>
                match getCategory categoryMap entity with
                | Some c => String.eqb c category
                | None => false
                end)
             ordered))
       categories).

(** [filteredEntities] (lines 486-494). [toLowerCase] is called on the
    display name, which throws a [TypeError] when it is not a string:
    the result is then [None]. *)
Definition filteredEntities (orderedEntities : list HaEntity)
    (entityFilter : string) (nameOverrides : gmap string string)
    : option (list HaEntity) :=
  let source := orderedEntities in
  if negb (truthy (trim entityFilter)) then Some source
  else
    let query := toLowerCase entityFilter in
    foldr
      (fun entity rest =>
         match getDisplayName nameOverrides entity, rest with
         | Some (JStr name), Some kept =>
             if String_includes (toLowerCase name) query
                || String_includes (toLowerCase (entity_id entity)) query
             then Some (entity :: kept) else Some kept
         | _, _ => None
         end)
      (Some []) source.

(** *** Handlers of the settings tab *)

Definition toggleVisibility (entityId : string) (prev : list string) : list string :=
  if existsb (String.eqb entityId) prev
  then List.filter (fun id => negb (String.eqb id entityId)) prev
  else (prev ++ [entityId])%list.

Definition setBulkVisibility (visible : bool) (entities : list HaEntity) : list string :=
  if visible then [] else map entity_id entities.

Definition updateNameOverride (entityId value : string) (prev : gmap string string)
    : gmap string string :=
  <[entityId := value]> prev.

Definition clearNameOverride (entityId : string) (prev : gmap string string)
    : gmap string string :=
  delete entityId prev.

(** The updater of the [Up] button (lines 1078-1086). *)
Definition moveUp (entityId : string) (prev : list string) : list string :=
  let idx := indexOf prev entityId in
  if idx <=? 0 then prev
  else
    let i := Z.to_nat idx in
    match prev !! (i - 1)%nat, prev !! i with
    | Some above, Some this => <[i := above]> (<[(i - 1)%nat := this]> prev)
    | _, _ => prev
    end.

(** The updater of the [Down] button (lines 1094-1103). *)
Definition moveDown (entityId : string) (prev : list string) : list string :=
  let idx := indexOf prev entityId in
  if (idx =? -1) || (Z.of_nat (length prev) - 1 <=? idx) then prev
  else
    let i := Z.to_nat idx in
    match prev !! (i + 1)%nat, prev !! i with
    | Some below, Some this => <[i := below]> (<[(i + 1)%nat := this]> prev)
    | _, _ => prev
    end.

(** The [Add] button of the categories (lines 1013-1020): what becomes
    of [customCategories] and of the text field. *)
Definition addCategory (newCategory : string) (prev : list string)
    : list string * string :=
  if negb (truthy (trim newCategory)) then (prev, newCategory)
  else
    let trimmed := trim newCategory in
    (if existsb (String.eqb trimmed) prev then prev else (prev ++ [trimmed])%list, "").

(** The category [select] of a row (lines 1060-1065). *)
Definition setCategory (entityId category : string) (prev : gmap string string)
    : gmap string string :=
  <[entityId := category]> prev.

(** *** Editing the controls of a light (lines 653-706) and of a
    climate device (lines 752-781) *)

Definition changeBrightness (entityId value : string)
    (prev : gmap string LightControlState) : gmap string LightControlState :=
  <[entityId :=
      {| brightness := StringToNumber value;
         color := default "#ffffff" (color <$> prev !! entityId);
         colorTemp := default (num 300) (colorTemp <$> prev !! entityId) |}]> prev.

Definition changeColor (entityId value : string)
    (prev : gmap string LightControlState) : gmap string LightControlState :=
  <[entityId :=
      {| brightness := default (num 180) (brightness <$> prev !! entityId);
         color := value;
         colorTemp := default (num 300) (colorTemp <$> prev !! entityId) |}]> prev.

Definition changeColorTemp (entityId value : string)
    (prev : gmap string LightControlState) : gmap string LightControlState :=
  <[entityId :=
      {| brightness := default (num 180) (brightness <$> prev !! entityId);
         color := default "#ffffff" (color <$> prev !! entityId);
         colorTemp := StringToNumber value |}]> prev.

Definition changeHvacMode (entityId value : string) (currentTemp : number)
    (prev : gmap string ClimateControlState) : gmap string ClimateControlState :=
  <[entityId :=
      {| temperature := default currentTemp (temperature <$> prev !! entityId);
         hvacMode := value |}]> prev.

Definition changeTemperature (entityId value : string)
    (prev : gmap string ClimateControlState) : gmap string ClimateControlState :=
  <[entityId :=
      {| temperature := StringToNumber value;
         hvacMode := default "auto" (hvacMode <$> prev !! entityId) |}]> prev.

(** *** Fetching the entities *)

Record FetchState : Type := {
  entities : list HaEntity;
  loading : bool;
  error : string;
  lastUpdated : string
}.

(** [refreshEntities(silent)], run to completion; [now] is what
    [new Date().toLocaleTimeString()] gives when the reply arrives. *)
Definition refreshEntities (envProxy : bool) (s : AppState) (silent : bool)
    (now : string) (reply : FetchOutcome (list HaEntity)) (f : FetchState)
    : list Request * FetchState :=
  let '(requests, settled) :=
    apiFetch envProxy s "/states" {| method := "GET"; body := None |} reply in
  (requests,
   match settled with
   | Fulfilled data =>
       {| entities := data;
          loading := if silent then loading f else false;
          error := if silent then error f else "";
          lastUpdated := now |}
   | Rejected message =>
       {| entities := entities f;
          loading := if silent then loading f else false;
          error := message;
          lastUpdated := lastUpdated f |}
   end).

(** *** Applying the controls of a light *)

(** [Math.round]: the nearest integer, a tie going up; the sign of a
    zero result is the sign of the argument. *)
Definition Math_round (x : number) : number :=
  match x with
  | S754_finite s m e =>
      if 0 <=? e then x
      else
        let d := 2 ^ (- e) in
        let n := if s then Z.neg m else Z.pos m in
        let z := (2 * n + d) / (2 * d) in
        if z =? 0 then S754_zero s else num z
  | _ => x
  end.

(** The data of the service call [light.turn_on]. *)
Record LightPayload : Type := {
  payload_entity_id : string;
  payload_brightness : number;
  payload_rgb_color : option (list number);
  payload_color_temp : option number
}.

Inductive ApplyOutcome : Type :=
  | NoControl
  | Throws
  | Calls (payload : LightPayload).

(** [applyLight] up to the service call (lines 383-398), in a render
    whose controls are [lightControls]. A control read from
    [Object.prototype] has no fields: its numbers round to [NaN] and
    [hexToRgb(undefined)] throws. *)
Definition applyLight (lightControls : gmap string LightControlState)
    (entity : HaEntity) : ApplyOutcome :=
  let capabilities := getLightCapabilities entity in
  match read_property lightControls (entity_id entity) with
  | Absent => NoControl
  | Own control =>
      Calls
        {| payload_entity_id := entity_id entity;
           payload_brightness := Math_round (brightness control);
           payload_rgb_color :=
             if supportsColor capabilities then Some (hexToRgb (color control)) else None;
           payload_color_temp :=
             if supportsColorTemp capabilities
             then Some (Math_round (colorTemp control)) else None |}
  | Inherited =>
      if supportsColor capabilities then Throws
      else
        Calls
          {| payload_entity_id := entity_id entity;
             payload_brightness := NaN;
             payload_rgb_color := None;
             payload_color_temp :=
               if supportsColorTemp capabilities then Some NaN else None |}
  end.

(** The controls of the lights, the pending timers of
    [scheduleLightApply] with the entity and the controls of the render
    their callback closes over, and [lightDebounceRef]. *)
Record LightPanel : Type := {
  lightControls : gmap string LightControlState;
  lightTimers : gmap nat (HaEntity * gmap string LightControlState);
  lightDebounceRef : gmap string nat;
  nextLightTimer : nat
}.

(** [scheduleLightApply(entity)] called in the current render. *)
Definition scheduleLightApply (entity : HaEntity) (p : LightPanel) : LightPanel :=
  let id := entity_id entity in
  let cleared :=
    match lightDebounceRef p !! id with
    | Some timer => if (timer =? 0)%nat then lightTimers p else delete timer (lightTimers p)
    | None => lightTimers p
    end in
  {| lightControls := lightControls p;
     lightTimers := <[nextLightTimer p := (entity, lightControls p)]> cleared;
     lightDebounceRef := <[id := nextLightTimer p]> (lightDebounceRef p);
     nextLightTimer := S (nextLightTimer p) |}.

(** [onChange] of the color input (lines 675-685): the updater is
    queued and [scheduleLightApply] of the current render is called. *)
Definition colorInputChanged (entity : HaEntity) (value : string) (p : LightPanel)
    : LightPanel :=
  let scheduled := scheduleLightApply entity p in
  {| lightControls := changeColor (entity_id entity) value (lightControls p);
     lightTimers := lightTimers scheduled;
     lightDebounceRef := lightDebounceRef scheduled;
     nextLightTimer := nextLightTimer scheduled |}.

(** [onChange] of the brightness slider (lines 653-662), and the
    [onPointerUp] that follows in a later render (line 663). *)
Definition brightnessInputChanged (entity : HaEntity) (value : string) (p : LightPanel)
    : LightPanel :=
  {| lightControls := changeBrightness (entity_id entity) value (lightControls p);
     lightTimers := lightTimers p;
     lightDebounceRef := lightDebounceRef p;
     nextLightTimer := nextLightTimer p |}.

(** What a pending timer does when it fires. *)
Definition lightTimerFires (timer : nat) (p : LightPanel) : option ApplyOutcome :=
  match lightTimers p !! timer with
  | Some (entity, controls) => Some (applyLight controls entity)
  | None => None
  end.

(** What happens to the card of a light: its inputs change, a pointer or
    touch is released on a slider, a timer fires. A timer that has fired
    is no longer pending; [lightDebounceRef] keeps its id. *)
Inductive LightEvent : Type :=
  | BrightnessInput (entity : HaEntity) (value : string)
  | ColorInput (entity : HaEntity) (value : string)
  | ColorTempInput (entity : HaEntity) (value : string)
  | SliderReleased (entity : HaEntity)
  | LightTimerFires (timer : nat).

Definition colorTempInputChanged (entity : HaEntity) (value : string) (p : LightPanel)
    : LightPanel :=
  {| lightControls := changeColorTemp (entity_id entity) value (lightControls p);
     lightTimers := lightTimers p;
     lightDebounceRef := lightDebounceRef p;
     nextLightTimer := nextLightTimer p |}.

Definition lightStep (p : LightPanel) (ev : LightEvent) : LightPanel :=
  match ev with
  | BrightnessInput entity value => brightnessInputChanged entity value p
  | ColorInput entity value => colorInputChanged entity value p
  | ColorTempInput entity value => colorTempInputChanged entity value p
  | SliderReleased entity => scheduleLightApply entity p
  | LightTimerFires timer =>
      {| lightControls := lightControls p;
         lightTimers := delete timer (lightTimers p);
         lightDebounceRef := lightDebounceRef p;
         nextLightTimer := nextLightTimer p |}
  end.

Definition lightRun (p : LightPanel) (events : list LightEvent) : LightPanel :=
  foldl lightStep p events.

(** The panel when the component mounts with the given controls: no
    timer is pending, and the ids of the window timers start at 1. *)
Definition mountedLights (controls : gmap string LightControlState) : LightPanel :=
  {| lightControls := controls;
     lightTimers := ∅;
     lightDebounceRef := ∅;
     nextLightTimer := 1 |}.

End Panel.

(** * Properties *)

Import Js App Aux.

(** ** Numeric coercion *)

Lemma length_pos_nonempty (s : string) :
  (0 <? String.length s)%nat = negb (String.eqb s "").
Proof. destruct s; reflexivity. Qed.

Lemma toNumber_numeric (value : JsValue) (fallback : number) :
  is_numeric value = true ->
  toNumber value fallback = numeric_value value.
Proof.
  destruct value as [| |b|x|s|xs|props]; simpl; try discriminate.
  - intros ->. reflexivity.
  - rewrite length_pos_nonempty. intros [-> ->]%andb_true_iff. reflexivity.
Qed.

Lemma toNumber_fallback (value : JsValue) (fallback : number) :
  is_numeric value = false -> toNumber value fallback = fallback.
Proof.
  destruct value as [| |b|x|s|xs|props]; simpl; try reflexivity.
  - intros ->. reflexivity.
  - rewrite length_pos_nonempty.
    destruct (negb (String.eqb (trim s) "")); simpl; [intros ->|]; reflexivity.
Qed.

Lemma toNumber_finite (value : JsValue) (fallback : number) :
  Number_isFinite fallback = true ->
  Number_isFinite (toNumber value fallback) = true.
Proof.
  intros Hfb. destruct (is_numeric value) eqn:Hn.
  - rewrite toNumber_numeric by assumption.
    destruct value as [| |b|x|s|xs|props]; simpl in Hn; try discriminate.
    + assumption.
    + apply andb_true_iff in Hn. tauto.
  - rewrite toNumber_fallback; assumption.
Qed.

(** C10. [toNumber] is a total function, and for a finite fallback its
    result is finite: it is the input when the input is a finite number,
    the value read from a string that is not blank when that value is
    finite, and the fallback in every other case; it is never [NaN] and
    never an infinity. *)
Theorem toNumber_total_finite (value : JsValue) (fallback : number) :
  Number_isFinite fallback = true ->
  Number_isFinite (toNumber value fallback) = true
  ∧ toNumber value fallback ≠ NaN
  ∧ (∀ sign, toNumber value fallback ≠ S754_infinity sign)
  ∧ ((∃ x, value = JNum x ∧ Number_isFinite x = true
           ∧ toNumber value fallback = x)
     ∨ (∃ s, value = JStr s ∧ trim s ≠ ""
             ∧ Number_isFinite (StringToNumber s) = true
             ∧ toNumber value fallback = StringToNumber s)
     ∨ (is_numeric value = false ∧ toNumber value fallback = fallback)).
Proof.
  intros Hfb.
  pose proof (toNumber_finite value fallback Hfb) as Hfin.
  split; [exact Hfin|].
  split; [intros E; rewrite E in Hfin; discriminate|].
  split; [intros sign E; rewrite E in Hfin; discriminate|].
  destruct (is_numeric value) eqn:Hn.
  - pose proof (toNumber_numeric value fallback Hn) as E.
    destruct value as [| |b|x|s|xs|props]; simpl in Hn; try discriminate.
    + left. exists x. auto.
    + right; left. exists s.
      apply andb_true_iff in Hn as [Hne Hf].
      split; [reflexivity|]. split; [|auto].
      intros Hs. rewrite Hs in Hne. discriminate.
  - right; right. split; [reflexivity|]. apply toNumber_fallback, Hn.
Qed.

Lemma toNumber_total_finite_witness :
  Number_isFinite (toNumber (JStr "not-a-number") (num 180)) = true
  ∧ toNumber (JStr "not-a-number") (num 180) = num 180
  ∧ toNumber (JStr " 42 ") (num 180) = num 42.
Proof.
  split.
  - apply (toNumber_total_finite (JStr "not-a-number") (num 180)). reflexivity.
  - split; vm_compute; reflexivity.
Defined.

(** ** Control-state bootstrapping *)

Section Ensure.
Context {V : Type} (seed : HaEntity -> V).

Local Abbreviation ensure := (Aux.ensure seed).

Lemma ensure_keeps (l : list HaEntity) (prev : gmap string V) (id : string) (v : V) :
  prev !! id = Some v -> foldl ensure prev l !! id = Some v.
Proof.
  revert prev. induction l as [|e l IH]; intros prev Hv; simpl; [exact Hv|].
  apply IH. unfold Aux.ensure.
  destruct (prev !! entity_id e) eqn:He; [exact Hv|].
  rewrite lookup_insert_ne; [exact Hv|]. intros <-. congruence.
Qed.

Lemma ensure_absent (l : list HaEntity) (prev : gmap string V) (id : string) :
  prev !! id = None ->
  Forall (fun e => entity_id e ≠ id) l ->
  foldl ensure prev l !! id = None.
Proof.
  revert prev. induction l as [|e l IH]; intros prev Hv Hall; simpl; [exact Hv|].
  inversion Hall as [|? ? Hne Hall']; subst.
  apply IH; [|exact Hall']. unfold Aux.ensure.
  destruct (prev !! entity_id e); [exact Hv|].
  rewrite lookup_insert_ne; assumption.
Qed.

Lemma ensure_seeds (before after : list HaEntity) (e : HaEntity) (prev : gmap string V) :
  prev !! entity_id e = None ->
  Forall (fun e' => entity_id e' ≠ entity_id e) before ->
  foldl ensure prev (before ++ e :: after) !! entity_id e = Some (seed e).
Proof.
  intros Hv Hall. rewrite foldl_app. simpl.
  apply ensure_keeps. unfold Aux.ensure at 1.
  rewrite (ensure_absent before prev (entity_id e) Hv Hall).
  apply lookup_insert_eq.
Qed.

Lemma ensure_noop (l : list HaEntity) (prev : gmap string V) :
  Forall (fun e => is_Some (prev !! entity_id e)) l -> foldl ensure prev l = prev.
Proof.
  induction 1 as [|e l [v Hv] _ IH]; simpl; [reflexivity|].
  unfold Aux.ensure at 2. rewrite Hv. exact IH.
Qed.

Lemma ensure_present (l : list HaEntity) (prev : gmap string V) :
  Forall (fun e => is_Some (foldl ensure prev l !! entity_id e)) l.
Proof.
  revert prev. induction l as [|e l IH]; intros prev; simpl; constructor.
  - unfold Aux.ensure at 2. destruct (prev !! entity_id e) eqn:He.
    + eexists. apply ensure_keeps, He.
    + eexists. apply ensure_keeps, lookup_insert_eq.
  - apply IH.
Qed.

Lemma ensure_idempotent (l : list HaEntity) (prev : gmap string V) :
  foldl ensure (foldl ensure prev l) l = foldl ensure prev l.
Proof. apply ensure_noop, ensure_present. Qed.

End Ensure.

Lemma filter_first_occurrence (p : HaEntity -> bool) (before after : list HaEntity)
    (e : HaEntity) :
  p e = true ->
  Forall (fun e' => entity_id e' ≠ entity_id e) before ->
  List.filter p (before ++ e :: after)
    = (List.filter p before ++ e :: List.filter p after)%list
  ∧ Forall (fun e' => entity_id e' ≠ entity_id e) (List.filter p before).
Proof.
  intros Hp Hall. split.
  - rewrite List.filter_app. simpl. rewrite Hp. reflexivity.
  - apply Forall_forall. intros x Hx%list_elem_of_In%List.filter_In.
    rewrite Forall_forall in Hall. apply Hall, list_elem_of_In, Hx.
Qed.

Section Bootstrap.
Context `{Host}.

Lemma bootstrapLightControls_seeds before after entity prev :
  startsWith (entity_id entity) "light." = true ->
  prev !! entity_id entity = None ->
  Forall (fun e' => entity_id e' ≠ entity_id entity) before ->
  bootstrapLightControls (before ++ entity :: after) prev !! entity_id entity
    = Some (seedLightControl entity).
Proof.
  intros Hp Hv Hall. unfold bootstrapLightControls.
  destruct (filter_first_occurrence
              (fun e => startsWith (entity_id e) "light.") before after entity Hp Hall)
    as [-> Hall'].
  exact (ensure_seeds seedLightControl _ _ entity prev Hv Hall').
Qed.


(** C2. An entry the control-state map already has survives the
    bootstrap step with the same values, whatever the snapshot says about
    the device, for lights and for climate devices; and running the step
    a second time on the same snapshot changes nothing. *)
Theorem bootstrap_never_overwrites (entities : list HaEntity)
    (lights : gmap string LightControlState)
    (climates : gmap string ClimateControlState) (id : string) :
  (∀ control, lights !! id = Some control ->
     bootstrapLightControls entities lights !! id = Some control)
  ∧ (∀ control, climates !! id = Some control ->
       bootstrapClimateControls entities climates !! id = Some control)
  ∧ bootstrapLightControls entities (bootstrapLightControls entities lights)
      = bootstrapLightControls entities lights
  ∧ bootstrapClimateControls entities (bootstrapClimateControls entities climates)
      = bootstrapClimateControls entities climates.
Proof.
  repeat split.
  - intros control Hc. exact (ensure_keeps seedLightControl _ lights id control Hc).
  - intros control Hc. exact (ensure_keeps seedClimateControl _ climates id control Hc).
  - exact (ensure_idempotent seedLightControl _ lights).
  - exact (ensure_idempotent seedClimateControl _ climates).
Qed.


End Bootstrap.

Lemma bootstrap_never_overwrites_witness :
  bootstrapLightControls (H := codeUnitHost)
    [ {| entity_id := "light.desk"; state := "on";
         attributes := JObj [("brightness", JNum (num 12))] |} ]
    {[ "light.desk" := {| brightness := num 200; color := "#102030"; colorTemp := num 250 |} ]}
    !! "light.desk"
  = Some {| brightness := num 200; color := "#102030"; colorTemp := num 250 |}.
Proof.
  apply (bootstrap_never_overwrites (H := codeUnitHost) _ _ ∅ "light.desk").
  reflexivity.
Defined.



(** ** Capability inference *)

(** What [getLightCapabilities] computes: the advertised modes are
    tested against five color tokens, the current mode against three of
    them; the color-temperature tokens are the same two for both. *)
Lemma getLightCapabilities_spec (entity : HaEntity) :
  let supported :=
    match opt_get (attributes entity) "supported_color_modes" with
    | JArr xs => xs
    | _ => []
    end in
  let colorMode :=
    match opt_get (attributes entity) "color_mode" with
    | JStr s => s
    | _ => ""
    end in
  (supportsColor (getLightCapabilities entity) = true
   ↔ (∃ t, t ∈ ["rgb"; "hs"; "rgbw"; "rgbww"; "xy"] ∧ JStr t ∈ supported)
     ∨ colorMode ∈ ["rgb"; "hs"; "xy"])
  ∧ (supportsColorTemp (getLightCapabilities entity) = true
     ↔ (∃ t, t ∈ ["color_temp"; "kelvin"] ∧ JStr t ∈ supported)
       ∨ colorMode ∈ ["color_temp"; "kelvin"]).
Proof.
  intros supported colorMode.
  assert (Hinc : ∀ t, includes_str supported t = true ↔ JStr t ∈ supported).
  { intros t. unfold includes_str. rewrite existsb_exists. split.
    - intros (v & Hin & Hv). destruct v; try discriminate.
      apply String.eqb_eq in Hv as ->. apply list_elem_of_In, Hin.
    - intros Hin. exists (JStr t). split; [apply list_elem_of_In, Hin|].
      apply String.eqb_refl. }
  unfold getLightCapabilities; simpl.
  fold supported colorMode.
  rewrite !orb_true_iff, !Hinc, !String.eqb_eq.
  rewrite !elem_of_cons, !elem_of_nil.
  split; split.
  - intros [[[[[[[?|?]|?]|?]|?]|?]|?]|?];
      first [ right; tauto
            | left; eexists; split; [|eassumption]; rewrite !elem_of_cons; auto 10 ].
  - intros [(t & Ht & Hin)|Hm]; [|tauto].
    rewrite !elem_of_cons, elem_of_nil in Ht.
    destruct Ht as [->|[->|[->|[->|[->|[]]]]]]; tauto.
  - intros [[[?|?]|?]|?];
      first [ right; tauto
            | left; eexists; split; [|eassumption]; rewrite !elem_of_cons; auto 10 ].
  - intros [(t & Ht & Hin)|Hm]; [|tauto].
    rewrite !elem_of_cons, elem_of_nil in Ht.
    destruct Ht as [->|[->|[]]]; tauto.
Qed.

(** The table of the specification. *)
Lemma getLightCapabilities_table :
  let advertising modes :=
    {| entity_id := "light.x"; state := "on";
       attributes := JObj [("supported_color_modes", JArr (map JStr modes))] |} in
  getLightCapabilities (advertising ["color_temp"])
    = {| supportsColor := false; supportsColorTemp := true |}
  ∧ getLightCapabilities (advertising ["rgb"])
    = {| supportsColor := true; supportsColorTemp := false |}
  ∧ getLightCapabilities (advertising ["brightness"])
    = {| supportsColor := false; supportsColorTemp := false |}
  ∧ getLightCapabilities
      {| entity_id := "light.x"; state := "on"; attributes := JUndefined |}
    = {| supportsColor := false; supportsColorTemp := false |}.
Proof. repeat split. Qed.

(** C5. The claim fails on the code: the current color mode is tested
    against [rgb], [hs] and [xy] only, so a light whose [color_mode] is
    [rgbw], one of the five tokens the advertised modes are tested
    against, and which advertises no modes is not color capable. *)
Theorem color_mode_rgbw_not_color_capable :
  let entity :=
    {| entity_id := "light.strip"; state := "on";
       attributes := JObj [("color_mode", JStr "rgbw")] |} in
  supportsColor (getLightCapabilities entity) = false
  ∧ supportsColor
      (getLightCapabilities
         {| entity_id := "light.strip"; state := "on";
            attributes := JObj [("supported_color_modes", JArr [JStr "rgbw"])] |})
    = true.
Proof. split; reflexivity. Qed.

(** ** The order sequence under polling *)

Lemma appendNewEntities_eq (entities : list HaEntity) (prev : list string) :
  appendNewEntities entities prev
    = (prev ++ filter (fun id => id ∉ prev) (entity_id <$> entities))%list.
Proof.
  assert (Hgen : ∀ l acc,
    foldl (fun next entity =>
             if decide (entity_id entity ∈ (list_to_set prev : gset string)) then next
             else (next ++ [entity_id entity])%list) acc l
    = (acc ++ filter (fun id => id ∉ prev) (entity_id <$> l))%list).
  { induction l as [|e l IH]; intros acc; simpl.
    - rewrite app_nil_r. reflexivity.
    - rewrite IH. rewrite filter_cons. destruct (decide (entity_id e ∈ _)) as [Hin|Hin];
        rewrite elem_of_list_to_set in Hin.
      + rewrite decide_False by tauto. reflexivity.
      + rewrite decide_True by assumption. rewrite <- app_assoc. reflexivity. }
  destruct entities as [|e l].
  - simpl. rewrite app_nil_r. reflexivity.
  - unfold appendNewEntities. apply Hgen.
Qed.

(** C3. After the append step the order sequence is the original
    sequence followed by the identifiers of the snapshot that the
    original sequence does not contain, in snapshot order; so every
    identifier of the original sequence stays at its index. *)
Theorem order_stable_under_poll (entities : list HaEntity) (prev : list string) :
  appendNewEntities entities prev
    = (prev ++ filter (fun id => id ∉ prev) (entity_id <$> entities))%list
  ∧ take (length prev) (appendNewEntities entities prev) = prev.
Proof.
  rewrite appendNewEntities_eq. split; [reflexivity|].
  apply take_app_length.
Qed.

(** A run of polls, each followed by the append step. *)
Lemma appendNewEntities_polls_prefix (snapshots : list (list HaEntity)) (prev : list string) :
  prev `prefix_of` foldl (fun order snapshot => appendNewEntities snapshot order) prev snapshots.
Proof.
  revert prev. induction snapshots as [|snapshot rest IH]; intros prev; simpl.
  - reflexivity.
  - etransitivity; [|apply IH]. rewrite appendNewEntities_eq. apply prefix_app_r. reflexivity.
Qed.

(** C9. Whatever snapshots the polls deliver, the order sequence only
    grows at its end: every identifier keeps its index, none is removed,
    whether or not the device is still in a snapshot, and an empty
    snapshot leaves the sequence as it is. *)
Theorem order_monotone_under_polling (snapshots : list (list HaEntity))
    (prev : list string) :
  let after :=
    foldl (fun order snapshot => appendNewEntities snapshot order) prev snapshots in
  prev `prefix_of` after
  ∧ (∀ i id, prev !! i = Some id -> after !! i = Some id)
  ∧ (∀ id, id ∈ prev -> id ∈ after)
  ∧ appendNewEntities [] prev = prev.
Proof.
  intros after.
  pose proof (appendNewEntities_polls_prefix snapshots prev) as Hpre.
  fold after in Hpre.
  split; [exact Hpre|].
  destruct Hpre as [added Hadded].
  repeat split.
  - intros i id Hi. rewrite Hadded. apply lookup_app_l_Some, Hi.
  - intros id Hin. rewrite Hadded. apply elem_of_app. left. exact Hin.
Qed.

Lemma order_monotone_under_polling_witness :
  foldl (fun order snapshot => appendNewEntities snapshot order)
    ["light.a"; "switch.b"]
    [ [ {| entity_id := "light.c"; state := "on"; attributes := JObj [] |} ]; [] ]
    !! 1%nat = Some "switch.b".
Proof.
  apply (order_monotone_under_polling
           [ [ {| entity_id := "light.c"; state := "on"; attributes := JObj [] |} ]; [] ]
           ["light.a"; "switch.b"]).
  reflexivity.
Defined.

(** ** Sorting by the order sequence *)

Section Sort.
Context {A : Type} (cmp : A -> A -> Z).
Hypothesis cmp_total : ∀ a b, cmp a b <= 0 ∨ cmp b a <= 0.
Hypothesis cmp_trans : ∀ a b c, cmp a b <= 0 -> cmp b c <= 0 -> cmp a c <= 0.

Lemma sort_insert_Permutation (x : A) (l : list A) : sort_insert cmp x l ≡ₚ x :: l.
Proof.
  induction l as [|y l IH]; simpl; [reflexivity|].
  destruct (cmp x y <=? 0); [reflexivity|].
  rewrite IH. apply Permutation_swap.
Qed.

Lemma Array_sort_Permutation (l : list A) : Array_sort cmp l ≡ₚ l.
Proof.
  induction l as [|x l IH]; simpl; [reflexivity|].
  rewrite sort_insert_Permutation, IH. reflexivity.
Qed.

Lemma sort_insert_sorted (x : A) (l : list A) :
  StronglySorted (sorts_before cmp) l ->
  StronglySorted (sorts_before cmp) (sort_insert cmp x l).
Proof.
  induction 1 as [|y l Hl IH Hy]; simpl.
  - repeat constructor.
  - destruct (Z.leb_spec (cmp x y) 0) as [Hxy|Hxy].
    + constructor; [constructor; assumption|].
      constructor; [exact Hxy|].
      eapply Forall_impl; [exact Hy|]. intros z Hz. exact (cmp_trans x y z Hxy Hz).
    + constructor; [exact IH|].
      rewrite sort_insert_Permutation. constructor; [|exact Hy].
      destruct (cmp_total x y) as [Hle|Hle]; [lia|exact Hle].
Qed.

Lemma Array_sort_sorted (l : list A) : StronglySorted (sorts_before cmp) (Array_sort cmp l).
Proof.
  induction l as [|x l IH]; simpl; [constructor|].
  apply sort_insert_sorted, IH.
Qed.

End Sort.

Lemma elem_of_List_filter {A : Type} (p : A -> bool) (l : list A) (x : A) :
  x ∈ List.filter p l ↔ x ∈ l ∧ p x = true.
Proof. rewrite !list_elem_of_In. apply List.filter_In. Qed.

Section SortFilter.
Context {A : Type} (cmp : A -> A -> Z) (p : A -> bool).
Hypothesis cmp_total : ∀ a b, cmp a b <= 0 ∨ cmp b a <= 0.
Hypothesis cmp_trans : ∀ a b c, cmp a b <= 0 -> cmp b c <= 0 -> cmp a c <= 0.

Lemma sort_insert_least (x : A) (l : list A) :
  Forall (fun y => cmp x y <= 0) l -> sort_insert cmp x l = x :: l.
Proof.
  destruct 1 as [|y l Hy _]; simpl; [reflexivity|].
  destruct (Z.leb_spec (cmp x y) 0); [reflexivity|lia].
Qed.

Lemma filter_sort_insert (x : A) (l : list A) :
  StronglySorted (sorts_before cmp) l ->
  List.filter p (sort_insert cmp x l)
  = if p x then sort_insert cmp x (List.filter p l) else List.filter p l.
Proof.
  induction 1 as [|y l Hl IH Hy].
  - simpl. destruct (p x); reflexivity.
  - change (sort_insert cmp x (y :: l))
      with (if cmp x y <=? 0 then x :: y :: l else y :: sort_insert cmp x l).
    destruct (Z.leb_spec (cmp x y) 0) as [Hxy|Hxy].
    + change (List.filter p (x :: y :: l))
        with (if p x then x :: List.filter p (y :: l) else List.filter p (y :: l)).
      destruct (p x); [|reflexivity].
      symmetry. apply sort_insert_least.
      assert (Hall : Forall (fun z => cmp x z <= 0) (y :: l)).
      { constructor; [exact Hxy|].
        eapply Forall_impl; [exact Hy|]. intros z Hz. exact (cmp_trans x y z Hxy Hz). }
      apply Forall_forall. intros z Hz%elem_of_List_filter.
      rewrite Forall_forall in Hall. apply Hall. tauto.
    + change (List.filter p (y :: sort_insert cmp x l))
        with (if p y then y :: List.filter p (sort_insert cmp x l)
              else List.filter p (sort_insert cmp x l)).
      rewrite IH.
      change (List.filter p (y :: l))
        with (if p y then y :: List.filter p l else List.filter p l).
      destruct (p y), (p x); try reflexivity.
      simpl. destruct (Z.leb_spec (cmp x y) 0); [lia|reflexivity].
Qed.

Lemma filter_Array_sort (l : list A) :
  List.filter p (Array_sort cmp l) = Array_sort cmp (List.filter p l).
Proof.
  induction l as [|x l IH]; simpl; [reflexivity|].
  rewrite filter_sort_insert by (apply Array_sort_sorted; assumption).
  rewrite IH. destruct (p x); reflexivity.
Qed.

(** A list whose elements the comparator ranks equal is left as it
    is. *)
Lemma Array_sort_tied (l : list A) :
  (∀ a b, a ∈ l -> b ∈ l -> cmp a b <= 0) -> Array_sort cmp l = l.
Proof.
  induction l as [|x l IH]; intros Htied; simpl; [reflexivity|].
  rewrite IH by (intros a b Ha Hb; apply Htied; apply elem_of_cons; tauto).
  apply sort_insert_least, Forall_forall. intros y Hy.
  apply Htied; apply elem_of_cons; tauto.
Qed.

(** The sort is stable: the elements of a class the comparator ranks
    equal come out in the order they went in. *)
Lemma Array_sort_stable (l : list A) :
  (∀ a b, a ∈ l -> b ∈ l -> p a = true -> p b = true -> cmp a b <= 0) ->
  List.filter p (Array_sort cmp l) = List.filter p l.
Proof.
  intros Htied. rewrite filter_Array_sort. apply Array_sort_tied.
  intros a b [Ha Hpa]%elem_of_List_filter [Hb Hpb]%elem_of_List_filter.
  apply Htied; assumption.
Qed.

End SortFilter.

Lemma StronglySorted_lookup_lt {A : Type} (R : relation A) (l : list A) (i j : nat) (a b : A) :
  StronglySorted R l -> (i < j)%nat -> l !! i = Some a -> l !! j = Some b -> R a b.
Proof.
  intros Hs. revert i j. induction Hs as [|x l Hl IH Hx]; intros i j Hij Hi Hj.
  - discriminate.
  - destruct j as [|j]; [lia|]. destruct i as [|i]; simpl in *.
    + injection Hi as <-. rewrite Forall_forall in Hx.
      apply Hx. eapply list_elem_of_lookup_2, Hj.
    + apply (IH i j); [lia|assumption..].
Qed.

Lemma List_filter_Permutation {A : Type} (p : A -> bool) (l l' : list A) :
  l ≡ₚ l' -> List.filter p l ≡ₚ List.filter p l'.
Proof.
  induction 1 as [|x l l' _ IH|x y l|l l' l'' _ IH1 _ IH2]; simpl.
  - reflexivity.
  - destruct (p x); [constructor|]; exact IH.
  - destruct (p x), (p y); try reflexivity. apply Permutation_swap.
  - etransitivity; eassumption.
Qed.

Lemma orderIndex_snoc (l : list string) (x : string) :
  orderIndex (l ++ [x]) = <[x := length l]> (orderIndex l).
Proof.
  unfold orderIndex. rewrite imap_app, foldl_app. simpl.
  rewrite Nat.add_0_r. reflexivity.
Qed.

Lemma orderIndex_lookup (l : list string) (id : string) (i : nat) :
  orderIndex l !! id = Some i -> l !! i = Some id.
Proof.
  induction l as [|x l IH] using rev_ind; [discriminate|].
  rewrite orderIndex_snoc. destruct (decide (x = id)) as [->|Hne].
  - rewrite lookup_insert_eq. intros [= <-].
    rewrite lookup_app_r by lia. rewrite Nat.sub_diag. reflexivity.
  - rewrite lookup_insert_ne by assumption. intros Hi.
    apply lookup_app_l_Some, IH, Hi.
Qed.

Lemma orderIndex_None (l : list string) (id : string) :
  orderIndex l !! id = None ↔ id ∉ l.
Proof.
  induction l as [|x l IH] using rev_ind.
  - unfold orderIndex; simpl. rewrite lookup_empty, elem_of_nil. tauto.
  - rewrite orderIndex_snoc, elem_of_app, list_elem_of_singleton.
    destruct (decide (x = id)) as [->|Hne].
    + rewrite lookup_insert_eq. split; [discriminate|tauto].
    + rewrite lookup_insert_ne by assumption. rewrite IH.
      split; [intros ? [?|?]; [tauto|congruence]|tauto].
Qed.

Section Ordering.
Context `{Host}.

(** [localeCompare] is a consistent comparator, as ECMA-402 requires. *)
Hypothesis collation_total :
  ∀ a b, localeCompare a b <= 0 ∨ localeCompare b a <= 0.
Hypothesis collation_trans :
  ∀ a b c, localeCompare a b <= 0 -> localeCompare b c <= 0 -> localeCompare a c <= 0.

Lemma compareEntities_ids (index : gmap string nat) (a b : HaEntity) :
  compareEntities index a b = compareIds index (entity_id a) (entity_id b).
Proof. reflexivity. Qed.

Lemma compareIds_total (index : gmap string nat) (a b : string) :
  compareIds index a b <= 0 ∨ compareIds index b a <= 0.
Proof.
  unfold compareIds. destruct (index !! a), (index !! b);
    first [apply collation_total | lia].
Qed.

Lemma compareIds_trans (index : gmap string nat) (a b c : string) :
  compareIds index a b <= 0 -> compareIds index b c <= 0 -> compareIds index a c <= 0.
Proof.
  unfold compareIds. destruct (index !! a), (index !! b), (index !! c);
    first [apply collation_trans | lia].
Qed.

Lemma compareIds_antisym (entityOrder : list string) (a b : string) :
  (∀ x y, localeCompare x y <= 0 -> localeCompare y x <= 0 -> x = y) ->
  compareIds (orderIndex entityOrder) a b <= 0 ->
  compareIds (orderIndex entityOrder) b a <= 0 -> a = b.
Proof.
  intros Hanti. unfold compareIds.
  destruct (orderIndex entityOrder !! a) as [i|] eqn:Ha,
           (orderIndex entityOrder !! b) as [j|] eqn:Hb;
    first [apply Hanti | lia | idtac].
  intros Hij Hji. assert (i = j) as -> by lia.
  apply orderIndex_lookup in Ha, Hb. congruence.
Qed.

Lemma sorted_by_order (entityOrder : list string) (l : list HaEntity) :
  StronglySorted
    (fun a b => compareIds (orderIndex entityOrder) a b <= 0)
    (entity_id <$> Array_sort (compareEntities (orderIndex entityOrder)) l).
Proof.
  eapply StronglySorted_fmap;
    [|apply Array_sort_sorted].
  - intros x y Hxy. exact Hxy.
  - intros a b. apply compareIds_total.
  - intros a b c. apply compareIds_trans.
Qed.

Lemma compareIds_antisym_on (entityOrder ids : list string) (a b : string) :
  (∀ x y, x ∈ ids -> y ∈ ids -> x ∉ entityOrder -> y ∉ entityOrder ->
     localeCompare x y <= 0 -> localeCompare y x <= 0 -> x = y) ->
  a ∈ ids -> b ∈ ids ->
  compareIds (orderIndex entityOrder) a b <= 0 ->
  compareIds (orderIndex entityOrder) b a <= 0 -> a = b.
Proof.
  intros Hanti Ha Hb. unfold compareIds.
  destruct (orderIndex entityOrder !! a) as [i|] eqn:Hia,
           (orderIndex entityOrder !! b) as [j|] eqn:Hjb; try lia.
  - intros Hij Hji. assert (i = j) as -> by lia.
    apply orderIndex_lookup in Hia, Hjb. congruence.
  - apply Hanti; try assumption; apply orderIndex_None; assumption.
Qed.

(** The properties of one sorted list, whatever list is sorted. *)
Lemma sort_by_order_spec (entityOrder : list string) (l : list HaEntity) :
  let sorted := Array_sort (compareEntities (orderIndex entityOrder)) l in
  sorted ≡ₚ l
  ∧ (∀ i j a b, (i < j)%nat -> sorted !! i = Some a -> sorted !! j = Some b ->
       entity_id a ∉ entityOrder ->
       (entity_id b ∉ entityOrder) ∧ localeCompare (entity_id a) (entity_id b) <= 0)
  ∧ (∀ id, List.filter (ranked_equal entityOrder id) sorted
           = List.filter (ranked_equal entityOrder id) l)
  ∧ ((∀ x y, x ∈ (entity_id <$> l) -> y ∈ (entity_id <$> l) ->
        x ∉ entityOrder -> y ∉ entityOrder ->
        localeCompare x y <= 0 -> localeCompare y x <= 0 -> x = y) ->
     ∀ l', l' ≡ₚ l ->
       (entity_id <$> Array_sort (compareEntities (orderIndex entityOrder)) l')
         = (entity_id <$> sorted)).
Proof.
  intros sorted. split; [apply Array_sort_Permutation|]. split; [|split].
  - intros i j a b Hij Hi Hj Ha.
    pose proof (sorted_by_order entityOrder l) as Hs. fold sorted in Hs.
    assert (Hab : compareIds (orderIndex entityOrder) (entity_id a) (entity_id b) <= 0).
    { apply (StronglySorted_lookup_lt _ _ i j _ _ Hs Hij);
        rewrite list_lookup_fmap; [rewrite Hi|rewrite Hj]; reflexivity. }
    apply orderIndex_None in Ha. unfold compareIds in Hab. rewrite Ha in Hab.
    destruct (orderIndex entityOrder !! entity_id b) eqn:Hb; [lia|].
    split; [apply orderIndex_None, Hb|exact Hab].
  - intros id. apply Array_sort_stable.
    + intros a b. rewrite !compareEntities_ids. apply compareIds_total.
    + intros a b c. rewrite !compareEntities_ids. apply compareIds_trans.
    + intros a b _ _. unfold ranked_equal.
      intros [[Ha%bool_decide_eq_true _]%andb_prop Hai%Z.leb_le]%andb_prop
             [[Hb%bool_decide_eq_true Hib%Z.leb_le]%andb_prop _]%andb_prop.
      rewrite compareEntities_ids. unfold compareIds.
      apply orderIndex_None in Ha, Hb. rewrite Ha, Hb.
      exact (collation_trans _ _ _ Hai Hib).
  - intros Hanti l' Hperm.
    assert (Hids : (entity_id <$> Array_sort (compareEntities (orderIndex entityOrder)) l')
                   ≡ₚ (entity_id <$> l)).
    { apply fmap_Permutation. rewrite Array_sort_Permutation. exact Hperm. }
    apply (StronglySorted_unique_strong
             (fun a b => compareIds (orderIndex entityOrder) a b <= 0)).
    + intros x y Hx Hy.
      apply (compareIds_antisym_on entityOrder (entity_id <$> l) x y Hanti).
      * rewrite <- Hids. exact Hx.
      * unfold sorted in Hy. rewrite Array_sort_Permutation in Hy. exact Hy.
    + apply sorted_by_order.
    + apply sorted_by_order.
    + rewrite Hids. apply fmap_Permutation. unfold sorted.
      rewrite Array_sort_Permutation. reflexivity.
Qed.

(** C8, as the code has it. In both sorted lists, a device whose
    identifier the order sequence does not contain is only followed by
    such devices, hence comes after every device the sequence contains,
    and two such devices stand in the order in which [localeCompare]
    ranks their identifiers. Devices outside the sequence whose
    identifiers it ranks equal keep the order they have in the snapshot.
    When it ranks no two different identifiers of the snapshot outside
    the sequence equal, the identifiers of the sorted list are the same
    for every arrangement of the snapshot. *)
Theorem absent_devices_sort_last_in_collation_order
    (entities : list HaEntity) (hiddenEntities entityOrder : list string) :
  (∀ sorted source,
     sorted = orderedEntities entities entityOrder ∧ source = entities
     ∨ sorted = orderedVisibleEntities entities hiddenEntities entityOrder
       ∧ source = visibleEntities entities hiddenEntities ->
     sorted ≡ₚ source
     ∧ (∀ i j a b, (i < j)%nat -> sorted !! i = Some a -> sorted !! j = Some b ->
          entity_id a ∉ entityOrder ->
          (entity_id b ∉ entityOrder)
          ∧ localeCompare (entity_id a) (entity_id b) <= 0)
     ∧ (∀ id, List.filter (ranked_equal entityOrder id) sorted
              = List.filter (ranked_equal entityOrder id) source))
  ∧ ((∀ x y, x ∈ (entity_id <$> entities) -> y ∈ (entity_id <$> entities) ->
        x ∉ entityOrder -> y ∉ entityOrder ->
        localeCompare x y <= 0 -> localeCompare y x <= 0 -> x = y) ->
     ∀ snapshot, snapshot ≡ₚ entities ->
       (entity_id <$> orderedEntities snapshot entityOrder)
         = (entity_id <$> orderedEntities entities entityOrder)
       ∧ (entity_id <$> orderedVisibleEntities snapshot hiddenEntities entityOrder)
         = (entity_id <$> orderedVisibleEntities entities hiddenEntities entityOrder)).
Proof.
  destruct (sort_by_order_spec entityOrder entities) as (Hp1 & Hs1 & Ht1 & Hu1).
  destruct (sort_by_order_spec entityOrder (visibleEntities entities hiddenEntities))
    as (Hp2 & Hs2 & Ht2 & Hu2).
  split.
  - intros sorted source [[-> ->]|[-> ->]].
    + split; [exact Hp1|]. split; [exact Hs1|exact Ht1].
    + split; [exact Hp2|]. split; [exact Hs2|exact Ht2].
  - intros Hanti snapshot Hperm. split.
    + apply Hu1; assumption.
    + apply Hu2; [|apply List_filter_Permutation, Hperm].
      intros x y Hx Hy. apply Hanti.
      * apply list_elem_of_fmap in Hx as (e & -> & He%elem_of_List_filter).
        apply list_elem_of_fmap. exists e. tauto.
      * apply list_elem_of_fmap in Hy as (e & -> & He%elem_of_List_filter).
        apply list_elem_of_fmap. exists e. tauto.
Qed.

End Ordering.

Lemma codeUnit_collation_le (a b : string) :
  localeCompare (Host := codeUnitHost) a b <= 0 ↔ String.le a b.
Proof.
  unfold String.le, String.leb; simpl.
  destruct (String.compare a b); simpl; split; first [lia | tauto | intros []].
Qed.

Lemma codeUnit_collation_total (a b : string) :
  localeCompare (Host := codeUnitHost) a b <= 0
  ∨ localeCompare (Host := codeUnitHost) b a <= 0.
Proof. rewrite !codeUnit_collation_le. apply (total String.le). Qed.

Lemma codeUnit_collation_trans (a b c : string) :
  localeCompare (Host := codeUnitHost) a b <= 0 ->
  localeCompare (Host := codeUnitHost) b c <= 0 ->
  localeCompare (Host := codeUnitHost) a c <= 0.
Proof. rewrite !codeUnit_collation_le. apply transitivity. Qed.

Lemma codeUnit_collation_antisym (a b : string) :
  localeCompare (Host := codeUnitHost) a b <= 0 ->
  localeCompare (Host := codeUnitHost) b a <= 0 -> a = b.
Proof. rewrite !codeUnit_collation_le. apply (anti_symm String.le). Qed.

(** The collation of [collationHost] is the order of the keys, and
    different strings have different keys. *)
Lemma collationHost_le (a b : string) :
  localeCompare (Host := collationHost) a b <= 0
  ↔ String.le (collation_key a) (collation_key b).
Proof.
  unfold String.le, String.leb; simpl.
  destruct (String.compare (collation_key a) (collation_key b)); simpl; split;
    first [lia | tauto | intros []].
Qed.

Lemma collationHost_total (a b : string) :
  localeCompare (Host := collationHost) a b <= 0
  ∨ localeCompare (Host := collationHost) b a <= 0.
Proof. rewrite !collationHost_le. apply (total String.le). Qed.

Lemma collationHost_trans (a b c : string) :
  localeCompare (Host := collationHost) a b <= 0 ->
  localeCompare (Host := collationHost) b c <= 0 ->
  localeCompare (Host := collationHost) a c <= 0.
Proof. rewrite !collationHost_le. apply transitivity. Qed.

Lemma collation_key_inj (a b : string) : collation_key a = collation_key b -> a = b.
Proof.
  assert (Hchar : ∀ c d : ascii,
    ascii_of_nat (Z.to_nat (collation_rank (code c)))
      = ascii_of_nat (Z.to_nat (collation_rank (code d))) -> c = d).
  { assert (Hall : forallb
              (fun n => forallb
                 (fun m =>
                    negb (Ascii.eqb
                            (ascii_of_nat (Z.to_nat (collation_rank (code (ascii_of_nat n)))))
                            (ascii_of_nat (Z.to_nat (collation_rank (code (ascii_of_nat m))))))
                    || (n =? m)%nat)
                 (seq 0 256))
              (seq 0 256) = true) by (vm_compute; reflexivity).
    intros c d Heq. rewrite forallb_forall in Hall.
    specialize (Hall (nat_of_ascii c)
                  ltac:(apply in_seq; pose proof (nat_ascii_bounded c); lia)).
    rewrite forallb_forall in Hall.
    specialize (Hall (nat_of_ascii d)
                  ltac:(apply in_seq; pose proof (nat_ascii_bounded d); lia)).
    rewrite !ascii_nat_embedding in Hall.
    apply Ascii.eqb_eq in Heq. rewrite Heq in Hall. simpl in Hall.
    apply Nat.eqb_eq in Hall.
    rewrite <- (ascii_nat_embedding c), <- (ascii_nat_embedding d), Hall. reflexivity. }
  revert b. induction a as [|c a IH]; intros [|d b]; simpl; try discriminate.
  - reflexivity.
  - intros [= Hcd Hab]. rewrite (Hchar c d Hcd), (IH b Hab). reflexivity.
Qed.

Lemma collationHost_antisym (a b : string) :
  localeCompare (Host := collationHost) a b <= 0 ->
  localeCompare (Host := collationHost) b a <= 0 -> a = b.
Proof.
  rewrite !collationHost_le. intros Hab Hba.
  apply collation_key_inj, (anti_symm String.le); assumption.
Qed.

Lemma absent_devices_sort_last_in_collation_order_witness :
  let device id := {| entity_id := id; state := "on"; attributes := JObj [] |} in
  let snapshot := [device "light.desk2"; device "switch.z"; device "light.desk_1"] in
  (("light.desk2" ∉ ["switch.z"])
   ∧ localeCompare (Host := collationHost) "light.desk_1" "light.desk2" <= 0)
  ∧ (entity_id <$>
       orderedEntities (H := collationHost)
         [device "switch.z"; device "light.desk_1"; device "light.desk2"] ["switch.z"])
    = (entity_id <$> orderedEntities (H := collationHost) snapshot ["switch.z"]).
Proof.
  intros device snapshot.
  destruct (absent_devices_sort_last_in_collation_order (H := collationHost)
              collationHost_total collationHost_trans snapshot [] ["switch.z"])
    as (Hsorted & Hany).
  split.
  - destruct (Hsorted _ _ (or_introl (conj eq_refl eq_refl))) as (_ & Hpairs & _).
    apply (Hpairs 1%nat 2%nat (device "light.desk_1") (device "light.desk2")).
    + lia.
    + reflexivity.
    + reflexivity.
    + simpl. rewrite list_elem_of_singleton. discriminate.
  - apply Hany.
    + intros x y _ _ _ _. apply collationHost_antisym.
    + apply Permutation_sym, (Permutation_cons_append [_; _]).
Defined.

(** The claim C8 fails as it is stated. The devices outside the order
    sequence are sorted by [localeCompare], which is not the lexical
    order of the identifiers: a browser ranks [_] before the digits, so
    that [light.desk_1] is resolved before [light.desk2], while
    [light.desk2] comes first in the lexical order, the code of [2]
    being below that of [_]. *)
Lemma collation_not_lexical_counterexample :
  let device id := {| entity_id := id; state := "on"; attributes := JObj [] |} in
  (entity_id <$>
     orderedEntities (H := collationHost) [device "light.desk2"; device "light.desk_1"] [])
  = ["light.desk_1"; "light.desk2"]
  ∧ (entity_id <$>
       orderedVisibleEntities (H := collationHost)
         [device "light.desk2"; device "light.desk_1"] [] [])
    = ["light.desk_1"; "light.desk2"]
  ∧ String.compare "light.desk2" "light.desk_1" = Lt.
Proof. vm_compute. repeat split. Qed.

(** ** The settings lock *)

Lemma round_length (st : list Z) (kw : Z * Z) :
  length (SHA256.round st kw) = length st.
Proof.
  destruct st as [|a [|b [|c [|d [|e [|f [|g [|h [|i rest]]]]]]]]]; reflexivity.
Qed.

Lemma compress_length (hash block : list Z) :
  length (SHA256.compress hash block) = length hash.
Proof.
  unfold SHA256.compress. rewrite length_zip_with.
  assert (Hfold : ∀ l st, length (foldl SHA256.round st l) = length st).
  { induction l as [|kw l IH]; intros st; simpl; [reflexivity|].
    rewrite IH. apply round_length. }
  rewrite Hfold. lia.
Qed.

Lemma digest_nonempty (msg : list Z) : SHA256.digest msg ≠ [].
Proof.
  unfold SHA256.digest.
  set (bl := SHA256.blocks _ _).
  assert (Hlen : length (foldl SHA256.compress SHA256.H0 bl) = 8%nat).
  { clearbody bl. generalize SHA256.H0 (eq_refl : length SHA256.H0 = 8%nat).
    induction bl as [|b bl IH]; intros hash Hh; simpl; [exact Hh|].
    apply IH. rewrite compress_length. exact Hh. }
  destruct (foldl SHA256.compress SHA256.H0 bl) as [|w ws]; [discriminate|].
  discriminate.
Qed.

Lemma hex_go_nonempty (fuel : nat) (z : Z) (acc : string) :
  acc ≠ "" -> hex_go fuel z acc ≠ "".
Proof.
  revert z acc. induction fuel as [|f IH]; intros z acc Hacc; simpl; [exact Hacc|].
  destruct (z / 16 =? 0); [discriminate|]. apply IH. discriminate.
Qed.

Lemma hex_of_Z_nonempty (z : Z) : hex_of_Z z ≠ "".
Proof.
  unfold hex_of_Z. simpl.
  destruct (z / 16 =? 0); [discriminate|]. apply hex_go_nonempty. discriminate.
Qed.

Lemma app_nonempty (s t : string) : s ≠ "" -> (s ++ t)%string ≠ "".
Proof. destruct s; [congruence|discriminate]. Qed.

Lemma padStart0_nonempty (n : nat) (s : string) : s ≠ "" -> padStart0 n s ≠ "".
Proof.
  intros Hs. unfold padStart0.
  destruct (zeros (n - String.length s)) as [|c r]; [exact Hs|discriminate].
Qed.

(** **** The form of a digest *)

Lemma be_bytes_4 (x : Z) :
  length (SHA256.be_bytes 4 x) = 4%nat
  ∧ Forall (fun b => 0 <= b < 256) (SHA256.be_bytes 4 x).
Proof.
  split; [reflexivity|]. unfold SHA256.be_bytes. simpl.
  repeat constructor; apply Z.mod_pos_bound; lia.
Qed.

Lemma digest_bytes (msg : list Z) :
  length (SHA256.digest msg) = 32%nat
  ∧ Forall (fun b => 0 <= b < 256) (SHA256.digest msg).
Proof.
  unfold SHA256.digest.
  set (bl := SHA256.blocks _ _).
  assert (Hlen : length (foldl SHA256.compress SHA256.H0 bl) = 8%nat).
  { clearbody bl. generalize SHA256.H0 (eq_refl : length SHA256.H0 = 8%nat).
    induction bl as [|b bl IH]; intros hash Hh; simpl; [exact Hh|].
    apply IH. rewrite compress_length. exact Hh. }
  destruct (foldl SHA256.compress SHA256.H0 bl)
    as [|a [|b [|c [|d [|e [|f [|g [|h [|i rest]]]]]]]]]; try discriminate.
  split; [reflexivity|].
  unfold SHA256.be_bytes. simpl.
  repeat constructor; apply Z.mod_pos_bound; lia.
Qed.

Lemma byte_hex (b : Z) :
  0 <= b < 256 ->
  String.length (padStart0 2 (hex_of_Z b)) = 2%nat
  ∧ all_chars is_lower_hex (padStart0 2 (hex_of_Z b)) = true.
Proof.
  intros Hb.
  assert (Hall : forallb
            (fun n => (String.length (padStart0 2 (hex_of_Z (Z.of_nat n))) =? 2)%nat
                      && all_chars is_lower_hex (padStart0 2 (hex_of_Z (Z.of_nat n))))
            (seq 0 256) = true) by (vm_compute; reflexivity).
  rewrite forallb_forall in Hall.
  specialize (Hall (Z.to_nat b)). rewrite Z2Nat.id in Hall by lia.
  destruct (andb_prop _ _ (Hall ltac:(apply in_seq; lia))) as [Hl Hc].
  split; [apply Nat.eqb_eq, Hl|exact Hc].
Qed.

Lemma length_string_app (s t : string) :
  String.length (s ++ t)%string = (String.length s + String.length t)%nat.
Proof. induction s as [|c s IH]; simpl; [reflexivity|]. rewrite IH. reflexivity. Qed.

Lemma concat_cons (x : string) (l : list string) :
  String.concat "" (x :: l) = (x ++ String.concat "" l)%string.
Proof.
  destruct l as [|y l]; simpl; [|reflexivity].
  induction x as [|c x IH]; [reflexivity|].
  change (String c x = String c (x ++ ""))%string. f_equal. exact IH.
Qed.

Lemma all_chars_app (p : ascii -> bool) (s t : string) :
  all_chars p (s ++ t)%string = all_chars p s && all_chars p t.
Proof.
  induction s as [|c s IH]; simpl; [reflexivity|].
  rewrite IH, andb_assoc. reflexivity.
Qed.

Lemma concat_hex (bytes : list Z) :
  Forall (fun b => 0 <= b < 256) bytes ->
  String.length
    (String.concat "" (map (fun byte => padStart0 2 (hex_of_Z byte)) bytes))
    = (2 * length bytes)%nat
  ∧ all_chars is_lower_hex
      (String.concat "" (map (fun byte => padStart0 2 (hex_of_Z byte)) bytes)) = true.
Proof.
  induction 1 as [|b bytes Hb _ [IHl IHc]]; [split; reflexivity|].
  destruct (byte_hex b Hb) as [Hl Hc].
  rewrite map_cons, concat_cons. split.
  - rewrite length_string_app, Hl, IHl. simpl. lia.
  - rewrite all_chars_app, Hc, IHc. reflexivity.
Qed.

(** [hashValue] renders 64 lowercase hexadecimal digits. *)
Lemma hashValue_hex (value : string) :
  String.length (hashValue value) = 64%nat
  ∧ all_chars is_lower_hex (hashValue value) = true.
Proof.
  unfold hashValue.
  destruct (digest_bytes (TextEncoder_encode value)) as [Hlen Hbytes].
  destruct (concat_hex _ Hbytes) as [Hl Hc].
  rewrite Hlen in Hl. split; assumption.
Qed.

(** A digest is never the empty string, so a stored hash always counts
    as a password being set. *)
Lemma hashValue_truthy (value : string) : truthy (hashValue value) = true.
Proof.
  unfold truthy, hashValue.
  destruct (SHA256.digest (TextEncoder_encode value)) as [|byte rest] eqn:Hd.
  - exfalso. exact (digest_nonempty _ Hd).
  - apply negb_true_iff, String.eqb_neq.
    pose proof (padStart0_nonempty 2 _ (hex_of_Z_nonempty byte)) as Hne.
    simpl. destruct (map _ rest); [exact Hne|].
    apply app_nonempty, Hne.
Qed.

#[local] Arguments hashValue : simpl never.

Lemma handleUnlock_sets (s : AppState) (p : string) :
  passwordHash (doc s) = "" -> trim p ≠ "" ->
  handleUnlock (setNewPassword p s) = password_stored p s.
Proof.
  intros Hnone Hp%String.eqb_neq. unfold handleUnlock, truthy. simpl.
  rewrite Hnone, Hp. reflexivity.
Qed.

Lemma updatePassword_changes (s : AppState) (p : string) :
  trim p ≠ "" -> updatePassword (setNewPassword p s) = password_stored p s.
Proof.
  intros Hp%String.eqb_neq. unfold updatePassword, truthy. simpl.
  rewrite Hp. reflexivity.
Qed.

(** What the lock does once a password is stored: after locking, an
    attempt unlocks exactly when the digest of the input as typed equals
    the stored hash, and otherwise leaves the lock closed with an
    error. *)
Lemma lock_round_trip (s : AppState) (p q : string) :
  let s1 := password_stored p s in
  let s3 := handleUnlock (setPasswordInput q (handleLock s1)) in
  lockState s1 = Unlocked
  ∧ passwordHash (doc s1) = hashValue (trim p)
  ∧ lockState (handleLock s1) = Locked
  ∧ (hashValue q = hashValue (trim p) -> lockState s3 = Unlocked)
  ∧ (hashValue q ≠ hashValue (trim p) ->
     lockState s3 = Locked ∧ settingsError s3 = "Incorrect password.").
Proof.
  intros s1 s3.
  assert (Hhash : passwordHash (doc s1) = hashValue (trim p)) by reflexivity.
  split; [reflexivity|].
  split; [exact Hhash|].
  assert (Hlocked : lockState (handleLock s1) = Locked).
  { unfold lockState, handleLock. simpl. rewrite hashValue_truthy. reflexivity. }
  split; [exact Hlocked|].
  assert (Hs3 : s3 =
    if String.eqb (hashValue q) (hashValue (trim p))
    then setSettingsError "" (setSettingsUnlocked true (setPasswordInput q (handleLock s1)))
    else setSettingsError "Incorrect password." (setPasswordInput q (handleLock s1))).
  { unfold s3, handleUnlock. simpl. rewrite hashValue_truthy. reflexivity. }
  split.
  - intros Heq. rewrite Hs3. apply String.eqb_eq in Heq. rewrite Heq. reflexivity.
  - intros Hne. rewrite Hs3. apply String.eqb_neq in Hne. rewrite Hne. split.
    + unfold lockState. simpl. rewrite hashValue_truthy. reflexivity.
    + reflexivity.
Qed.

(** C6, as the code has it. Setting a password where none is stored,
    and changing the password from any state, a stored password
    included, stores the SHA-256 digest of the UTF-8 bytes of the trimmed
    password, rendered as 64 lowercase hexadecimal digits, and unlocks
    when the password is not blank; a blank password is refused and
    changes neither the hash nor the lock. After either, for a password
    without white space at either end, locking and attempting it
    unlocks; an attempt without white space at either end whose digest
    differs from the stored hash leaves the lock closed with the error
    for a wrong password. *)
Theorem lock_digest_and_round_trip (s s' : AppState) (p q : string) :
  passwordHash (doc s) = "" ->
  let set := handleUnlock (setNewPassword p s) in
  let changed := updatePassword (setNewPassword p s') in
  let attempt from input := handleUnlock (setPasswordInput input (handleLock from)) in
  String.length (hashValue (trim p)) = 64%nat
  ∧ all_chars is_lower_hex (hashValue (trim p)) = true
  ∧ hashValue (trim p)
    = String.concat ""
        (map (fun byte => padStart0 2 (hex_of_Z byte))
           (SHA256.digest (TextEncoder_encode (trim p))))
  ∧ (trim p = "" ->
     passwordHash (doc set) = "" ∧ settingsUnlocked set = settingsUnlocked s
     ∧ doc changed = doc s' ∧ settingsUnlocked changed = settingsUnlocked s')
  ∧ (trim p ≠ "" ->
     Forall
       (fun from =>
          passwordHash (doc from) = hashValue (trim p)
          ∧ lockState from = Unlocked
          ∧ lockState (handleLock from) = Locked
          ∧ (trim p = p -> lockState (attempt from p) = Unlocked)
          ∧ (trim q = q -> hashValue q ≠ passwordHash (doc from) ->
             lockState (attempt from q) = Locked
             ∧ settingsError (attempt from q) = "Incorrect password."))
       [set; changed]).
Proof.
  intros Hnone set changed attempt.
  destruct (hashValue_hex (trim p)) as [Hlen Hhex].
  split; [exact Hlen|]. split; [exact Hhex|]. split; [reflexivity|]. split.
  - intros Hblank. unfold set, changed, handleUnlock, updatePassword. simpl.
    rewrite Hnone, Hblank. simpl. rewrite Hnone. repeat split.
  - intros Hp.
    assert (Hboth : ∀ t,
      passwordHash (doc (password_stored p t)) = hashValue (trim p)
      ∧ lockState (password_stored p t) = Unlocked
      ∧ lockState (handleLock (password_stored p t)) = Locked
      ∧ (trim p = p -> lockState (attempt (password_stored p t) p) = Unlocked)
      ∧ (trim q = q -> hashValue q ≠ passwordHash (doc (password_stored p t)) ->
         lockState (attempt (password_stored p t) q) = Locked
         ∧ settingsError (attempt (password_stored p t) q) = "Incorrect password.")).
    { intros t.
      destruct (lock_round_trip t p q) as (Hunlocked & Hhash & Hlocked & _ & Hbad).
      destruct (lock_round_trip t p p) as (_ & _ & _ & Hgood & _).
      split; [exact Hhash|]. split; [exact Hunlocked|]. split; [exact Hlocked|]. split.
      - intros Htrim. apply Hgood. rewrite Htrim. reflexivity.
      - intros _ Hne. apply Hbad. exact Hne. }
    unfold set, changed.
    rewrite (handleUnlock_sets s p Hnone Hp), (updatePassword_changes s' p Hp).
    apply List.Forall_cons; [apply Hboth|].
    apply List.Forall_cons; [apply Hboth|apply List.Forall_nil].
Qed.

Lemma lock_digest_and_round_trip_witness :
  let set p := handleUnlock (setNewPassword p initialState) in
  let change p from := updatePassword (setNewPassword p from) in
  let attempt from input := handleUnlock (setPasswordInput input (handleLock from)) in
  lockState (attempt (set "abc") "abc") = Unlocked
  ∧ lockState (attempt (set "abc") "abd") = Locked
  ∧ passwordHash (doc (change "abc" (set "xyz"))) = hashValue "abc"
  ∧ lockState (attempt (change "abc" (set "xyz")) "abc") = Unlocked
  ∧ lockState (attempt (change "abc" (set "xyz")) "abd") = Locked.
Proof.
  intros set change attempt.
  destruct (lock_digest_and_round_trip initialState (set "xyz") "abc" "abd" eq_refl)
    as (_ & _ & _ & _ & Hstored).
  specialize (Hstored ltac:(discriminate)).
  apply Forall_cons_1 in Hstored as [Hset Hchanged].
  apply Forall_cons_1 in Hchanged as [Hchanged _].
  destruct Hset as (_ & _ & _ & Hgood & Hbad).
  destruct Hchanged as (Hhash & _ & _ & Hgood' & Hbad').
  split; [apply Hgood; reflexivity|].
  split; [apply Hbad; [reflexivity|vm_compute; discriminate]|].
  split; [exact Hhash|].
  split; [apply Hgood'; reflexivity|].
  apply Hbad'; [reflexivity|vm_compute; discriminate].
Defined.

(** The claim C6 fails as it is stated, on two inputs. The blank
    password ["  "] is refused, so that setting and attempting it never
    unlocks. The password [" abc"] is stored as the digest of ["abc"],
    while the attempt digests its input as typed: the attempt [" abc"]
    leaves the lock closed with the error for a wrong password, and the
    attempt ["abc"] opens it. *)
Lemma round_trip_counterexample :
  let set p := handleUnlock (setNewPassword p initialState) in
  let attempt p input := handleUnlock (setPasswordInput input (handleLock (set p))) in
  lockState (attempt "  " "  ") = NoPasswordSet
  ∧ lockState (set " abc") = Unlocked
  ∧ passwordHash (doc (set " abc"))
    = "ba7816bf8f01cfea414140de5dae2223b00361a396177a9cb410ff61f20015ad"
  ∧ lockState (attempt " abc" " abc") = Locked
  ∧ settingsError (attempt " abc" " abc") = "Incorrect password."
  ∧ lockState (attempt " abc" "abc") = Unlocked.
Proof. vm_compute. repeat split. Qed.

(** ** The debounced persistence gate *)

Section Gate.
Variable envProxy : bool.

Lemma persistPanelSettings_guard (s : AppState) (next : SettingsPatch)
    (reply : FetchOutcome JsValue) :
  connectionReady envProxy s = false ∨ settingsLoaded s = false ->
  persistPanelSettings envProxy s next reply = ([], Fulfilled tt).
Proof.
  intros Hguard. unfold persistPanelSettings.
  destruct Hguard as [-> | ->]; [reflexivity|].
  rewrite orb_true_r. reflexivity.
Qed.

Lemma saveDebounceEffect_guard (ses : Session) :
  connectionReady envProxy (app ses) = false ∨ settingsLoaded (app ses) = false ->
  saveDebounceEffect envProxy ses = ses.
Proof.
  intros Hguard. unfold saveDebounceEffect.
  destruct Hguard as [-> | ->]; [reflexivity|].
  rewrite orb_true_r. reflexivity.
Qed.

Lemma handleUnlock_settingsLoaded (s : AppState) :
  settingsLoaded (handleUnlock s) = settingsLoaded s.
Proof. unfold handleUnlock. repeat case_match; reflexivity. Qed.

Lemma updatePassword_settingsLoaded (s : AppState) :
  settingsLoaded (updatePassword s) = settingsLoaded s.
Proof. unfold updatePassword. repeat case_match; reflexivity. Qed.

Lemma apiFetch_fulfilled {A : Type} (s : AppState) (path : string)
    (options : RequestInit) (reply : FetchOutcome A) (value : A) :
  (apiFetch envProxy s path options reply).2 = Fulfilled value ->
  fulfils reply = true.
Proof.
  unfold apiFetch, fulfils.
  destruct (_ || _); [discriminate|]. simpl.
  destruct reply as [message|r]; [discriminate|].
  destruct (ok r); simpl; [|discriminate].
  intros ->. reflexivity.
Qed.

Lemma apiFetch_requests {A : Type} (s : AppState) (path : string)
    (options : RequestInit) (reply : FetchOutcome A) :
  Forall (fun r => request_method r = method options)
    (apiFetch envProxy s path options reply).1.
Proof.
  unfold apiFetch. destruct (_ || _); simpl; repeat constructor.
Qed.

Lemma apiFetch_credentials {A : Type} (s : AppState) (path : string)
    (options : RequestInit) (reply : FetchOutcome A) :
  Forall has_credentials (apiFetch envProxy s path options reply).1.
Proof.
  unfold apiFetch.
  destruct (truthy (token (doc s))) eqn:Htoken; simpl; [|constructor].
  destruct (_ && _); simpl; repeat constructor.
  exists (token (doc s)). split; [exact Htoken|reflexivity].
Qed.

Lemma step_credentials (ses : Session) (ev : Event) :
  Forall has_credentials (sent ses) ->
  Forall has_credentials (sent (step envProxy ses ev)).
Proof.
  intros Hsent. destruct ev as [f|v|v| | | | |reply|id reply]; simpl; try exact Hsent.
  - unfold saveDebounceEffect. destruct (_ || _); exact Hsent.
  - unfold loadEffect. destruct (_ && _); [|exact Hsent].
    unfold loadPanelSettings. destruct (negb _); simpl.
    + rewrite app_nil_r. exact Hsent.
    + pose proof (apiFetch_credentials (app ses) settingsApiPath
                    {| method := "GET"; body := None |} reply) as Hreq.
      destruct (apiFetch envProxy (app ses) settingsApiPath _ reply) as [requests settled].
      simpl in *. apply Forall_app. split; assumption.
  - unfold saveTimerFires. destruct (timers ses !! id) as [closure|]; [|exact Hsent].
    simpl. apply Forall_app. split; [exact Hsent|].
    unfold persistPanelSettings. destruct (_ || _); [constructor|].
    pose proof (apiFetch_credentials closure settingsApiPath
                  {| method := "PUT"; body := Some (spread (doc closure) no_patch) |}
                  reply) as Hreq.
    destruct (apiFetch envProxy closure settingsApiPath _ reply) as [requests settled].
    exact Hreq.
Qed.

Lemma run_credentials (events : list Event) (s : AppState) :
  Forall has_credentials (sent (run envProxy events (startSession s))).
Proof.
  induction events as [|ev events IH] using rev_ind; [constructor|].
  unfold run in *. rewrite foldl_app. simpl. apply step_credentials, IH.
Qed.

Lemma loadPanelSettings_spec (s : AppState) (reply : FetchOutcome SettingsBody) :
  Forall (fun r => is_write r = false) (loadPanelSettings envProxy s reply).1
  ∧ (settingsLoaded (loadPanelSettings envProxy s reply).2 = true ->
     settingsLoaded s = true ∨ fulfils reply = true).
Proof.
  unfold loadPanelSettings.
  destruct (negb (connectionReady envProxy s)); [split; [constructor|tauto]|].
  pose proof (apiFetch_requests s settingsApiPath
                {| method := "GET"; body := None |} reply) as Hreq.
  pose proof (apiFetch_fulfilled s settingsApiPath
                {| method := "GET"; body := None |} reply) as Hful.
  destruct (apiFetch envProxy s settingsApiPath _ reply) as [requests settled].
  simpl in *. split.
  - eapply Forall_impl; [exact Hreq|]. intros r Hr. unfold is_write. rewrite Hr. reflexivity.
  - destruct settled as [[typeError|parsed]|message]; simpl.
    + tauto.
    + intros _. right. apply (Hful (Document parsed)). reflexivity.
    + tauto.
Qed.

(** The flag of the load is only raised by the load effect, on a reply
    that fulfils the fetch. *)
Lemma settingsLoaded_raised (ses : Session) (ev : Event) :
  settingsLoaded (app ses) = false ->
  settingsLoaded (app (step envProxy ses ev)) = true ->
  ∃ reply, ev = RunLoadEffect reply ∧ fulfils reply = true.
Proof.
  intros Hflag. destruct ev as [f|v|v| | | | |reply|id reply]; simpl;
    try (rewrite ?handleUnlock_settingsLoaded, ?updatePassword_settingsLoaded;
         simpl; congruence).
  - unfold saveDebounceEffect. destruct (_ || _); simpl; congruence.
  - unfold loadEffect. destruct (_ && _); simpl; [|congruence].
    pose proof (loadPanelSettings_spec (app ses) reply) as [_ Hload].
    destruct (loadPanelSettings envProxy (app ses) reply) as [requests s'].
    simpl in *. intros Hs'. exists reply. split; [reflexivity|].
    destruct (Hload Hs') as [?|?]; [congruence|assumption].
  - unfold saveTimerFires. destruct (timers ses !! id); simpl; congruence.
Qed.

Lemma unloaded_step (ses : Session) (ev : Event) :
  unloaded ses ->
  settingsLoaded (app (step envProxy ses ev)) = false ->
  unloaded (step envProxy ses ev).
Proof.
  intros (Hflag & Htimers & Hsent) Hafter.
  split; [exact Hafter|].
  destruct ev as [f|v|v| | | | |reply|id reply]; simpl in *;
    try (split; assumption).
  - rewrite saveDebounceEffect_guard by (right; exact Hflag). split; assumption.
  - unfold loadEffect in *. destruct (_ && _); [|split; assumption].
    pose proof (loadPanelSettings_spec (app ses) reply) as [Hreq _].
    destruct (loadPanelSettings envProxy (app ses) reply) as [requests s'].
    simpl in *. split; [assumption|]. apply Forall_app. split; assumption.
  - unfold saveTimerFires. rewrite Htimers, lookup_empty. split; assumption.
Qed.

Lemma unloaded_run (events : list Event) (s : AppState) :
  settingsLoaded s = false ->
  settingsLoaded (app (run envProxy events (startSession s))) = false ->
  unloaded (run envProxy events (startSession s)).
Proof.
  intros Hs. induction events as [|ev events IH] using rev_ind; intros Hafter.
  - split; [exact Hs|]. split; [reflexivity|constructor].
  - unfold run in *. rewrite foldl_app in *. simpl in *.
    apply unloaded_step; [|exact Hafter]. apply IH.
    destruct (settingsLoaded (app (foldl (step envProxy) (startSession s) events)))
      eqn:Hbefore; [|reflexivity].
    exfalso. revert Hafter. clear -Hbefore.
    set (ses := foldl (step envProxy) (startSession s) events) in *.
    destruct ev as [f|v|v| | | | |reply|id reply]; simpl;
      rewrite ?handleUnlock_settingsLoaded, ?updatePassword_settingsLoaded;
      simpl; try congruence.
    + unfold saveDebounceEffect. destruct (_ || _); simpl; congruence.
    + unfold loadEffect. rewrite Hbefore, andb_false_r. congruence.
    + unfold saveTimerFires. destruct (timers ses !! id); simpl; congruence.
Qed.

(** C1. [persistPanelSettings] returns without a request when the load
    has not succeeded or the credentials are missing, and the debounce
    effect then schedules nothing. In every run of a session that starts
    with the flag of the load down, as long as the flag is down no write
    has been sent and no flush is pending, whatever mutations were made;
    the flag only goes up when the load effect receives a reply that
    fulfils its fetch; and no request is ever sent without a token. *)
Theorem no_flush_before_load :
  (∀ s next reply,
     connectionReady envProxy s = false ∨ settingsLoaded s = false ->
     persistPanelSettings envProxy s next reply = ([], Fulfilled tt))
  ∧ (∀ ses,
       connectionReady envProxy (app ses) = false ∨ settingsLoaded (app ses) = false ->
       saveDebounceEffect envProxy ses = ses)
  ∧ (∀ events s,
       settingsLoaded s = false ->
       let ses := run envProxy events (startSession s) in
       settingsLoaded (app ses) = false ->
       Forall (fun r => is_write r = false) (sent ses) ∧ timers ses = ∅)
  ∧ (∀ ses ev,
       settingsLoaded (app ses) = false ->
       settingsLoaded (app (step envProxy ses ev)) = true ->
       ∃ reply, ev = RunLoadEffect reply ∧ fulfils reply = true)
  ∧ (∀ events s, Forall has_credentials (sent (run envProxy events (startSession s)))).
Proof.
  split; [exact persistPanelSettings_guard|].
  split; [exact saveDebounceEffect_guard|].
  split; [|split; [exact settingsLoaded_raised|exact run_credentials]].
  intros events s Hs ses Hafter.
  destruct (unloaded_run events s Hs Hafter) as (_ & Htimers & Hsent).
  split; assumption.
Qed.

(** A flush leaves every hook as it is, whatever the store answers:
    nothing is rolled back, and nothing is written to [storageError]. *)
Lemma saveTimerFires_app (id : nat) (reply : FetchOutcome JsValue) (ses : Session) :
  app (saveTimerFires envProxy id reply ses) = app ses
  ∧ timers (saveTimerFires envProxy id reply ses) = delete id (timers ses).
Proof.
  unfold saveTimerFires. destruct (timers ses !! id) eqn:Hid; simpl.
  - split; reflexivity.
  - split; [reflexivity|]. symmetry. apply delete_id, Hid.
Qed.

End Gate.

Lemma no_flush_before_load_witness :
  let events :=
    [ Mutate (setToken "secret"); RunSaveDebounceEffect;
      RunLoadEffect (NetworkError "Failed to fetch");
      Mutate (setHaUrl "http://hub.local:8123"); RunSaveDebounceEffect;
      TimerFires 1 (NetworkError "Failed to fetch") ] in
  persistPanelSettings false initialState no_patch (NetworkError "Failed to fetch")
    = ([], Fulfilled tt)
  ∧ Forall (fun r => is_write r = false)
      (sent (run false events (startSession initialState)))
  ∧ timers (run false events (startSession initialState)) = ∅.
Proof.
  intros events.
  destruct (no_flush_before_load false) as (Hguard & _ & Hrun & _ & _).
  split.
  - apply Hguard. left. reflexivity.
  - apply (Hrun events initialState); reflexivity.
Defined.

(** C4. The claim fails on the code: the timer callback drops the
    promise of [persistPanelSettings], and only [loadPanelSettings]
    writes to [storageError]. In a connected, loaded session with a
    pending flush, when the store answers the write with status 500 the
    flush is rejected with the message of the response, [storageError]
    stays empty, every hook keeps its value, and no timer is pending
    afterwards. *)
Theorem flush_failure_not_surfaced :
  let stored :=
    {| stored_haUrl := None; stored_haToken := None;
       stored_hiddenEntities := Some ["switch.fan"];
       stored_nameOverrides := None; stored_categoryMap := None;
       stored_entityOrder := Some ["light.desk"; "switch.fan"];
       stored_customCategories := None; stored_passwordHash := None |} in
  let ses :=
    run false
      [ Mutate (fun d => setToken "secret" (setHaUrl "http://hub.local:8123" d));
        RunLoadEffect (Responded {| status := 200; text := ""; json := Fulfilled (Document stored) |});
        RunSaveDebounceEffect ]
      (startSession initialState) in
  let reply : FetchOutcome JsValue :=
    Responded {| status := 500; text := "store unavailable"; json := Rejected "" |} in
  let after := step false ses (TimerFires 1 reply) in
  is_Some (timers ses !! 1%nat)
  ∧ (persistPanelSettings false (app ses) no_patch reply).2
    = Rejected "store unavailable"
  ∧ List.filter is_write (sent after)
    = [ {| url := "http://hub.local:8123/api/studio_panel/settings";
           request_method := "PUT";
           authorization := "Bearer secret";
           request_body := Some (doc (app ses)) |} ]
  ∧ storageError (app after) = ""
  ∧ app after = app ses
  ∧ timers after = ∅.
Proof.
  vm_compute. split; [eexists; reflexivity|]. repeat split.
Qed.

(** * Further properties of [src/App.tsx] *)

Import Panel.
Local Open Scope list_scope.

(** ** Colors: [rgbToHex] and [hexToRgb] *)

Lemma number_eqb_eq (x y : number) : number_eqb x y = true -> x = y.
Proof.
  destruct x as [s|s| |s m e], y as [t|t| |t n f]; simpl; try discriminate.
  - intros ->%Bool.eqb_prop. reflexivity.
  - intros ->%Bool.eqb_prop. reflexivity.
  - reflexivity.
  - intros [[->%Bool.eqb_prop ->%Pos.eqb_eq]%andb_prop ->%Z.eqb_eq]%andb_prop.
    reflexivity.
Qed.

Lemma below_256 (P : Z -> Prop) (check : Z -> bool) :
  (∀ n, check n = true -> P n) ->
  forallb (fun n => check (Z.of_nat n)) (seq 0 256) = true ->
  ∀ n, 0 <= n < 256 -> P n.
Proof.
  intros Hcheck Hall n Hn. apply Hcheck.
  rewrite forallb_forall in Hall. specialize (Hall (Z.to_nat n)).
  rewrite Z2Nat.id in Hall by lia. apply Hall, in_seq. lia.
Qed.

Section Colors.
Context `{Host}.

(** One component in range: its two digits, and back. *)
Lemma toHex_byte (n : Z) :
  0 <= n < 256 ->
  ∃ c1 c2,
    toHex (JNum (num n)) = String c1 (String c2 "")
    ∧ parseInt16 (String c1 (String c2 "")) = num n.
Proof.
  revert n. apply (below_256 _
    (fun n =>
       match toHex (JNum (num n)) with
       | String c1 (String c2 EmptyString) =>
           number_eqb (parseInt16 (String c1 (String c2 ""))) (num n)
       | _ => false
       end)).
  - intros n. destruct (toHex (JNum (num n))) as [|c1 [|c2 [|c3 r]]]; try discriminate.
    intros Heq%number_eqb_eq. exists c1, c2. split; [reflexivity|exact Heq].
  - vm_compute. reflexivity.
Qed.

(** [hexToRgb] undoes [rgbToHex] on components that are integers from
    0 to 255. *)
Theorem hexToRgb_rgbToHex (r g b : Z) (rest : list JsValue) :
  0 <= r < 256 -> 0 <= g < 256 -> 0 <= b < 256 ->
  hexToRgb (rgbToHex (JArr (JNum (num r) :: JNum (num g) :: JNum (num b) :: rest)))
  = [num r; num g; num b].
Proof.
  intros Hr Hg Hb.
  destruct (toHex_byte r Hr) as (r1 & r2 & Er & Pr).
  destruct (toHex_byte g Hg) as (g1 & g2 & Eg & Pg).
  destruct (toHex_byte b Hb) as (b1 & b2 & Eb & Pb).
  unfold rgbToHex. rewrite Er, Eg, Eb.
  unfold hexToRgb. simpl remove_first_hash. simpl String.length. simpl negb.
  cbv iota. unfold slice. simpl String.substring.
  rewrite Pr, Pg, Pb. reflexivity.
Qed.

Lemma lower_hex_digit (c : ascii) :
  is_lower_hex c = true -> ∃ d, 0 <= d < 16 ∧ c = hex_char d.
Proof.
  intros Hc.
  assert (Hall : forallb
            (fun n => negb (is_lower_hex (ascii_of_nat n))
                      || existsb (fun d => Ascii.eqb (ascii_of_nat n) (hex_char (Z.of_nat d)))
                           (seq 0 16))
            (seq 0 256) = true) by (vm_compute; reflexivity).
  rewrite forallb_forall in Hall.
  specialize (Hall (nat_of_ascii c) ltac:(apply in_seq; pose proof (nat_ascii_bounded c); lia)).
  rewrite ascii_nat_embedding, Hc in Hall. simpl negb in Hall.
  rewrite orb_false_l in Hall.
  apply existsb_exists in Hall as (d & Hd%in_seq & Heq%Ascii.eqb_eq).
  exists (Z.of_nat d). split; [lia|exact Heq].
Qed.

Lemma toHex_parseInt16_pair (c1 c2 : ascii) :
  is_lower_hex c1 = true -> is_lower_hex c2 = true ->
  toHex (JNum (parseInt16 (String c1 (String c2 "")))) = String c1 (String c2 "").
Proof.
  intros (d1 & Hd1 & ->)%lower_hex_digit (d2 & Hd2 & ->)%lower_hex_digit.
  assert (Hall : forallb
            (fun n =>
               let s := String (hex_char (Z.of_nat n / 16))
                          (String (hex_char (Z.of_nat n mod 16)) "") in
               String.eqb (toHex (JNum (parseInt16 s))) s)
            (seq 0 256) = true) by (vm_compute; reflexivity).
  rewrite forallb_forall in Hall.
  specialize (Hall (Z.to_nat (16 * d1 + d2)) ltac:(apply in_seq; lia)).
  rewrite Z2Nat.id in Hall by lia.
  replace ((16 * d1 + d2) / 16) with d1 in Hall
    by (apply (Z.div_unique _ _ _ d2); lia).
  replace ((16 * d1 + d2) mod 16) with d2 in Hall
    by (apply (Z.mod_unique _ _ d1); lia).
  apply String.eqb_eq in Hall. exact Hall.
Qed.

(** [rgbToHex] undoes [hexToRgb] on a [#] followed by six lowercase
    hexadecimal digits, the form a color input gives. *)
Theorem rgbToHex_hexToRgb (c1 c2 c3 c4 c5 c6 : ascii) :
  forallb is_lower_hex [c1; c2; c3; c4; c5; c6] = true ->
  let hex :=
    String "#" (String c1 (String c2 (String c3 (String c4 (String c5 (String c6 "")))))) in
  rgbToHex (JArr (JNum <$> hexToRgb hex)) = hex.
Proof.
  simpl forallb. rewrite !andb_true_iff.
  intros (H1 & H2 & H3 & H4 & H5 & H6 & _) hex.
  unfold hex, hexToRgb. simpl remove_first_hash. simpl String.length. simpl negb.
  cbv iota. unfold slice. simpl String.substring.
  unfold rgbToHex. simpl fmap. cbv iota.
  rewrite (toHex_parseInt16_pair c1 c2 H1 H2), (toHex_parseInt16_pair c3 c4 H3 H4),
    (toHex_parseInt16_pair c5 c6 H5 H6).
  reflexivity.
Qed.

End Colors.

Lemma hexToRgb_rgbToHex_witness :
  hexToRgb (rgbToHex (H := codeUnitHost)
              (JArr [JNum (num 255); JNum (num 128); JNum (num 0)]))
  = [num 255; num 128; num 0].
Proof. apply (hexToRgb_rgbToHex (H := codeUnitHost) 255 128 0 []); lia. Defined.

Lemma rgbToHex_hexToRgb_witness :
  rgbToHex (H := codeUnitHost) (JArr (JNum <$> hexToRgb "#1e90ff")) = "#1e90ff".
Proof.
  apply (rgbToHex_hexToRgb (H := codeUnitHost) "1" "e" "9" "0" "f" "f"). reflexivity.
Defined.

(** ** Hiding and showing entities *)

Lemma existsb_eqb_elem_of (x : string) (l : list string) :
  existsb (String.eqb x) l = true ↔ x ∈ l.
Proof.
  rewrite existsb_exists. split.
  - intros (y & Hin & ->%String.eqb_eq). apply list_elem_of_In, Hin.
  - intros Hin. exists x. split; [apply list_elem_of_In, Hin|apply String.eqb_refl].
Qed.

Lemma existsb_eqb_not_elem_of (x : string) (l : list string) :
  existsb (String.eqb x) l = false ↔ x ∉ l.
Proof.
  rewrite <- existsb_eqb_elem_of. destruct (existsb _ l); split; congruence.
Qed.

Lemma elem_of_toggleVisibility (entityId x : string) (prev : list string) :
  x ∈ toggleVisibility entityId prev
  ↔ (x ≠ entityId ∧ x ∈ prev) ∨ (x = entityId ∧ entityId ∉ prev).
Proof.
  unfold toggleVisibility.
  destruct (existsb (String.eqb entityId) prev) eqn:Hin.
  - apply existsb_eqb_elem_of in Hin.
    rewrite list_elem_of_In, List.filter_In, <- list_elem_of_In, negb_true_iff,
      String.eqb_neq.
    split; [intros [? ?]; left; tauto|].
    intros [[? ?]|[-> ?]]; tauto.
  - apply existsb_eqb_not_elem_of in Hin.
    rewrite elem_of_app, list_elem_of_singleton.
    destruct (decide (x = entityId)) as [->|Hne]; tauto.
Qed.

Lemma elem_of_visibleEntities (entities : list HaEntity) (hidden : list string)
    (e : HaEntity) :
  e ∈ visibleEntities entities hidden ↔ e ∈ entities ∧ entity_id e ∉ hidden.
Proof.
  unfold visibleEntities.
  rewrite list_elem_of_In, List.filter_In, <- list_elem_of_In, negb_true_iff,
    existsb_eqb_not_elem_of.
  reflexivity.
Qed.

Lemma visibleEntities_ext (entities : list HaEntity) (hidden hidden' : list string) :
  (∀ e, e ∈ entities -> (entity_id e ∈ hidden ↔ entity_id e ∈ hidden')) ->
  visibleEntities entities hidden = visibleEntities entities hidden'.
Proof.
  intros Hsame. unfold visibleEntities. apply List.filter_ext_in.
  intros e He%list_elem_of_In. f_equal.
  specialize (Hsame e He).
  destruct (existsb (String.eqb (entity_id e)) hidden) eqn:H1,
           (existsb (String.eqb (entity_id e)) hidden') eqn:H2; try reflexivity.
  - apply existsb_eqb_elem_of in H1. apply existsb_eqb_not_elem_of in H2. tauto.
  - apply existsb_eqb_not_elem_of in H1. apply existsb_eqb_elem_of in H2. tauto.
Qed.

(** Toggling an identifier flips the visibility of the entities with
    that identifier and of no other; toggling it twice gives the visible
    list back; hiding all leaves nothing visible and showing all leaves
    every entity visible. *)
Theorem toggleVisibility_flips (entities : list HaEntity) (hidden : list string)
    (entityId : string) :
  (∀ e, e ∈ visibleEntities entities (toggleVisibility entityId hidden)
        ↔ e ∈ entities
          ∧ (if decide (entity_id e = entityId) then entityId ∈ hidden
             else entity_id e ∉ hidden))
  ∧ visibleEntities entities (toggleVisibility entityId (toggleVisibility entityId hidden))
    = visibleEntities entities hidden
  ∧ visibleEntities entities (setBulkVisibility false entities) = []
  ∧ visibleEntities entities (setBulkVisibility true entities) = entities.
Proof.
  split; [|split; [|split]].
  - intros e. rewrite elem_of_visibleEntities, elem_of_toggleVisibility.
    destruct (decide (entity_id e = entityId)) as [->|Hne].
    + destruct (decide (entityId ∈ hidden)); tauto.
    + tauto.
  - apply visibleEntities_ext. intros e _.
    rewrite !elem_of_toggleVisibility.
    destruct (decide (entity_id e = entityId)) as [->|Hne];
      destruct (decide (entityId ∈ hidden)); tauto.
  - unfold visibleEntities, setBulkVisibility.
    assert (Hgen : ∀ l all, (∀ e, e ∈ l -> e ∈ all) ->
      List.filter
        (fun entity => negb (existsb (String.eqb (entity_id entity)) (map entity_id all)))
        l = []).
    { induction l as [|e l IH]; intros all Hall; simpl; [reflexivity|].
      assert (Hin : existsb (String.eqb (entity_id e)) (map entity_id all) = true).
      { apply existsb_eqb_elem_of, (list_elem_of_fmap_2 entity_id), Hall. left. }
      rewrite Hin. simpl. apply IH. intros e' He'. apply Hall. right. exact He'. }
    apply Hgen. auto.
  - unfold visibleEntities, setBulkVisibility. simpl.
    induction entities as [|e l IH]; simpl; [reflexivity|]. rewrite IH. reflexivity.
Qed.

(** ** Moving an entity in the order sequence *)

Lemma indexOf_from_first (before after : list string) (x : string) (i : Z) :
  x ∉ before ->
  indexOf_from (before ++ x :: after) x i = i + Z.of_nat (length before).
Proof.
  revert i. induction before as [|y before IH]; intros i Hnot; simpl.
  - rewrite String.eqb_refl. lia.
  - apply not_elem_of_cons in Hnot as [Hne Hnot].
    destruct (String.eqb_spec y x) as [->|_]; [congruence|].
    rewrite IH by assumption. lia.
Qed.

Lemma indexOf_from_absent (xs : list string) (x : string) (i : Z) :
  x ∉ xs -> indexOf_from xs x i = -1.
Proof.
  revert i. induction xs as [|y xs IH]; intros i Hnot; simpl; [reflexivity|].
  apply not_elem_of_cons in Hnot as [Hne Hnot].
  destruct (String.eqb_spec y x) as [->|_]; [congruence|]. apply IH, Hnot.
Qed.

Lemma swap_at (before after : list string) (a b : string) :
  let i := length before in
  <[S i := a]> (<[i := b]> (before ++ a :: b :: after)) = (before ++ b :: a :: after)%list.
Proof.
  induction before as [|y before IH]; simpl; [reflexivity|].
  f_equal. exact IH.
Qed.

Lemma swap_at' (before after : list string) (a b : string) :
  let i := length before in
  <[i := b]> (<[S i := a]> (before ++ a :: b :: after)) = (before ++ b :: a :: after)%list.
Proof.
  induction before as [|y before IH]; simpl; [reflexivity|].
  f_equal. exact IH.
Qed.

(** [Up] swaps the first occurrence of the identifier with the element
    before it, [Down] with the element after it, so that one undoes the
    other; an identifier that is absent, or already first (last), leaves
    the sequence as it is. *)
Theorem move_swaps_neighbours (entityId other : string) (before after : list string) :
  entityId ∉ before ->
  other ≠ entityId ->
  moveUp entityId (before ++ other :: entityId :: after)
    = (before ++ entityId :: other :: after)%list
  ∧ moveDown entityId (before ++ entityId :: other :: after)
    = (before ++ other :: entityId :: after)%list
  ∧ moveDown entityId (moveUp entityId (before ++ other :: entityId :: after))
    = (before ++ other :: entityId :: after)%list
  ∧ moveUp entityId (entityId :: after) = entityId :: after
  ∧ moveDown entityId (before ++ [entityId]) = (before ++ [entityId])%list
  ∧ (entityId ∉ after ->
     moveUp entityId (before ++ after) = (before ++ after)%list
     ∧ moveDown entityId (before ++ after) = (before ++ after)%list).
Proof.
  intros Hbefore Hother.
  assert (Hup : moveUp entityId (before ++ other :: entityId :: after)
                = before ++ entityId :: other :: after).
  { assert (Hidx : indexOf (before ++ other :: entityId :: after) entityId
                   = Z.of_nat (S (length before))).
    { unfold indexOf.
      replace (before ++ other :: entityId :: after)
        with ((before ++ [other]) ++ entityId :: after)
        by (rewrite <- app_assoc; reflexivity).
      rewrite indexOf_from_first
        by (rewrite elem_of_app, list_elem_of_singleton; intros [?|?]; congruence).
      rewrite length_app. simpl length. lia. }
    unfold moveUp. rewrite Hidx.
    destruct (Z.leb_spec (Z.of_nat (S (length before))) 0) as [Hle|_]; [lia|].
    rewrite Nat2Z.id.
    replace (S (length before) - 1)%nat with (length before) by lia.
    assert (H1 : (before ++ other :: entityId :: after) !! length before = Some other)
      by (apply list_lookup_middle; reflexivity).
    assert (H2 : (before ++ other :: entityId :: after) !! S (length before)
                 = Some entityId).
    { rewrite lookup_app_r by lia.
      replace (S (length before) - length before)%nat with 1%nat by lia. reflexivity. }
    rewrite H1, H2. apply swap_at. }
  assert (Hdown : moveDown entityId (before ++ entityId :: other :: after)
                  = before ++ other :: entityId :: after).
  { assert (Hidx : indexOf (before ++ entityId :: other :: after) entityId
                   = Z.of_nat (length before)).
    { unfold indexOf. rewrite indexOf_from_first by assumption. lia. }
    unfold moveDown. rewrite Hidx, length_app. simpl length.
    destruct (Z.eqb_spec (Z.of_nat (length before)) (-1)) as [Heq|_]; [lia|].
    destruct (Z.leb_spec (Z.of_nat (length before + S (S (length after))) - 1)
                (Z.of_nat (length before))) as [Hle|_]; [lia|].
    simpl orb. cbv iota. rewrite Nat2Z.id.
    replace (length before + 1)%nat with (S (length before)) by lia.
    assert (H1 : (before ++ entityId :: other :: after) !! length before = Some entityId)
      by (apply list_lookup_middle; reflexivity).
    assert (H2 : (before ++ entityId :: other :: after) !! S (length before)
                 = Some other).
    { rewrite lookup_app_r by lia.
      replace (S (length before) - length before)%nat with 1%nat by lia. reflexivity. }
    rewrite H1, H2. apply swap_at'. }
  split; [exact Hup|]. split; [exact Hdown|].
  split; [rewrite Hup; exact Hdown|].
  split; [|split].
  - unfold moveUp, indexOf. simpl. rewrite String.eqb_refl. reflexivity.
  - unfold moveDown, indexOf. rewrite indexOf_from_first by assumption.
    rewrite length_app. simpl length.
    destruct (Z.leb_spec (Z.of_nat (length before + 1) - 1)
                (0 + Z.of_nat (length before))) as [_|Hlt]; [|lia].
    rewrite orb_true_r. reflexivity.
  - intros Hafter.
    assert (Habsent : entityId ∉ (before ++ after)%list)
      by (rewrite elem_of_app; tauto).
    unfold moveUp, moveDown, indexOf.
    rewrite (indexOf_from_absent _ _ 0 Habsent). split; reflexivity.
Qed.

Lemma move_swaps_neighbours_witness :
  moveUp "light.c" ["light.a"; "light.b"; "light.c"; "light.d"]
  = ["light.a"; "light.c"; "light.b"; "light.d"].
Proof.
  apply (move_swaps_neighbours "light.c" "light.b" ["light.a"] ["light.d"]).
  - rewrite list_elem_of_singleton. discriminate.
  - discriminate.
Defined.

(** ** Display names *)

Lemma read_property_absent {V : Type} (o : gmap string V) (k : string) :
  k ∉ Object_prototype_names -> o !! k = None -> read_property o k = Absent.
Proof.
  intros Hk Ho. unfold read_property. rewrite Ho.
  apply existsb_eqb_not_elem_of in Hk. rewrite Hk. reflexivity.
Qed.

(** An override is shown as it is, the empty one included, and only
    for its identifier; clearing it brings back the friendly name of the
    entity, or its identifier when the entity has none. *)
Theorem name_override_round_trip (names : gmap string string) (entity : HaEntity)
    (value : string) :
  getDisplayName (updateNameOverride (entity_id entity) value names) entity
    = Some (JStr value)
  ∧ (∀ other, entity_id other ≠ entity_id entity ->
       getDisplayName (updateNameOverride (entity_id entity) value names) other
       = getDisplayName names other)
  ∧ (names !! entity_id entity = None ->
     clearNameOverride (entity_id entity)
       (updateNameOverride (entity_id entity) value names) = names)
  ∧ (entity_id entity ∉ Object_prototype_names ->
     getDisplayName
       (clearNameOverride (entity_id entity)
          (updateNameOverride (entity_id entity) value names)) entity
     = Some match opt_get (attributes entity) "friendly_name" with
            | JUndefined | JNull => JStr (entity_id entity)
            | name => name
            end).
Proof.
  unfold updateNameOverride, clearNameOverride, getDisplayName.
  split; [|split; [|split]].
  - unfold read_property. rewrite lookup_insert_eq. reflexivity.
  - intros other Hne. unfold read_property. rewrite lookup_insert_ne by congruence.
    reflexivity.
  - intros Hnone. rewrite delete_insert_eq. apply delete_id, Hnone.
  - intros Hproto. rewrite read_property_absent; [reflexivity|exact Hproto|].
    apply lookup_delete_eq.
Qed.

Lemma name_override_round_trip_witness :
  let lamp :=
    {| entity_id := "light.desk"; state := "on";
       attributes := JObj [("friendly_name", JStr "Desk lamp")] |} in
  getDisplayName (clearNameOverride "light.desk" (updateNameOverride "light.desk" "" ∅)) lamp
  = Some (JStr "Desk lamp").
Proof.
  intros lamp.
  apply (name_override_round_trip ∅ lamp "").
  apply existsb_eqb_not_elem_of. reflexivity.
Defined.

(** ** Categories *)

Lemma unique_from_spec (seen xs : list string) :
  NoDup (unique_from seen xs)
  ∧ ∀ x, x ∈ unique_from seen xs ↔ x ∈ xs ∧ x ∉ seen.
Proof.
  revert seen. induction xs as [|y xs IH]; intros seen; simpl.
  - split; [constructor|]. intros x. rewrite elem_of_nil. tauto.
  - destruct (existsb (String.eqb y) seen) eqn:Hy.
    + apply existsb_eqb_elem_of in Hy. destruct (IH seen) as [Hnd Hin].
      split; [exact Hnd|]. intros x. rewrite Hin, elem_of_cons.
      split; [tauto|]. intros [[->|?] ?]; tauto.
    + apply existsb_eqb_not_elem_of in Hy. destruct (IH (y :: seen)) as [Hnd Hin].
      split.
      * constructor; [|exact Hnd]. rewrite Hin, elem_of_cons. tauto.
      * intros x. rewrite elem_of_cons, Hin, !elem_of_cons.
        destruct (decide (x = y)) as [->|Hne]; tauto.
Qed.

Lemma elem_of_categoryList (fromMap customCategories : list string) (c : string) :
  c ∈ categoryList fromMap customCategories
  ↔ c ∈ defaultCategories ∨ c ∈ customCategories ∨ c ∈ fromMap.
Proof.
  unfold categoryList, Array_from_Set.
  rewrite elem_of_app.
  destruct (unique_from_spec [] (List.filter
    (fun name => negb (existsb (String.eqb name) defaultCategories))
    (customCategories ++ fromMap))) as [_ Hin].
  rewrite Hin, elem_of_List_filter, elem_of_app,
    negb_true_iff, existsb_eqb_not_elem_of, elem_of_nil.
  destruct (decide (c ∈ defaultCategories)); tauto.
Qed.

Lemma categoryList_NoDup (fromMap customCategories : list string) :
  NoDup (categoryList fromMap customCategories).
Proof.
  unfold categoryList, Array_from_Set.
  set (rest := List.filter _ _).
  destruct (unique_from_spec [] rest) as [Hnd Hin].
  apply NoDup_app. split; [|split; [|exact Hnd]].
  - unfold defaultCategories. apply NoDup_ListNoDup.
    repeat (constructor; [simpl; intuition discriminate|]). constructor.
  - intros c Hdefault. rewrite Hin. unfold rest.
    rewrite elem_of_List_filter, negb_true_iff, existsb_eqb_not_elem_of.
    tauto.
Qed.

Lemma getCategory_listed (categoryMap : gmap string string)
    (fromMap customCategories : list string) (entity : HaEntity) :
  (∀ id category, categoryMap !! id = Some category -> category ∈ fromMap) ->
  entity_id entity ∉ Object_prototype_names ->
  ∃ category,
    getCategory categoryMap entity = Some category
    ∧ category ∈ categoryList fromMap customCategories.
Proof.
  intros Hvalues Hproto.
  unfold getCategory, read_property.
  destruct (categoryMap !! entity_id entity) as [category|] eqn:Hc.
  - exists category. split; [reflexivity|].
    apply elem_of_categoryList. right; right. eapply Hvalues, Hc.
  - apply existsb_eqb_not_elem_of in Hproto. rewrite Hproto.
    eexists. split; [reflexivity|].
    apply elem_of_categoryList. left.
    unfold getDefaultCategory, defaultCategories.
    repeat case_match; rewrite !elem_of_cons; tauto.
Qed.

(** The list of categories has no duplicate, begins with the four
    default categories and holds exactly the default, the custom and the
    assigned ones; the category of an entity whose identifier is not a
    member of [Object.prototype] is one of them. *)
Theorem categoryList_covers (categoryMap : gmap string string)
    (fromMap customCategories : list string) (entity : HaEntity) :
  (∀ id category, categoryMap !! id = Some category -> category ∈ fromMap) ->
  entity_id entity ∉ Object_prototype_names ->
  NoDup (categoryList fromMap customCategories)
  ∧ take 4 (categoryList fromMap customCategories) = defaultCategories
  ∧ (∀ c, c ∈ categoryList fromMap customCategories
          ↔ c ∈ defaultCategories ∨ c ∈ customCategories ∨ c ∈ fromMap)
  ∧ ∃ category,
      getCategory categoryMap entity = Some category
      ∧ category ∈ categoryList fromMap customCategories.
Proof.
  intros Hvalues Hproto.
  split; [|split; [reflexivity|split; [apply elem_of_categoryList|]]].
  - apply categoryList_NoDup.
  - apply getCategory_listed; assumption.
Qed.

Lemma categoryList_covers_witness :
  let fan := {| entity_id := "switch.fan"; state := "off"; attributes := JObj [] |} in
  NoDup (categoryList ["Studio"] ["Studio"; "Lights"; "Stage"])
  ∧ ∃ category,
      getCategory {[ "switch.fan" := "Studio" ]} fan = Some category
      ∧ category ∈ categoryList ["Studio"] ["Studio"; "Lights"; "Stage"].
Proof.
  intros fan.
  destruct (categoryList_covers {[ "switch.fan" := "Studio" ]} ["Studio"]
              ["Studio"; "Lights"; "Stage"] fan) as (Hnd & _ & _ & Hcat).
  - intros id category [<- <-]%lookup_singleton_Some. left.
  - apply existsb_eqb_not_elem_of. reflexivity.
  - split; assumption.
Defined.

(** ** The sections of the main panel *)

Lemma concat_nonempty {A : Type} (l : list (string * list A)) :
  concat (map snd (List.filter (fun section => negb (length section.2 =? 0)%nat) l))
  = concat (map snd l).
Proof.
  induction l as [|[k [|x xs]] l IH]; simpl; [reflexivity|exact IH|].
  rewrite IH. reflexivity.
Qed.

Lemma sections_concat (categories : list string) (categoryMap : gmap string string)
    (ordered : list HaEntity) :
  concat (map snd (mainPanelSections categories categoryMap ordered))
  = concat
      (map
         (fun category =>
            List.filter
              (fun entity =>
                 match getCategory categoryMap entity with
                 | Some c => String.eqb c category
                 | None => false
                 end)
              ordered)
         categories).
Proof.
  unfold mainPanelSections. rewrite concat_nonempty, map_map. reflexivity.
Qed.

(** Every entity of the ordered list whose category is in the list of
    categories is rendered in exactly one section, when the list has no
    duplicate: the sections together are a rearrangement of the ordered
    list. *)
Lemma sections_partition (categories : list string)
    (categoryMap : gmap string string) (ordered : list HaEntity) :
  NoDup categories ->
  Forall
    (fun entity => ∃ c, getCategory categoryMap entity = Some c ∧ c ∈ categories)
    ordered ->
  concat (map snd (mainPanelSections categories categoryMap ordered)) ≡ₚ ordered.
Proof.
  intros Hnd Hall. rewrite sections_concat.
  set (in_category category entity :=
         match getCategory categoryMap entity with
         | Some c => String.eqb c category
         | None => false
         end).
  change (concat (map (fun category => List.filter (in_category category) ordered)
                    categories) ≡ₚ ordered).
  assert (Hnone : ∀ cats l, (∀ e, e ∈ l -> ∀ c, c ∈ cats -> in_category c e = false) ->
            concat (map (fun category => List.filter (in_category category) l) cats) = []).
  { induction cats as [|c cats IH]; intros l Hl; simpl; [reflexivity|].
    rewrite IH by (intros e He c' Hc'; apply Hl; [exact He|right; exact Hc']).
    rewrite app_nil_r.
    induction l as [|e l IHl]; simpl; [reflexivity|].
    rewrite (Hl e) by left. apply IHl. intros e' He'. apply Hl. right. exact He'. }
  induction Hall as [|e l (c & Hc & Hin) _ IH].
  - rewrite Hnone; [reflexivity|]. intros e He. apply elem_of_nil in He as [].
  - etransitivity; [|apply Permutation_cons; [reflexivity|exact IH]].
    clear IH Hnone.
    induction Hnd as [|k cats Hk Hnd IHcats]; [apply elem_of_nil in Hin as []|].
    simpl. unfold in_category at 1. rewrite Hc.
    destruct (String.eqb_spec c k) as [->|Hne].
    + simpl. constructor. apply Permutation_app_head.
      assert (Hsame : ∀ cats', k ∉ cats' ->
        map (fun category => List.filter (in_category category) (e :: l)) cats'
        = map (fun category => List.filter (in_category category) l) cats').
      { intros cats' Hk'. apply map_ext_in. intros c' Hc'%list_elem_of_In. simpl.
        unfold in_category at 1. rewrite Hc.
        destruct (String.eqb_spec k c') as [->|_]; [tauto|reflexivity]. }
      rewrite Hsame by exact Hk. reflexivity.
    + apply elem_of_cons in Hin as [->|Hin]; [congruence|].
      rewrite (IHcats Hin). symmetry. apply Permutation_middle.
Qed.

(** The main panel as the component builds it: with the list of
    categories of the component, every entity of the ordered visible list
    is rendered in exactly one section, as long as no identifier is a
    member of [Object.prototype]. *)
Theorem main_panel_shows_each_entity_once (categoryMap : gmap string string)
    (fromMap customCategories : list string) (ordered : list HaEntity) :
  (∀ id category, categoryMap !! id = Some category -> category ∈ fromMap) ->
  Forall (fun entity => entity_id entity ∉ Object_prototype_names) ordered ->
  concat
    (map snd
       (mainPanelSections (categoryList fromMap customCategories) categoryMap ordered))
  ≡ₚ ordered.
Proof.
  intros Hvalues Hproto. apply sections_partition.
  - apply categoryList_NoDup.
  - eapply Forall_impl; [exact Hproto|]. intros e He.
    apply getCategory_listed; assumption.
Qed.

Lemma main_panel_shows_each_entity_once_witness :
  let lamp := {| entity_id := "light.desk"; state := "on"; attributes := JObj [] |} in
  let fan := {| entity_id := "switch.fan"; state := "off"; attributes := JObj [] |} in
  concat
    (map snd
       (mainPanelSections (categoryList ["Studio"] ["Stage"])
          {[ "switch.fan" := "Studio" ]} [fan; lamp]))
  ≡ₚ [fan; lamp].
Proof.
  intros lamp fan. apply main_panel_shows_each_entity_once.
  - intros id category [<- <-]%lookup_singleton_Some. left.
  - repeat constructor; apply existsb_eqb_not_elem_of; reflexivity.
Defined.

(** ** Sorting and hiding *)

Section OrderedLists.
Context `{Host}.
Hypothesis collation_total :
  ∀ a b, localeCompare a b <= 0 ∨ localeCompare b a <= 0.
Hypothesis collation_trans :
  ∀ a b c, localeCompare a b <= 0 -> localeCompare b c <= 0 -> localeCompare a c <= 0.

(** Hiding commutes with sorting: the ordered visible list is the
    ordered list of all entities without the hidden ones, in the same
    order. *)
Theorem orderedVisibleEntities_is_filtered (entities : list HaEntity)
    (hiddenEntities entityOrder : list string) :
  orderedVisibleEntities entities hiddenEntities entityOrder
  = visibleEntities (orderedEntities entities entityOrder) hiddenEntities.
Proof.
  unfold orderedVisibleEntities, orderedEntities, visibleEntities.
  symmetry. apply filter_Array_sort.
  - intros a b. apply compareIds_total; assumption.
  - intros a b c. apply compareIds_trans; assumption.
Qed.

Lemma orderIndex_NoDup (l : list string) (i : nat) (id : string) :
  NoDup l -> l !! i = Some id -> orderIndex l !! id = Some i.
Proof.
  intros Hnd Hi.
  destruct (orderIndex l !! id) as [j|] eqn:Hj.
  - apply orderIndex_lookup in Hj. f_equal. eapply NoDup_lookup; eassumption.
  - apply orderIndex_None in Hj. exfalso. apply Hj. eapply list_elem_of_lookup_2, Hi.
Qed.

Lemma order_sorted_by_index (l : list string) :
  NoDup l ->
  StronglySorted (fun a b => compareIds (orderIndex l) a b <= 0) l.
Proof.
  intros Hnd.
  assert (Hgen : ∀ rest k, (∀ i id, rest !! i = Some id -> l !! (k + i)%nat = Some id) ->
            StronglySorted (fun a b => compareIds (orderIndex l) a b <= 0) rest).
  { induction rest as [|a rest IH]; intros k Hk; constructor.
    - apply (IH (S k)). intros i id Hi. replace (S k + i)%nat with (k + S i)%nat by lia.
      apply Hk. exact Hi.
    - apply Forall_forall. intros b [i Hi]%list_elem_of_lookup_1.
      unfold compareIds.
      rewrite (orderIndex_NoDup l (k + 0) a Hnd (Hk 0%nat a eq_refl)).
      rewrite (orderIndex_NoDup l (k + S i) b Hnd (Hk (S i) b Hi)). lia. }
  apply (Hgen l 0%nat). intros i id Hi. exact Hi.
Qed.

Lemma StronglySorted_filter {B : Type} (R : relation B) (P : B -> Prop)
    `{∀ x, Decision (P x)} (l : list B) :
  StronglySorted R l -> StronglySorted R (filter P l).
Proof.
  induction 1 as [|x l Hl IH Hx]; [constructor|].
  rewrite filter_cons. destruct (decide (P x)); [|exact IH].
  constructor; [exact IH|]. apply Forall_forall. intros y [_ Hy]%list_elem_of_filter.
  rewrite Forall_forall in Hx. apply Hx, Hy.
Qed.

(** Once the append step has run, the ordered list follows the order
    sequence: its identifiers are those of the sequence that the snapshot
    holds, in the order of the sequence, when neither repeats an
    identifier. The collation is then never consulted. *)
Theorem ordered_list_follows_order_sequence (entities : list HaEntity)
    (prev : list string) :
  NoDup prev ->
  NoDup (entity_id <$> entities) ->
  let order := appendNewEntities entities prev in
  (entity_id <$> orderedEntities entities order)
  = filter (fun id => id ∈ (entity_id <$> entities)) order.
Proof.
  intros Hprev Hids order.
  assert (Horder : order = prev ++ filter (fun id => id ∉ prev) (entity_id <$> entities))
    by apply appendNewEntities_eq.
  assert (Hnd : NoDup order).
  { rewrite Horder. apply NoDup_app. split; [exact Hprev|]. split.
    - intros id Hin [Hnot _]%list_elem_of_filter. tauto.
    - apply NoDup_filter, Hids. }
  assert (Hcover : ∀ id, id ∈ (entity_id <$> entities) -> id ∈ order).
  { intros id Hid. rewrite Horder, elem_of_app, list_elem_of_filter.
    destruct (decide (id ∈ prev)); tauto. }
  apply (StronglySorted_unique_strong
           (fun a b => compareIds (orderIndex order) a b <= 0)).
  - intros a b Ha Hb Hab Hba.
    apply list_elem_of_filter in Hb as [_ Hb].
    assert (Ha' : a ∈ order).
    { apply Hcover. unfold orderedEntities in Ha.
      rewrite Array_sort_Permutation in Ha. exact Ha. }
    unfold compareIds in Hab, Hba.
    destruct (orderIndex order !! a) as [i|] eqn:Hi;
      [|apply orderIndex_None in Hi; tauto].
    destruct (orderIndex order !! b) as [j|] eqn:Hj;
      [|apply orderIndex_None in Hj; tauto].
    assert (i = j) as -> by lia.
    apply orderIndex_lookup in Hi, Hj. congruence.
  - apply sorted_by_order; assumption.
  - apply StronglySorted_filter, order_sorted_by_index, Hnd.
  - apply NoDup_Permutation.
    + unfold orderedEntities. rewrite Array_sort_Permutation. exact Hids.
    + apply NoDup_filter, Hnd.
    + intros id. unfold orderedEntities. rewrite Array_sort_Permutation.
      rewrite list_elem_of_filter. split; [|tauto].
      intros Hid. split; [exact Hid|apply Hcover, Hid].
Qed.

End OrderedLists.

Lemma orderedVisibleEntities_is_filtered_witness :
  let device id := {| entity_id := id; state := "on"; attributes := JObj [] |} in
  orderedVisibleEntities (H := codeUnitHost)
    [device "light.b"; device "switch.z"; device "light.a"] ["light.b"] ["switch.z"]
  = [device "switch.z"; device "light.a"].
Proof.
  intros device.
  rewrite (orderedVisibleEntities_is_filtered (H := codeUnitHost)
             codeUnit_collation_total codeUnit_collation_trans).
  reflexivity.
Defined.

Lemma ordered_list_follows_order_sequence_witness :
  let device id := {| entity_id := id; state := "on"; attributes := JObj [] |} in
  (entity_id <$>
     orderedEntities (H := codeUnitHost)
       [device "light.b"; device "switch.z"; device "light.a"]
       (appendNewEntities [device "light.b"; device "switch.z"; device "light.a"]
          ["switch.z"; "cover.gone"]))
  = ["switch.z"; "light.b"; "light.a"].
Proof.
  intros device.
  rewrite (ordered_list_follows_order_sequence (H := codeUnitHost)
             codeUnit_collation_total codeUnit_collation_trans).
  - reflexivity.
  - compute_done.
  - compute_done.
Defined.

(** ** More on the append step *)

(** The append step leaves every identifier of the snapshot in the
    sequence, appends nothing when run again on the same snapshot, and
    keeps the sequence free of duplicates when the snapshot has none. *)
Theorem appendNewEntities_covers (entities : list HaEntity) (prev : list string) :
  (∀ e, e ∈ entities -> entity_id e ∈ appendNewEntities entities prev)
  ∧ appendNewEntities entities (appendNewEntities entities prev)
    = appendNewEntities entities prev
  ∧ (NoDup prev -> NoDup (entity_id <$> entities) ->
     NoDup (appendNewEntities entities prev)).
Proof.
  rewrite !appendNewEntities_eq.
  assert (Hcover : ∀ id, id ∈ (entity_id <$> entities) ->
            id ∈ prev ++ filter (fun id => id ∉ prev) (entity_id <$> entities)).
  { intros id Hid. rewrite elem_of_app, list_elem_of_filter.
    destruct (decide (id ∈ prev)); tauto. }
  split; [|split].
  - intros e He. apply Hcover, list_elem_of_fmap_2, He.
  - destruct (filter _ (entity_id <$> entities)) as [|id rest] eqn:Hnew at 2;
      [apply app_nil_r|].
    exfalso.
    assert (Hid : id ∈ id :: rest) by left.
    rewrite <- Hnew in Hid. apply list_elem_of_filter in Hid as [Hnot Hid].
    apply Hnot, Hcover, Hid.
  - intros Hprev Hids. apply NoDup_app. split; [exact Hprev|]. split.
    + intros id Hin [Hnot _]%list_elem_of_filter. tauto.
    + apply NoDup_filter, Hids.
Qed.

Lemma appendNewEntities_covers_witness :
  NoDup
    (appendNewEntities
       [ {| entity_id := "light.a"; state := "on"; attributes := JObj [] |};
         {| entity_id := "switch.b"; state := "on"; attributes := JObj [] |} ]
       ["switch.b"]).
Proof.
  apply appendNewEntities_covers; compute_done.
Defined.

(** ** Edits of the controls and polling *)

Section Edits.
Context `{Host}.

Lemma polls_keep_entry (snapshots : list (list HaEntity))
    (controls : gmap string LightControlState) (id : string)
    (control : LightControlState) :
  controls !! id = Some control ->
  foldl (fun controls snapshot => bootstrapLightControls snapshot controls)
    controls snapshots !! id = Some control.
Proof.
  revert controls. induction snapshots as [|snapshot rest IH]; intros controls Hc;
    simpl; [exact Hc|].
  apply IH. exact (ensure_keeps seedLightControl _ controls id control Hc).
Qed.

(** An edit of one control of a light changes that control only, and
    no later poll takes it back: after any run of snapshots the entry is
    still the edited one. *)
Theorem edits_survive_polling (snapshots : list (list HaEntity))
    (prev : gmap string LightControlState) (id value : string)
    (control : LightControlState) :
  prev !! id = Some control ->
  let polled controls :=
    foldl (fun controls snapshot => bootstrapLightControls snapshot controls)
      controls snapshots in
  polled (changeBrightness id value prev) !! id
    = Some {| brightness := StringToNumber value; color := color control;
              colorTemp := colorTemp control |}
  ∧ polled (changeColor id value prev) !! id
    = Some {| brightness := brightness control; color := value;
              colorTemp := colorTemp control |}
  ∧ polled (changeColorTemp id value prev) !! id
    = Some {| brightness := brightness control; color := color control;
              colorTemp := StringToNumber value |}.
Proof.
  intros Hc polled. unfold polled, changeBrightness, changeColor, changeColorTemp.
  rewrite Hc. simpl.
  repeat split; apply polls_keep_entry, lookup_insert_eq.
Qed.

End Edits.

Lemma edits_survive_polling_witness :
  let lamp :=
    {| entity_id := "light.desk"; state := "on";
       attributes := JObj [("brightness", JNum (num 40))] |} in
  let seeded := {| brightness := num 40; color := "#ffffff"; colorTemp := num 300 |} in
  foldl (fun controls snapshot => bootstrapLightControls (H := codeUnitHost) snapshot controls)
    (changeBrightness "light.desk" "200" {[ "light.desk" := seeded ]})
    [[lamp]; []; [lamp]] !! "light.desk"
  = Some {| brightness := StringToNumber "200"; color := "#ffffff"; colorTemp := num 300 |}.
Proof.
  intros lamp seeded.
  exact (proj1 (edits_survive_polling (H := codeUnitHost) [[lamp]; []; [lamp]]
                  {[ "light.desk" := seeded ]} "light.desk" "200" seeded
                  (lookup_singleton_eq _ _))).
Defined.

(** ** The entity filter *)

Lemma filteredEntities_fold (source : list HaEntity) (query : string)
    (names : gmap string string) :
  let keep entity rest :=
    match getDisplayName names entity, rest with
    | Some (JStr name), Some kept =>
        if String_includes (toLowerCase name) query
           || String_includes (toLowerCase (entity_id entity)) query
        then Some (entity :: kept) else Some kept
    | _, _ => None
    end in
  (Forall (fun e => ∃ name, getDisplayName names e = Some (JStr name)) source ->
   ∃ kept, foldr keep (Some []) source = Some kept
     ∧ ∀ e, e ∈ source ->
         String_includes (toLowerCase (entity_id e)) query = true -> e ∈ kept)
  ∧ (∀ e, e ∈ source -> (∀ name, getDisplayName names e ≠ Some (JStr name)) ->
     foldr keep (Some []) source = None).
Proof.
  intros keep. split.
  - induction 1 as [|e l [name Hname] _ (kept & Hkept & Hin)]; simpl.
    + exists []. split; [reflexivity|]. intros e He. apply elem_of_nil in He as [].
    + rewrite Hkept. unfold keep at 1. rewrite Hname.
      destruct (String_includes (toLowerCase name) query
                || String_includes (toLowerCase (entity_id e)) query) eqn:Hq.
      * eexists. split; [reflexivity|].
        intros e' [->|He']%elem_of_cons Hid; [left|right; auto].
      * exists kept. split; [reflexivity|].
        intros e' [->|He']%elem_of_cons Hid; [|auto].
        apply orb_false_elim in Hq as [_ Hq]. congruence.
  - induction source as [|e' l IH]; intros e He Hbad; [apply elem_of_nil in He as []|].
    simpl. apply elem_of_cons in He as [->|He].
    + unfold keep at 1.
      destruct (getDisplayName names e') as [[| | | |name| |]|] eqn:Hn; try reflexivity.
      exfalso. exact (Hbad name eq_refl).
    + rewrite (IH e He Hbad). unfold keep.
      destruct (getDisplayName names e') as [[| | | |name| |]|]; reflexivity.
Qed.

(** A blank filter lists every entity. With another filter, an entity
    whose display name is not a string (a [friendly_name] that is a
    number, say) makes the computation throw; when every display name is
    a string it does not, and every entity whose identifier contains the
    filter, case ignored, is listed. *)
Theorem filteredEntities_outcomes (source : list HaEntity) (entityFilter : string)
    (names : gmap string string) :
  (trim entityFilter = "" -> filteredEntities source entityFilter names = Some source)
  ∧ (trim entityFilter ≠ "" ->
     (∀ e, e ∈ source -> (∀ name, getDisplayName names e ≠ Some (JStr name)) ->
        filteredEntities source entityFilter names = None)
     ∧ (Forall (fun e => ∃ name, getDisplayName names e = Some (JStr name)) source ->
        ∃ kept, filteredEntities source entityFilter names = Some kept
          ∧ ∀ e, e ∈ source ->
              String_includes (toLowerCase (entity_id e)) (toLowerCase entityFilter) = true ->
              e ∈ kept)).
Proof.
  unfold filteredEntities, truthy. split.
  - intros ->. reflexivity.
  - intros Hq%String.eqb_neq. rewrite Hq. simpl negb. cbv iota.
    destruct (filteredEntities_fold source (toLowerCase entityFilter) names) as [Hok Hbad].
    split; [exact Hbad|exact Hok].
Qed.

Lemma filteredEntities_outcomes_witness :
  let odd :=
    {| entity_id := "sensor.odd"; state := "1";
       attributes := JObj [("friendly_name", JNum (num 42))] |} in
  filteredEntities [odd] "desk" ∅ = None.
Proof.
  intros odd.
  destruct (filteredEntities_outcomes [odd] "desk" ∅) as [_ Hfilter].
  destruct (Hfilter ltac:(discriminate)) as [Hbad _].
  apply (Hbad odd); [left|]. intros name. discriminate.
Defined.

(** ** Requests *)

Lemma spread_no_patch (d : Customization) : spread d no_patch = d.
Proof. destruct d. reflexivity. Qed.

Lemma settle_fulfils {A : Type} (reply : FetchOutcome A) :
  fulfils reply = true -> ∃ value, settle reply = Fulfilled value.
Proof.
  destruct reply as [message|r]; simpl; [discriminate|].
  destruct (ok r); simpl; [|discriminate].
  destruct (json r) as [value|message]; [|discriminate]. eauto.
Qed.

Lemma settle_not_fulfils {A : Type} (reply : FetchOutcome A) :
  fulfils reply = false -> ∃ message, settle reply = Rejected message.
Proof.
  destruct reply as [message|r]; simpl; [eauto|].
  destruct (ok r); simpl; [|eauto].
  destruct (json r) as [value|message]; [discriminate|eauto].
Qed.

Lemma apiFetch_eq {A : Type} (envProxy : bool) (s : AppState) (path : string)
    (options : RequestInit) (reply : FetchOutcome A) :
  apiFetch envProxy s path options reply
  = (if connectionReady envProxy s
     then ([request_of envProxy s path options], settle reply)
     else ([], Rejected "Enter Home Assistant URL and token.")).
Proof.
  unfold apiFetch, connectionReady, request_of, settle.
  destruct (truthy (token (doc s))), envProxy, (truthy (haUrl (doc s)));
    simpl; try reflexivity; destruct reply as [message|r]; try reflexivity;
    destruct (ok r); reflexivity.
Qed.

(** [apiFetch] tests the credentials with a condition of its own, which
    is the negation of [connectionReady]: without connection it sends
    nothing and is rejected with the message that asks for URL and token;
    with it, it sends exactly one request, whatever is answered. A reply
    outside 200-299 never fulfils it, and is rejected with the body of
    the response or, for an empty body, with the status. *)
Theorem apiFetch_outcome {A : Type} (envProxy : bool) (s : AppState) (path : string)
    (options : RequestInit) (reply : FetchOutcome A) :
  apiFetch envProxy s path options reply
  = (if connectionReady envProxy s
     then ([request_of envProxy s path options], settle reply)
     else ([], Rejected "Enter Home Assistant URL and token."))
  ∧ (∀ response, reply = Responded response -> ok response = false ->
       settle reply
       = Rejected (if String.eqb (text response) "" 
                   then ("Request failed (" ++ pretty (status response) ++ ")")%string
                   else text response)).
Proof.
  split.
  - apply apiFetch_eq.
  - intros response -> Hok. simpl. rewrite Hok. unfold truthy.
    destruct (String.eqb (text response) ""); reflexivity.
Qed.

Lemma rev_app_app (s t acc : string) :
  String.rev_app (s ++ t)%string acc = String.rev_app t (String.rev_app s acc).
Proof. revert acc. induction s as [|c s IH]; intros acc; simpl; [reflexivity|apply IH]. Qed.

Lemma rev_app_rev_app (s a b : string) :
  String.rev_app (String.rev_app s a) b = String.rev_app a (s ++ b)%string.
Proof.
  revert a b. induction s as [|c s IH]; intros a b; simpl; [reflexivity|].
  rewrite IH. reflexivity.
Qed.

Lemma string_app_nil_r (s : string) : (s ++ "")%string = s.
Proof.
  induction s as [|c s IH]; [reflexivity|].
  change (String c (s ++ "")%string = String c s). f_equal. exact IH.
Qed.

Lemma string_app_assoc (s t u : string) :
  (s ++ (t ++ u))%string = ((s ++ t) ++ u)%string.
Proof.
  induction s as [|c s IH]; [reflexivity|].
  change (String c (s ++ (t ++ u))%string = String c ((s ++ t) ++ u)%string).
  f_equal. exact IH.
Qed.

Lemma rev_rev (s : string) : String.rev (String.rev s) = s.
Proof.
  unfold String.rev. rewrite rev_app_rev_app. simpl. apply string_app_nil_r.
Qed.

Lemma rev_app_acc (s acc : string) :
  String.rev_app s acc = (String.rev s ++ acc)%string.
Proof.
  unfold String.rev. revert acc. induction s as [|c s IH]; intros acc; simpl; [reflexivity|].
  rewrite (IH (String c acc)), (IH (String c "")).
  rewrite <- string_app_assoc. reflexivity.
Qed.

Lemma strip_final_slash_spec (u : string) :
  strip_final_slash (u ++ "/")%string = u
  ∧ ((∀ v, u ≠ (v ++ "/")%string) -> strip_final_slash u = u).
Proof.
  unfold strip_final_slash. split.
  - unfold String.rev at 1. rewrite rev_app_app. simpl. apply rev_rev.
  - intros Hend. destruct (String.rev u) as [|c r] eqn:Hrev; [reflexivity|].
    destruct c as [[] [] [] [] [] [] [] []]; try reflexivity.
    exfalso. apply (Hend (String.rev r)).
    rewrite <- (rev_rev u), Hrev. unfold String.rev at 1. simpl.
    apply rev_app_acc.
Qed.

(** A single final slash of the URL is dropped before the path is
    appended, so that the URL with it and the URL without it lead to the
    same requests; a second slash stays. *)
Theorem final_slash_is_ignored {A : Type} (s : AppState) (u path : string)
    (options : RequestInit) (reply : FetchOutcome A) :
  u ≠ "" ->
  (∀ v, u ≠ (v ++ "/")%string) ->
  apiFetch false (with_doc (setHaUrl (u ++ "/")) s) path options reply
  = apiFetch false (with_doc (setHaUrl u) s) path options reply
  ∧ strip_final_slash (u ++ "//")%string = (u ++ "/")%string.
Proof.
  intros Hu Hend.
  destruct (strip_final_slash_spec u) as [Hslash Hplain].
  split.
  - rewrite !(apiFetch_eq _ _ _ _ _).
    unfold connectionReady, request_of, truthy. simpl.
    rewrite Hslash, (Hplain Hend).
    apply String.eqb_neq in Hu. rewrite Hu.
    destruct u; [discriminate|]. reflexivity.
  - replace (u ++ "//")%string with ((u ++ "/") ++ "/")%string
      by (rewrite <- string_app_assoc; reflexivity).
    apply strip_final_slash_spec.
Qed.

Lemma final_slash_is_ignored_witness :
  (apiFetch (A := JsValue) false
     (with_doc (fun d => setToken "secret" (setHaUrl "http://hub.local:8123/" d)) initialState)
     "/states" {| method := "GET"; body := None |} (NetworkError "offline")).1
  = [ {| url := "http://hub.local:8123/api/states"; request_method := "GET";
         authorization := "Bearer secret"; request_body := None |} ].
Proof.
  pose proof (final_slash_is_ignored (A := JsValue)
                (with_doc (setToken "secret") initialState) "http://hub.local:8123"
                "/states" {| method := "GET"; body := None |} (NetworkError "offline"))
    as Hsame.
  destruct Hsame as [Hsame _].
  - discriminate.
  - intros v Hv.
    apply (f_equal String.rev) in Hv. unfold String.rev in Hv at 2.
    rewrite rev_app_app in Hv. vm_compute in Hv. discriminate.
  - etransitivity; [exact (f_equal fst Hsame)|]. reflexivity.
Defined.

(** ** Fetching the entities *)

(** A refresh that fails keeps the entities and the time of the last
    update. The message of a failed silent poll then stays in [error]
    through every later silent poll that succeeds, and [loading] is not
    touched by silent polls; only a refresh asked by the user clears the
    message, and it always ends with [loading] off. *)
Theorem silent_polls_keep_error (envProxy : bool) (s : AppState) (f : FetchState)
    (message now : string) (polls : list (string * FetchOutcome (list HaEntity))) :
  connectionReady envProxy s = true ->
  Forall (fun poll => fulfils poll.2 = true) polls ->
  let failed := (refreshEntities envProxy s true now (NetworkError message) f).2 in
  let polled :=
    foldl (fun st poll => (refreshEntities envProxy s true poll.1 poll.2 st).2)
      failed polls in
  entities failed = entities f
  ∧ lastUpdated failed = lastUpdated f
  ∧ error failed = message
  ∧ error polled = message
  ∧ loading polled = loading f
  ∧ (∀ now' reply,
       let manual := (refreshEntities envProxy s false now' reply polled).2 in
       loading manual = false ∧ (fulfils reply = true -> error manual = "")).
Proof.
  intros Hready Hpolls failed polled.
  assert (Hstep : ∀ silent now' (reply : FetchOutcome (list HaEntity)) st,
            (refreshEntities envProxy s silent now' reply st).2
            = match settle reply with
              | Fulfilled data =>
                  {| entities := data;
                     loading := if silent then loading st else false;
                     error := if silent then error st else "";
                     lastUpdated := now' |}
              | Rejected m =>
                  {| entities := entities st;
                     loading := if silent then loading st else false;
                     error := m;
                     lastUpdated := lastUpdated st |}
              end).
  { intros silent now' reply st. unfold refreshEntities.
    rewrite (apiFetch_eq _ _ _ _ _), Hready. reflexivity. }
  assert (Hfailed : failed = {| entities := entities f; loading := loading f;
                                error := message; lastUpdated := lastUpdated f |})
    by (unfold failed; rewrite Hstep; reflexivity).
  assert (Hpolled : error polled = message ∧ loading polled = loading f).
  { unfold polled. clearbody failed. subst failed.
    generalize {| entities := entities f; loading := loading f;
                  error := message; lastUpdated := lastUpdated f |}
      (eq_refl : error {| entities := entities f; loading := loading f;
                          error := message; lastUpdated := lastUpdated f |} = message)
      (eq_refl : loading {| entities := entities f; loading := loading f;
                            error := message; lastUpdated := lastUpdated f |} = loading f).
    induction Hpolls as [|poll rest Hpoll _ IH]; intros st He Hl; simpl; [tauto|].
    apply IH; rewrite Hstep; destruct (settle_fulfils _ Hpoll) as [data ->]; assumption. }
  rewrite Hfailed. simpl.
  repeat split; try tauto.
  - rewrite Hstep. destruct (settle reply); reflexivity.
  - intros Hreply. rewrite Hstep. destruct (settle_fulfils _ Hreply) as [data ->].
    reflexivity.
Qed.

Lemma silent_polls_keep_error_witness :
  let s := with_doc (fun d => setToken "secret" (setHaUrl "http://hub.local:8123" d))
             initialState in
  let f := {| entities := []; loading := false; error := ""; lastUpdated := "" |} in
  let good : FetchOutcome (list HaEntity) :=
    Responded {| status := 200; text := ""; json := Fulfilled [] |} in
  error
    (foldl (fun st poll => (refreshEntities false s true poll.1 poll.2 st).2)
       (refreshEntities false s true "10:00:00" (NetworkError "Failed to fetch") f).2
       [("10:00:03", good); ("10:00:06", good)])
  = "Failed to fetch".
Proof.
  intros s f good.
  apply (silent_polls_keep_error false s f "Failed to fetch" "10:00:00"
           [("10:00:03", good); ("10:00:06", good)]).
  - reflexivity.
  - repeat constructor.
Defined.

(** ** The save debounce *)

Section Debounce.
Variable envProxy : bool.

Lemma step_one_pending (ses : Session) (ev : Event) :
  (∀ id closure, timers ses !! id = Some closure -> saveDebounceRef ses = Some id) ->
  ∀ id closure, timers (step envProxy ses ev) !! id = Some closure ->
    saveDebounceRef (step envProxy ses ev) = Some id.
Proof.
  intros Hinv. destruct ev as [f|v|v| | | | |reply|t reply]; simpl; try exact Hinv.
  - unfold saveDebounceEffect. destruct (_ || _); [exact Hinv|]. simpl.
    assert (Hcleared : match saveDebounceRef ses with
                       | Some id => delete id (timers ses)
                       | None => timers ses
                       end = ∅).
    { apply map_eq. intros id. rewrite lookup_empty.
      destruct (saveDebounceRef ses) as [t|] eqn:Href.
      - destruct (decide (t = id)) as [->|Hne]; [apply lookup_delete_eq|].
        rewrite lookup_delete_ne by assumption.
        destruct (timers ses !! id) eqn:Hid; [|reflexivity].
        specialize (Hinv id _ Hid). congruence.
      - destruct (timers ses !! id) eqn:Hid; [|reflexivity].
        specialize (Hinv id _ Hid). congruence. }
    rewrite Hcleared. intros id closure [[<- _]|[_ Hid]]%lookup_insert_Some;
      [reflexivity|]. rewrite lookup_empty in Hid. discriminate.
  - unfold loadEffect. destruct (_ && _); [|exact Hinv].
    destruct (loadPanelSettings envProxy (app ses) reply). exact Hinv.
  - unfold saveTimerFires. destruct (timers ses !! t); [|exact Hinv]. simpl.
    intros id closure [_ Hid]%lookup_delete_Some. eapply Hinv, Hid.
Qed.

Lemma run_one_pending (events : list Event) (s : AppState) :
  ∀ id closure,
    timers (run envProxy events (startSession s)) !! id = Some closure ->
    saveDebounceRef (run envProxy events (startSession s)) = Some id.
Proof.
  induction events as [|ev events IH] using rev_ind.
  - intros id closure Hid. simpl in Hid. rewrite lookup_empty in Hid. discriminate.
  - unfold run in *. rewrite foldl_app. simpl. apply step_one_pending, IH.
Qed.

(** In every run of a session at most one flush is pending, and it is
    the one the debounce reference holds. *)
Theorem at_most_one_flush_pending (events : list Event) (s : AppState) :
  let ses := run envProxy events (startSession s) in
  (∀ id closure, timers ses !! id = Some closure -> saveDebounceRef ses = Some id)
  ∧ (size (timers ses) <= 1)%nat.
Proof.
  intros ses.
  pose proof (run_one_pending events s) as Hinv. fold ses in Hinv.
  split; [exact Hinv|].
  destruct (saveDebounceRef ses) as [t|] eqn:Href.
  - assert (Hsub : timers ses ⊆ {[ t := default s (timers ses !! t) ]}).
    { apply map_subseteq_spec. intros id closure Hid.
      specialize (Hinv id closure Hid). injection Hinv as <-.
      rewrite Hid. apply lookup_singleton_eq. }
    apply map_subseteq_size in Hsub. rewrite map_size_singleton in Hsub.
    exact Hsub.
  - assert (Hempty : timers ses = ∅).
    { apply map_eq. intros id. rewrite lookup_empty.
      destruct (timers ses !! id) eqn:Hid; [|reflexivity].
      specialize (Hinv id _ Hid). congruence. }
    rewrite Hempty, map_size_empty. lia.
Qed.

(** After any history, once the session is connected and loaded, the
    debounce effect leaves exactly one flush pending, with the state of
    that render; when its timer fires, exactly one request is added: a
    [PUT] of the settings path whose body is the whole document of that
    render, and nothing stays pending. *)
Theorem flush_sends_whole_document_once (events : list Event) (s : AppState)
    (reply : FetchOutcome JsValue) :
  let ses := run envProxy events (startSession s) in
  connectionReady envProxy (app ses) = true ->
  settingsLoaded (app ses) = true ->
  let scheduled := saveDebounceEffect envProxy ses in
  let fired := saveTimerFires envProxy (nextTimerId ses) reply scheduled in
  timers scheduled = {[ nextTimerId ses := app ses ]}
  ∧ timers fired = ∅
  ∧ sent fired
    = sent ses
      ++ [ {| url := (if envProxy then "" else strip_final_slash (haUrl (doc (app ses))))
                     ++ "/api/studio_panel/settings";
              request_method := "PUT";
              authorization := "Bearer " ++ token (doc (app ses));
              request_body := Some (doc (app ses)) |} ]
  ∧ app fired = app ses.
Proof.
  intros ses Hready Hloaded scheduled fired.
  pose proof (run_one_pending events s) as Hinv. fold ses in Hinv.
  assert (Hsched : timers scheduled = {[ nextTimerId ses := app ses ]}
                   ∧ sent scheduled = sent ses ∧ app scheduled = app ses).
  { unfold scheduled, saveDebounceEffect. rewrite Hready, Hloaded. simpl.
    split; [|split; reflexivity].
    assert (Hcleared : match saveDebounceRef ses with
                       | Some id => delete id (timers ses)
                       | None => timers ses
                       end = ∅).
    { apply map_eq. intros id. rewrite lookup_empty.
      destruct (saveDebounceRef ses) as [t|] eqn:Href.
      - destruct (decide (t = id)) as [->|Hne]; [apply lookup_delete_eq|].
        rewrite lookup_delete_ne by assumption.
        destruct (timers ses !! id) eqn:Hid; [|reflexivity].
        specialize (Hinv id _ Hid). congruence.
      - destruct (timers ses !! id) eqn:Hid; [|reflexivity].
        specialize (Hinv id _ Hid). congruence. }
    rewrite Hcleared. reflexivity. }
  destruct Hsched as (Htimers & Hsent & Happ).
  split; [exact Htimers|].
  unfold fired, saveTimerFires. rewrite Htimers, lookup_singleton_eq. simpl.
  split; [apply delete_singleton_eq|].
  split; [|exact Happ].
  rewrite Hsent. f_equal.
  unfold persistPanelSettings. rewrite Hready, Hloaded. simpl.
  rewrite (apiFetch_eq _ _ _ _ _), Hready, spread_no_patch.
  reflexivity.
Qed.

(** ** Loading the settings *)

(** In a connected render, a load that is not fulfilled only writes its
    message to [storageError], and so does a load whose body is [null],
    with the message of the [TypeError]: the flag stays as it was. A load
    fulfilled with another body raises the flag, clears [storageError],
    keeps the token, keeps a URL that is not empty and the session
    connected, leaves the lock and its fields alone, and replaces the
    lists and maps of the mirror by what is stored, or by empty ones,
    whatever they held before. *)
Theorem load_outcomes (s : AppState) (reply : FetchOutcome SettingsBody) :
  connectionReady envProxy s = true ->
  let loaded := (loadPanelSettings envProxy s reply).2 in
  (fulfils reply = false ->
   ∃ message, loaded = setStorageError message s)
  ∧ (∀ typeError, settle reply = Fulfilled (NullBody typeError) ->
       loaded = setStorageError typeError s
       ∧ settingsLoaded loaded = settingsLoaded s)
  ∧ (∀ stored, settle reply = Fulfilled (Document stored) ->
       settingsLoaded loaded = true
       ∧ storageError loaded = ""
       ∧ token (doc loaded) = token (doc s)
       ∧ (haUrl (doc s) ≠ "" -> haUrl (doc loaded) = haUrl (doc s))
       ∧ connectionReady envProxy loaded = true
       ∧ settingsUnlocked loaded = settingsUnlocked s
       ∧ passwordInput loaded = passwordInput s
       ∧ newPassword loaded = newPassword s
       ∧ hiddenEntities (doc loaded) = default [] (stored_hiddenEntities stored)
       ∧ entityOrder (doc loaded) = default [] (stored_entityOrder stored)
       ∧ customCategories (doc loaded) = default [] (stored_customCategories stored)
       ∧ nameOverrides (doc loaded) = default ∅ (stored_nameOverrides stored)
       ∧ categoryMap (doc loaded) = default ∅ (stored_categoryMap stored)
       ∧ passwordHash (doc loaded) = default "" (stored_passwordHash stored)).
Proof.
  intros Hready loaded.
  assert (Hloaded : loaded
    = match settle reply with
      | Fulfilled (NullBody typeError) => setStorageError typeError s
      | Fulfilled (Document parsed) =>
          {| doc :=
               {| haUrl :=
                    if truthy (default "" (stored_haUrl parsed))
                       && negb (truthy (haUrl (doc s)))
                    then default "" (stored_haUrl parsed) else haUrl (doc s);
                  token :=
                    if truthy (default "" (stored_haToken parsed))
                       && negb (truthy (token (doc s)))
                    then default "" (stored_haToken parsed) else token (doc s);
                  hiddenEntities := default [] (stored_hiddenEntities parsed);
                  nameOverrides := default ∅ (stored_nameOverrides parsed);
                  categoryMap := default ∅ (stored_categoryMap parsed);
                  entityOrder := default [] (stored_entityOrder parsed);
                  customCategories := default [] (stored_customCategories parsed);
                  passwordHash := default "" (stored_passwordHash parsed) |};
             settingsUnlocked := settingsUnlocked s;
             passwordInput := passwordInput s;
             newPassword := newPassword s;
             settingsError := settingsError s;
             storageError := "";
             settingsLoaded := true |}
      | Rejected message => setStorageError message s
      end).
  { unfold loaded, loadPanelSettings. rewrite Hready.
    rewrite (apiFetch_eq _ _ _ _ _), Hready. reflexivity. }
  split; [|split].
  - intros Hfail. destruct (settle_not_fulfils _ Hfail) as [message Hm].
    exists message. rewrite Hloaded, Hm. reflexivity.
  - intros typeError Hnull. rewrite Hloaded, Hnull. split; reflexivity.
  - intros stored Hstored. rewrite Hloaded, Hstored.
    unfold connectionReady in *. simpl.
    apply andb_true_iff in Hready as [Htoken Hurl].
    rewrite Htoken, andb_false_r. simpl.
    repeat split.
    + intros Hne. apply String.eqb_neq in Hne. unfold truthy. rewrite Hne.
      rewrite andb_false_r. reflexivity.
    + assert (Htoken' : ∀ c x, truthy (if c && negb true then x else token (doc s)) = true)
        by (intros c x; rewrite andb_false_r; exact Htoken).
      rewrite ?Htoken'. simpl.
      destruct (truthy (haUrl (doc s))) eqn:Hu; simpl.
      * rewrite ?andb_false_r, ?Htoken, ?Hu. simpl. rewrite ?Htoken. apply orb_true_r.
      * rewrite orb_false_r in Hurl. rewrite ?Htoken, Hurl. reflexivity.
Qed.

Lemma step_keeps_loaded (ses : Session) (ev : Event) :
  settingsLoaded (app ses) = true ->
  settingsLoaded (app (step envProxy ses ev)) = true
  ∧ List.filter is_get (sent (step envProxy ses ev)) = List.filter is_get (sent ses).
Proof.
  intros Hloaded. destruct ev as [f|v|v| | | | |reply|t reply]; simpl;
    rewrite ?handleUnlock_settingsLoaded, ?updatePassword_settingsLoaded;
    try (split; [exact Hloaded|reflexivity]).
  - unfold saveDebounceEffect. destruct (_ || _); split; try assumption; reflexivity.
  - unfold loadEffect. rewrite Hloaded, andb_false_r. split; [assumption|reflexivity].
  - unfold saveTimerFires. destruct (timers ses !! t) as [closure|];
      [|split; [assumption|reflexivity]].
    simpl. split; [exact Hloaded|].
    rewrite List.filter_app.
    assert (Hput : List.filter is_get (persistPanelSettings envProxy closure no_patch reply).1
                   = []).
    { unfold persistPanelSettings. destruct (_ || _); [reflexivity|].
      rewrite (apiFetch_eq _ _ _ _ _).
      destruct (connectionReady envProxy closure); reflexivity. }
    rewrite Hput. apply app_nil_r.
Qed.

(** The settings are loaded once: after a load has succeeded the flag
    stays up through every event, and the session sends no further [GET]
    of the settings. *)
Theorem settings_are_loaded_once (events : list Event) (ses : Session) :
  settingsLoaded (app ses) = true ->
  settingsLoaded (app (run envProxy events ses)) = true
  ∧ List.filter is_get (sent (run envProxy events ses)) = List.filter is_get (sent ses).
Proof.
  intros Hloaded. induction events as [|ev events [IH1 IH2]] using rev_ind.
  - split; [exact Hloaded|reflexivity].
  - unfold run in *. rewrite foldl_app. simpl.
    destruct (step_keeps_loaded _ ev IH1) as [H1 H2].
    split; [exact H1|]. rewrite H2. exact IH2.
Qed.

End Debounce.

Lemma at_most_one_flush_pending_witness :
  let events :=
    [ Mutate (fun d => setToken "secret" (setHaUrl "http://hub.local:8123" d));
      RunLoadEffect
        (Responded {| status := 200; text := "";
                      json := Fulfilled
                        (Document
                           {| stored_haUrl := None; stored_haToken := None;
                              stored_hiddenEntities := None; stored_nameOverrides := None;
                              stored_categoryMap := None; stored_entityOrder := None;
                              stored_customCategories := None;
                              stored_passwordHash := None |}) |});
      RunSaveDebounceEffect;
      Mutate (fun d => setHaUrl "http://hub.local:8123/" d);
      RunSaveDebounceEffect ] in
  saveDebounceRef (run false events (startSession initialState)) = Some 2%nat.
Proof.
  intros events.
  destruct (at_most_one_flush_pending false events initialState) as [Hinv _].
  apply (Hinv 2%nat (app (run false events (startSession initialState)))).
  vm_compute. reflexivity.
Defined.

Lemma flush_sends_whole_document_once_witness :
  let connect := Mutate (fun d => setToken "secret" (setHaUrl "http://hub.local:8123" d)) in
  let stored :=
    {| stored_haUrl := None; stored_haToken := None;
       stored_hiddenEntities := Some ["switch.fan"]; stored_nameOverrides := None;
       stored_categoryMap := None; stored_entityOrder := None;
       stored_customCategories := None; stored_passwordHash := None |} in
  let events :=
    [ connect;
      RunLoadEffect (Responded {| status := 200; text := ""; json := Fulfilled (Document stored) |});
      Mutate (fun d => setPasswordHash "00" d); RunSaveDebounceEffect;
      Mutate (fun d => setPasswordHash "01" d) ] in
  let ses := run false events (startSession initialState) in
  timers (saveDebounceEffect false ses) = {[ nextTimerId ses := app ses ]}.
Proof.
  intros connect stored events ses.
  apply (flush_sends_whole_document_once false events initialState
           (NetworkError "offline")); reflexivity.
Defined.

Lemma load_outcomes_witness :
  let s := with_doc (fun d => setToken "secret" (setHaUrl "http://hub.local:8123" d))
             initialState in
  let reply :=
    Responded
      {| status := 200; text := "null";
         json := Fulfilled (NullBody "Cannot read properties of null (reading 'haUrl')") |} in
  (loadPanelSettings false s reply).2
  = setStorageError "Cannot read properties of null (reading 'haUrl')" s
  ∧ settingsLoaded (loadPanelSettings false s reply).2 = false.
Proof.
  intros s reply.
  destruct (load_outcomes false s reply eq_refl) as (_ & Hnull & _).
  apply (Hnull "Cannot read properties of null (reading 'haUrl')"). reflexivity.
Defined.

Lemma settings_are_loaded_once_witness :
  let ses :=
    {| app := setSettingsLoaded true
                (with_doc (fun d => setToken "secret" (setHaUrl "http://hub.local:8123" d))
                   initialState);
       timers := ∅; saveDebounceRef := None; nextTimerId := 1; sent := [] |} in
  List.filter is_get
    (sent (run false
             [ RunLoadEffect (NetworkError "offline"); RunSaveDebounceEffect;
               TimerFires 1 (NetworkError "offline");
               RunLoadEffect (NetworkError "offline") ] ses))
  = [].
Proof.
  intros ses.
  apply (settings_are_loaded_once false
           [ RunLoadEffect (NetworkError "offline"); RunSaveDebounceEffect;
             TimerFires 1 (NetworkError "offline");
             RunLoadEffect (NetworkError "offline") ] ses).
  reflexivity.
Defined.

(** ** More on the settings lock *)

(** The three handlers of the lock change nothing of the persisted
    document but the password hash, never touch the flag of the load or
    [storageError], and never clear a hash that is set. A wrong attempt
    only writes the error, however often it is repeated. Changing the
    password asks neither for the old one nor for an open lock. *)
Theorem lock_handlers_spare_the_document (s : AppState) :
  Forall
    (fun handler : AppState -> AppState =>
       doc (handler s) = setPasswordHash (passwordHash (doc (handler s))) (doc s)
       ∧ settingsLoaded (handler s) = settingsLoaded s
       ∧ storageError (handler s) = storageError s
       ∧ (passwordHash (doc s) ≠ "" -> passwordHash (doc (handler s)) ≠ ""))
    [handleUnlock; handleLock; updatePassword]
  ∧ (passwordHash (doc s) ≠ "" ->
     hashValue (passwordInput s) ≠ passwordHash (doc s) ->
     handleUnlock s = setSettingsError "Incorrect password." s
     ∧ handleUnlock (handleUnlock s) = handleUnlock s)
  ∧ (trim (newPassword s) ≠ "" ->
     lockState (updatePassword s) = Unlocked
     ∧ passwordHash (doc (updatePassword s)) = hashValue (trim (newPassword s))).
Proof.
  assert (Hhash : ∀ value, hashValue value ≠ "").
  { intros value Hv. pose proof (hashValue_truthy value) as Ht.
    unfold truthy in Ht. rewrite Hv in Ht. discriminate. }
  split; [|split].
  - repeat apply List.Forall_cons; try apply List.Forall_nil;
      (split; [|split; [|split]]);
      first [ apply handleUnlock_settingsLoaded
            | apply updatePassword_settingsLoaded
            | solve [ unfold handleUnlock, updatePassword, handleLock;
                      repeat case_match; simpl; auto ]
            | solve [ unfold handleUnlock, updatePassword, handleLock;
                      repeat case_match; destruct s as [[] ]; reflexivity ] ].
  - intros Hset Hwrong.
    assert (Hstep : ∀ s', passwordHash (doc s') = passwordHash (doc s) ->
                      passwordInput s' = passwordInput s ->
                      handleUnlock s' = setSettingsError "Incorrect password." s').
    { intros s' Hp Hi. unfold handleUnlock. rewrite Hp, Hi.
      apply String.eqb_neq in Hset, Hwrong. unfold truthy. rewrite Hset, Hwrong.
      reflexivity. }
    rewrite (Hstep s eq_refl eq_refl).
    split; [reflexivity|].
    rewrite (Hstep (setSettingsError "Incorrect password." s) eq_refl eq_refl).
    reflexivity.
  - intros Hnew. unfold updatePassword, truthy.
    apply String.eqb_neq in Hnew. rewrite Hnew. simpl. split; reflexivity.
Qed.

Lemma lock_handlers_spare_the_document_witness :
  let s :=
    setPasswordInput "guess"
      (with_doc (setPasswordHash (hashValue "abc")) initialState) in
  handleUnlock (handleUnlock s) = handleUnlock s.
Proof.
  intros s.
  destruct (lock_handlers_spare_the_document s) as (_ & Hwrong & _).
  apply Hwrong; vm_compute; discriminate.
Defined.

(** ** Applying the controls of a light *)

Section Apply.
Context `{Host}.

(** A light the user has not touched is applied with the color the
    device reported, when its components are integers from 0 to 255;
    when the device reports no color, a color-capable light is applied
    as white. *)
Theorem untouched_light_applies_device_color (before after : list HaEntity)
    (entity : HaEntity) (prev : gmap string LightControlState) :
  startsWith (entity_id entity) "light." = true ->
  prev !! entity_id entity = None ->
  Forall (fun e' => entity_id e' ≠ entity_id entity) before ->
  supportsColor (getLightCapabilities entity) = true ->
  ∃ payload,
    applyLight (bootstrapLightControls (before ++ entity :: after) prev) entity
      = Calls payload
    ∧ payload_entity_id payload = entity_id entity
    ∧ (∀ r g b rest,
         opt_get (attributes entity) "rgb_color"
           = JArr (JNum (num r) :: JNum (num g) :: JNum (num b) :: rest) ->
         0 <= r < 256 -> 0 <= g < 256 -> 0 <= b < 256 ->
         payload_rgb_color payload = Some [num r; num g; num b])
    ∧ (opt_get (attributes entity) "rgb_color" = JUndefined ->
       payload_rgb_color payload = Some [num 255; num 255; num 255]).
Proof.
  intros Hlight Hnew Hbefore Hcolor.
  unfold applyLight, read_property.
  rewrite (bootstrapLightControls_seeds before after entity prev Hlight Hnew Hbefore).
  rewrite Hcolor. eexists. split; [reflexivity|]. split; [reflexivity|].
  cbn [payload_rgb_color seedLightControl color]. split.
  - intros r g b rest -> Hr Hg Hb. f_equal.
    destruct (toHex_byte r Hr) as (r1 & r2 & Er & Pr).
    destruct (toHex_byte g Hg) as (g1 & g2 & Eg & Pg).
    destruct (toHex_byte b Hb) as (b1 & b2 & Eb & Pb).
    unfold rgbToHex. rewrite Er, Eg, Eb.
    unfold hexToRgb. simpl remove_first_hash. simpl String.length. simpl negb.
    cbv iota. unfold slice. simpl String.substring.
    rewrite Pr, Pg, Pb. reflexivity.
  - intros ->. reflexivity.
Qed.

End Apply.

Lemma untouched_light_applies_device_color_witness :
  let lamp :=
    {| entity_id := "light.desk"; state := "on";
       attributes :=
         JObj [("color_mode", JStr "rgb");
               ("rgb_color", JArr [JNum (num 255); JNum (num 128); JNum (num 0)])] |} in
  ∃ payload,
    applyLight (bootstrapLightControls (H := codeUnitHost) [lamp] ∅) lamp = Calls payload
    ∧ payload_rgb_color payload = Some [num 255; num 128; num 0].
Proof.
  intros lamp.
  destruct (untouched_light_applies_device_color (H := codeUnitHost) [] [] lamp ∅)
    as (payload & Happly & _ & Hrgb & _).
  - reflexivity.
  - apply lookup_empty.
  - constructor.
  - reflexivity.
  - exists payload. split; [exact Happly|].
    apply (Hrgb 255 128 0 []); [reflexivity|lia|lia|lia].
Defined.

(** The color input schedules the apply in the render it was changed
    in: when that timer fires, the call carries the color and the
    brightness the light had before the change, although the controls
    hold the new color by then. A release of a slider in the next render
    schedules a call that carries the new color. *)
Theorem color_apply_sends_previous_color (entity : HaEntity) (value : string)
    (p : LightPanel) (control : LightControlState) :
  lightControls p !! entity_id entity = Some control ->
  supportsColor (getLightCapabilities entity) = true ->
  let changed := colorInputChanged entity value p in
  color <$> lightControls changed !! entity_id entity = Some value
  ∧ (∃ payload,
       lightTimerFires (nextLightTimer p) changed = Some (Calls payload)
       ∧ payload_rgb_color payload = Some (hexToRgb (color control))
       ∧ payload_brightness payload = Math_round (brightness control))
  ∧ (∃ payload,
       lightTimerFires (nextLightTimer changed) (scheduleLightApply entity changed)
         = Some (Calls payload)
       ∧ payload_rgb_color payload = Some (hexToRgb value)
       ∧ payload_brightness payload = Math_round (brightness control)).
Proof.
  intros Hc Hcolor changed. split; [|split].
  - unfold changed, colorInputChanged, changeColor. cbn [lightControls].
    rewrite lookup_insert_eq. reflexivity.
  - unfold lightTimerFires, changed, colorInputChanged, scheduleLightApply.
    cbn [lightTimers lightControls nextLightTimer].
    rewrite lookup_insert_eq.
    unfold applyLight, read_property. rewrite Hc, Hcolor.
    eexists. split; [reflexivity|]. split; reflexivity.
  - unfold lightTimerFires, scheduleLightApply.
    cbn [lightTimers lightControls nextLightTimer].
    rewrite lookup_insert_eq.
    unfold applyLight, read_property, changed, colorInputChanged, changeColor.
    cbn [lightControls]. rewrite lookup_insert_eq, Hcolor, Hc.
    eexists. split; [reflexivity|]. split; reflexivity.
Qed.

Lemma color_apply_sends_previous_color_witness :
  let lamp :=
    {| entity_id := "light.desk"; state := "on";
       attributes := JObj [("color_mode", JStr "rgb")] |} in
  let white := {| brightness := num 180; color := "#ffffff"; colorTemp := num 300 |} in
  ∃ payload,
    lightTimerFires 1 (colorInputChanged lamp "#ff0000" (mountedLights {[ "light.desk" := white ]}))
      = Some (Calls payload)
    ∧ payload_rgb_color payload = Some (hexToRgb "#ffffff").
Proof.
  intros lamp white.
  destruct (color_apply_sends_previous_color lamp "#ff0000"
              (mountedLights {[ "light.desk" := white ]}) white
              (lookup_singleton_eq _ _) eq_refl)
    as (_ & (payload & Hfires & Hrgb & _) & _).
  exists payload. split; [exact Hfires|exact Hrgb].
Defined.

(** *** One pending apply for each light *)

(** What holds of the panel after any events: a pending timer is the
    one [lightDebounceRef] records for its light, and the recorded ids
    are positive, were handed out before and differ from light to
    light. *)
Definition light_timers_recorded (p : LightPanel) : Prop :=
  (1 <= nextLightTimer p)%nat
  ∧ (∀ timer entity controls,
       lightTimers p !! timer = Some (entity, controls) ->
       lightDebounceRef p !! entity_id entity = Some timer)
  ∧ (∀ id timer,
       lightDebounceRef p !! id = Some timer -> (1 <= timer < nextLightTimer p)%nat)
  ∧ (∀ id1 id2 timer,
       lightDebounceRef p !! id1 = Some timer ->
       lightDebounceRef p !! id2 = Some timer -> id1 = id2).

Lemma scheduleLightApply_recorded (entity : HaEntity) (p : LightPanel) :
  light_timers_recorded p -> light_timers_recorded (scheduleLightApply entity p).
Proof.
  intros (Hnext & Hpending & Hids & Hinj).
  unfold light_timers_recorded, scheduleLightApply.
  cbn [lightTimers lightDebounceRef nextLightTimer].
  split; [lia|split; [|split]].
  - intros timer e controls.
    destruct (decide (timer = nextLightTimer p)) as [->|Hne].
    + rewrite lookup_insert_eq. intros [= <- _]. apply lookup_insert_eq.
    + rewrite lookup_insert_ne by congruence. intros Hin.
      assert (Hold : lightTimers p !! timer = Some (e, controls)).
      { destruct (lightDebounceRef p !! entity_id entity) as [t|]; [|exact Hin].
        destruct (t =? 0)%nat; [exact Hin|].
        apply lookup_delete_Some in Hin as [_ Hin]. exact Hin. }
      pose proof (Hpending _ _ _ Hold) as Href.
      destruct (decide (entity_id e = entity_id entity)) as [Heq|Hid].
      * exfalso. rewrite Heq in Href. rewrite Href in Hin.
        destruct (Hids _ _ Href) as [Hpos _].
        destruct (Nat.eqb_spec timer 0) as [->|_]; [lia|].
        apply lookup_delete_Some in Hin as [Hin _]. congruence.
      * rewrite lookup_insert_ne by congruence. exact Href.
  - intros id timer.
    destruct (decide (id = entity_id entity)) as [->|Hne].
    + rewrite lookup_insert_eq. intros [= <-]. lia.
    + rewrite lookup_insert_ne by congruence. intros Hin%Hids. lia.
  - intros id1 id2 timer.
    destruct (decide (id1 = entity_id entity)) as [->|Hne1],
             (decide (id2 = entity_id entity)) as [->|Hne2];
      rewrite ?lookup_insert_eq, ?lookup_insert_ne by congruence.
    + reflexivity.
    + intros [= <-] Hin%Hids. lia.
    + intros Hin%Hids [= <-]. lia.
    + apply Hinj.
Qed.

Lemma lightStep_recorded (p : LightPanel) (ev : LightEvent) :
  light_timers_recorded p -> light_timers_recorded (lightStep p ev).
Proof.
  intros Hrec. destruct ev as [entity value|entity value|entity value|entity|timer];
    cbn [lightStep].
  - exact Hrec.
  - exact (scheduleLightApply_recorded entity p Hrec).
  - exact Hrec.
  - exact (scheduleLightApply_recorded entity p Hrec).
  - destruct Hrec as (Hnext & Hpending & Hids).
    split; [exact Hnext|split; [|exact Hids]].
    cbn [lightTimers lightDebounceRef].
    intros t e c [_ Hin]%lookup_delete_Some. eapply Hpending, Hin.
Qed.

Lemma lightRun_recorded (controls : gmap string LightControlState)
    (events : list LightEvent) :
  light_timers_recorded (lightRun (mountedLights controls) events).
Proof.
  induction events as [|ev events IH] using rev_ind.
  - split; [simpl; lia|split; [|split]].
    + intros timer entity c. cbn. rewrite lookup_empty. discriminate.
    + intros id timer. cbn. rewrite lookup_empty. discriminate.
    + intros id1 id2 timer. cbn. rewrite lookup_empty. discriminate.
  - unfold lightRun. rewrite foldl_app. apply lightStep_recorded, IH.
Qed.

(** Whatever happens to the cards, at most one apply is pending for
    each light; scheduling an apply for one light replaces the pending
    apply of that light and leaves the pending applies of the other
    lights as they are. *)
Theorem one_apply_pending_per_light (controls : gmap string LightControlState)
    (events : list LightEvent) (entity : HaEntity) :
  let p := lightRun (mountedLights controls) events in
  (∀ t1 t2 e1 e2 c1 c2,
     lightTimers p !! t1 = Some (e1, c1) ->
     lightTimers p !! t2 = Some (e2, c2) ->
     entity_id e1 = entity_id e2 -> t1 = t2)
  ∧ (∀ t e c,
       lightTimers (scheduleLightApply entity p) !! t = Some (e, c) ->
       entity_id e = entity_id entity ->
       t = nextLightTimer p ∧ e = entity ∧ c = lightControls p)
  ∧ (∀ t e c,
       lightTimers p !! t = Some (e, c) ->
       entity_id e ≠ entity_id entity ->
       lightTimers (scheduleLightApply entity p) !! t = Some (e, c)).
Proof.
  intros p.
  pose proof (lightRun_recorded controls events) as Hrec. fold p in Hrec.
  pose proof (scheduleLightApply_recorded entity p Hrec) as Hrec'.
  destruct Hrec as (Hnext & Hpending & Hids & Hinj).
  split; [|split].
  - intros t1 t2 e1 e2 c1 c2 H1%Hpending H2%Hpending Heq.
    rewrite Heq in H1. congruence.
  - intros t e c Hin Heq.
    destruct Hrec' as (_ & Hpending' & _).
    pose proof (Hpending' _ _ _ Hin) as Href.
    rewrite Heq in Href. unfold scheduleLightApply in Href, Hin.
    cbn [lightDebounceRef lightTimers] in Href, Hin.
    rewrite lookup_insert_eq in Href. injection Href as <-.
    rewrite lookup_insert_eq in Hin. injection Hin as <- <-. auto.
  - intros t e c Hin Hne.
    pose proof (Hpending _ _ _ Hin) as Href.
    destruct (Hids _ _ Href) as [_ Hlt].
    unfold scheduleLightApply. cbn [lightTimers].
    rewrite lookup_insert_ne by lia.
    destruct (lightDebounceRef p !! entity_id entity) as [t'|] eqn:Hown; [|exact Hin].
    destruct (t' =? 0)%nat; [exact Hin|].
    rewrite lookup_delete_ne; [exact Hin|].
    intros ->. apply Hne. exact (Hinj _ _ _ Href Hown).
Qed.

(** ** Adding a category *)

(** The [Add] button does nothing on a blank name and keeps the text
    field; otherwise it clears the field and the trimmed name is in the
    custom categories exactly once, after the earlier ones, so that a
    second click with the same name changes nothing, and the list of
    categories offers it. *)
Theorem addCategory_adds_once (newCategory : string) (prev fromMap : list string) :
  NoDup prev ->
  (trim newCategory = "" -> addCategory newCategory prev = (prev, newCategory))
  ∧ (trim newCategory ≠ "" ->
     let next := (addCategory newCategory prev).1 in
     (addCategory newCategory prev).2 = ""
     ∧ (next = prev ∧ trim newCategory ∈ prev
        ∨ next = prev ++ [trim newCategory] ∧ trim newCategory ∉ prev)
     ∧ NoDup next
     ∧ (addCategory newCategory next).1 = next
     ∧ trim newCategory ∈ categoryList fromMap next).
Proof.
  intros Hnd. unfold addCategory, truthy. split.
  - intros ->. reflexivity.
  - intros Hname%String.eqb_neq. rewrite Hname. cbn [negb fst snd].
    assert (Hcases :
      (if existsb (String.eqb (trim newCategory)) prev then prev
       else prev ++ [trim newCategory]) = prev ∧ trim newCategory ∈ prev
      ∨ (if existsb (String.eqb (trim newCategory)) prev then prev
         else prev ++ [trim newCategory]) = prev ++ [trim newCategory]
        ∧ trim newCategory ∉ prev).
    { destruct (existsb (String.eqb (trim newCategory)) prev) eqn:Hin.
      - left. split; [reflexivity|]. apply existsb_eqb_elem_of, Hin.
      - right. split; [reflexivity|]. apply existsb_eqb_not_elem_of, Hin. }
    split; [reflexivity|]. split; [exact Hcases|].
    assert (Hmember : trim newCategory ∈
              (if existsb (String.eqb (trim newCategory)) prev then prev
               else prev ++ [trim newCategory])).
    { destruct Hcases as [[-> Hin]|[-> _]]; [exact Hin|].
      apply elem_of_app. right. apply list_elem_of_singleton. reflexivity. }
    split; [|split].
    + destruct Hcases as [[-> _]|[-> Hnot]]; [exact Hnd|].
      apply NoDup_app. split; [exact Hnd|]. split.
      * intros x Hx ->%list_elem_of_singleton. contradiction.
      * apply NoDup_singleton.
    + apply existsb_eqb_elem_of in Hmember. rewrite Hmember. reflexivity.
    + apply elem_of_categoryList. right. left. exact Hmember.
Qed.

Lemma addCategory_adds_once_witness :
  addCategory "  Studio " ["Stage"] = (["Stage"; "Studio"], "")
  ∧ "Studio" ∈ categoryList [] (addCategory "  Studio " ["Stage"]).1.
Proof.
  destruct (addCategory_adds_once "  Studio " ["Stage"] []) as [_ Hadd].
  - apply NoDup_singleton.
  - destruct Hadd as (_ & _ & _ & _ & Hlist); [discriminate|].
    split; [reflexivity|exact Hlist].
Defined.
